(** * Acgnx-Seanime: the ACGNX RSS torrent provider ([src/Acgnx.ts])

    A shallow embedding of the provider's feed-to-record pipeline
    ([parseTorrentsFromXml], [getTagContent], [getHashFromMagnet],
    [parseSizeToBytes], [fetchAndParseRss]) together with the parts of the
    JavaScript runtime the pipeline relies on: strings, regular expressions
    with capture groups, IEEE-754 binary64 numbers, and exceptions.  The
    lines in which the earlier, fixed-position variant of the provider
    differs are embedded in module [Legacy].  The public operations
    [search], [getLatest], [getTorrentInfoHash] and [getTorrentMagnetLink]
    are embedded as well, with [encodeURIComponent] in module [Uri].

    The host capabilities the provider calls ([fetch], [$habari.parse],
    [Date]) are parameters of the embedding.

    Conventions of the embedding.
    - A JavaScript string is a list of code units.  Code units are modelled
      by [ascii], i.e. the embedding covers strings whose code units lie in
      U+0000..U+00FF; case mapping, white space and line terminators are the
      ECMAScript ones restricted to that range.
    - A JavaScript number is a [spec_float] at precision 53 and maximal
      exponent 1024 (binary64), with the operations of [SpecFloat].
    - A possibly [undefined]/[null] string is an [option str].
    - Code that may throw lives in the [completion] monad. *)

From Stdlib Require Import List Bool Arith ZArith Lia Ascii.
From Stdlib Require String DecimalString.
From Stdlib Require Import Floats.SpecFloat.
Import ListNotations.
Import String.StringSyntax.

Set Implicit Arguments.

(* ================================================================== *)
(** * Strings *)
(* ================================================================== *)

Definition str := list ascii.

(** String literals of the source are written as Rocq strings. *)
Coercion String.list_ascii_of_string : String.string >-> list.

Local Open Scope char_scope.
Local Open Scope string_scope.
Local Open Scope list_scope.

Module Js.

Definition code (c : ascii) : nat := nat_of_ascii c.

Definition in_range (lo hi c : ascii) : bool :=
  (code lo <=? code c)%nat && (code c <=? code hi)%nat.

Definition is_digit (c : ascii) : bool := in_range "0" "9" c.

(** ECMAScript WhiteSpace and LineTerminator code points below U+0100:
    TAB, LF, VT, FF, CR, SP and NBSP.  This is the set removed by
    [String.prototype.trim] and matched by [\s]. *)
Definition is_space (c : ascii) : bool :=
  match code c with
  | 9 | 10 | 11 | 12 | 13 | 32 | 160 => true
  | _ => false
  end.

(** LineTerminator code points below U+0100: LF and CR. *)
Definition is_line_terminator (c : ascii) : bool :=
  match code c with
  | 10 | 13 => true
  | _ => false
  end.

(** Simple case mappings of the code points below U+0100.  The upper-case
    forms of U+00B5 and U+00FF lie outside the range and U+00DF has no
    single-character upper case, so these three are left unchanged. *)
Definition lower_char (c : ascii) : ascii :=
  let n := code c in
  if ((65 <=? n) && (n <=? 90) ||
      (192 <=? n) && (n <=? 222) && negb (n =? 215))%nat
  then ascii_of_nat (n + 32) else c.

Definition upper_char (c : ascii) : ascii :=
  let n := code c in
  if ((97 <=? n) && (n <=? 122) ||
      (224 <=? n) && (n <=? 254) && negb (n =? 247))%nat
  then ascii_of_nat (n - 32) else c.

(** [String.prototype.toLowerCase] *)
Definition toLowerCase (s : str) : str := map lower_char s.

Fixpoint drop_while (p : ascii -> bool) (s : str) : str :=
  match s with
  | [] => []
  | c :: s' => if p c then drop_while p s' else s
  end.

Fixpoint take_while (p : ascii -> bool) (s : str) : str :=
  match s with
  | [] => []
  | c :: s' => if p c then c :: take_while p s' else []
  end.

Definition trimStart (s : str) : str := drop_while is_space s.
Definition trimEnd (s : str) : str := rev (drop_while is_space (rev s)).

(** [String.prototype.trim] *)
Definition trim (s : str) : str := trimEnd (trimStart s).

Definition ascii_eqb (a b : ascii) : bool := Ascii.eqb a b.

(** [starts_with p s]: [p] is a prefix of [s]. *)
Fixpoint starts_with (p s : str) : bool :=
  match p, s with
  | [], _ => true
  | _ :: _, [] => false
  | a :: p', b :: s' => ascii_eqb a b && starts_with p' s'
  end.

(** [String.prototype.includes] *)
Fixpoint includes (s sub : str) : bool :=
  starts_with sub s ||
  match s with
  | [] => false
  | _ :: s' => includes s' sub
  end.

(** [String.prototype.split] with a non-empty string separator: the
    occurrences of the separator are found from left to right and do not
    overlap.  [skip] counts the code units of a separator occurrence still
    to be passed over; [cur] is the piece being collected, reversed. *)
Fixpoint split_go (sep : str) (skip : nat) (cur : str) (s : str) : list str :=
  match s with
  | [] => [rev cur]
  | c :: s' =>
      match skip with
      | S k => split_go sep k cur s'
      | O =>
          if starts_with sep s
          then rev cur :: split_go sep (Nat.pred (length sep)) [] s'
          else split_go sep 0 (c :: cur) s'
      end
  end.

Definition split (s sep : str) : list str := split_go sep 0 [] s.

(** [Array.prototype.shift], keeping the remaining array. *)
Definition shift {A : Type} (l : list A) : list A := tl l.

(** The truthiness of a string value. *)
Definition truthy (s : str) : bool :=
  match s with [] => false | _ => true end.

End Js.

(* ================================================================== *)
(** * Exceptions *)
(* ================================================================== *)

Inductive error : Type :=
| TypeError
| RangeError
| Error (msg : str)
| HostError.

Inductive completion (A : Type) : Type :=
| Normal (a : A)
| Throw (e : error).

Arguments Normal {A} a.
Arguments Throw {A} e.

Definition bind {A B : Type} (c : completion A) (k : A -> completion B)
  : completion B :=
  match c with
  | Normal a => k a
  | Throw e => Throw e
  end.

(** [try { body } catch (e) { handler e }] *)
Definition try_catch {A : Type} (body : completion A)
  (handler : error -> completion A) : completion A :=
  match body with
  | Normal a => Normal a
  | Throw e => handler e
  end.

Notation "x <- c ;; k" := (bind c (fun x => k))
  (at level 61, c at next level, right associativity).

(** Calling a method on a value that may be [undefined] or [null]. *)
Definition deref {A : Type} (v : option A) : completion A :=
  match v with
  | Some a => Normal a
  | None => Throw TypeError
  end.

(** [v || d] for a string-or-nullish [v] and a string [d]. *)
Definition or_else (v : option str) (d : str) : str :=
  match v with
  | Some s => if Js.truthy s then s else d
  | None => d
  end.

(* ================================================================== *)
(** * Regular expressions *)
(* ================================================================== *)

(** The fragment of the ECMAScript pattern language used by the provider,
    with the backtracking semantics of the language specification: a
    matcher returns the list of its successes in priority order, and the
    first success of the whole pattern is the match. *)

Module Regex.

Inductive regex : Type :=
| Eps                                        (* empty pattern *)
| Chr (c : ascii)                            (* pattern character *)
| Cls (invert : bool) (p : ascii -> bool)    (* [...] and [^...], \d, \s *)
| Dot                                        (* . *)
| Cat (r1 r2 : regex)
| Alt (r1 r2 : regex)                        (* r1|r2 *)
| Rep (greedy : bool) (min : nat) (max : option nat) (r : regex)
| Grp (n : nat) (r : regex)                  (* n-th capturing group *)
| Bol                                        (* ^ *)
| Eol.                                       (* $ *)

Record flags : Type := { ignoreCase : bool; dotAll : bool }.

Definition no_flags : flags := {| ignoreCase := false; dotAll := false |}.
Definition flag_i : flags := {| ignoreCase := true; dotAll := false |}.
Definition flag_s : flags := {| ignoreCase := false; dotAll := true |}.

(** Derived forms. *)
Definition star (r : regex) : regex := Rep true 0 None r.       (* r*  *)
Definition plus (r : regex) : regex := Rep true 1 None r.       (* r+  *)
Definition opt (r : regex) : regex := Rep true 0 (Some 1) r.    (* r?  *)
Definition lazy_star (r : regex) : regex := Rep false 0 None r. (* r*? *)
Definition exactly (n : nat) (r : regex) : regex := Rep true n (Some n) r.

(** A run of pattern characters. *)
Fixpoint lit (s : str) : regex :=
  match s with
  | [] => Eps
  | c :: s' => Cat (Chr c) (lit s')
  end.

(** The capturing groups that occur in a pattern. *)
Fixpoint groups (r : regex) : list nat :=
  match r with
  | Cat a b | Alt a b => groups a ++ groups b
  | Rep _ _ _ a => groups a
  | Grp n a => n :: groups a
  | _ => []
  end.

(** Matcher state: the index reached in the input, the input from that
    index on, and the captures ([None] is [undefined]); the most recent
    binding of a group is first. *)
Record mstate : Type :=
  { idx : nat; rest : str; caps : list (nat * option str) }.

Definition capture (n : nat) (cs : list (nat * option str)) : option str :=
  match find (fun b => fst b =? n)%nat cs with
  | Some (_, v) => v
  | None => None
  end.

Definition set_capture (n : nat) (v : option str) (st : mstate) : mstate :=
  {| idx := idx st; rest := rest st; caps := (n, v) :: caps st |}.

Definition clear_captures (ns : list nat) (st : mstate) : mstate :=
  {| idx := idx st; rest := rest st;
     caps := map (fun n => (n, None)) ns ++ caps st |}.

(** Canonicalize of the specification (without the unicode flag): under
    [ignoreCase] a character is compared through its upper case. *)
Definition canonicalize (fl : flags) (c : ascii) : ascii :=
  if ignoreCase fl then Js.upper_char c else c.

(** The code units of the embedding. *)
Definition all_chars : list ascii := map ascii_of_nat (seq 0 256).

(** Does some member [a] of the class [p] have the canonical form of [c]?
    Below U+0100 the characters with the canonical form of [c] are [c]
    itself, its lower case and its upper case. *)
Definition class_found (fl : flags) (p : ascii -> bool) (c : ascii) : bool :=
  if ignoreCase fl
  then p c || p (Js.lower_char c) || p (Js.upper_char c)
  else p c.

(** CharacterSetMatcher: consume one character that is (or, inverted, is
    not) in the class. *)
Definition char_set (fl : flags) (invert : bool) (p : ascii -> bool)
  (st : mstate) : list mstate :=
  match rest st with
  | [] => []
  | c :: s' =>
      if xorb invert (class_found fl p c)
      then [{| idx := S (idx st); rest := s'; caps := caps st |}]
      else []
  end.

(** RepeatMatcher for an atom with matcher [m] and groups [gs]: once [min]
    is exhausted an iteration that consumes nothing is rejected, and the
    atom's captures are reset at the start of each iteration.  [fuel]
    bounds the number of iterations. *)
Fixpoint repeat_matcher (m : mstate -> list mstate) (gs : list nat)
  (greedy : bool) (fuel : nat) (min : nat) (max : option nat)
  (x : mstate) : list mstate :=
  match max with
  | Some O => [x]
  | _ =>
      match fuel with
      | O => []
      | S fuel' =>
          let again :=
            flat_map
              (fun y =>
                 if (min =? 0)%nat && (idx y =? idx x)%nat then []
                 else repeat_matcher m gs greedy fuel'
                        (Nat.pred min) (option_map Nat.pred max) y)
              (m (clear_captures gs x)) in
          if (min =? 0)%nat
          then if greedy then again ++ [x] else x :: again
          else again
      end
  end.

Fixpoint rmatch (fl : flags) (r : regex) (st : mstate) : list mstate :=
  match r with
  | Eps => [st]
  | Chr c => char_set fl false (fun a => Js.ascii_eqb a c) st
  | Cls invert p => char_set fl invert p st
  | Dot =>
      if dotAll fl then char_set fl false (fun _ => true) st
      else char_set fl false (fun a => negb (Js.is_line_terminator a)) st
  | Cat a b => flat_map (rmatch fl b) (rmatch fl a st)
  | Alt a b => rmatch fl a st ++ rmatch fl b st
  | Rep greedy min max a =>
      repeat_matcher (rmatch fl a) (groups a) greedy
        (S (min + length (rest st))) min max st
  | Grp n a =>
      map (fun y => set_capture n
                      (Some (firstn (idx y - idx st) (rest st))) y)
          (rmatch fl a st)
  | Bol => if (idx st =? 0)%nat then [st] else []
  | Eol => match rest st with [] => [st] | _ => [] end
  end.

(** The result of a successful [exec]: where the match starts and ends,
    the matched text, and the captures. *)
Record match_result : Type :=
  { m_index : nat; m_end : nat; m_text : str;
    m_caps : list (nat * option str) }.

(** [m[k]] *)
Definition group (m : match_result) (k : nat) : option str :=
  match k with
  | O => Some (m_text m)
  | _ => capture k (m_caps m)
  end.

(** The initial state of an attempt at index [i]: no group is set. *)
Definition start (i : nat) (s : str) : mstate :=
  {| idx := i; rest := s; caps := [] |}.

(** The search for the leftmost start index at which the pattern matches,
    beginning at index [i], where [s] is the input from [i] on. *)
Fixpoint exec_from (fl : flags) (r : regex) (i : nat) (s : str)
  : option match_result :=
  match rmatch fl r (start i s) with
  | y :: _ =>
      Some {| m_index := i; m_end := idx y;
              m_text := firstn (idx y - i) s; m_caps := caps y |}
  | [] =>
      match s with
      | [] => None
      | _ :: s' => exec_from fl r (S i) s'
      end
  end.

(** [RegExp.prototype.exec] of a pattern without the global flag. *)
Definition exec (fl : flags) (r : regex) (s : str) : option match_result :=
  exec_from fl r 0 s.

(** [RegExp.prototype.test] *)
Definition test (fl : flags) (r : regex) (s : str) : bool :=
  match exec fl r s with Some _ => true | None => false end.

(** [String.prototype.replace] with a global pattern and a replacement
    text [repl] free of [$]: every match, found from left to right, is
    replaced; after an empty match the search resumes one code unit
    further.  [s] is the input from index [i] on. *)
Fixpoint replace_from (fuel : nat) (fl : flags) (r : regex) (repl : str)
  (i : nat) (s : str) : str :=
  match fuel with
  | O => s
  | S fuel' =>
      match exec_from fl r i s with
      | None => s
      | Some m =>
          let before := firstn (m_index m - i) s in
          if (m_end m =? m_index m)%nat
          then before ++ repl ++
               match skipn (m_index m - i) s with
               | [] => []
               | c :: s' =>
                   c :: replace_from fuel' fl r repl (S (m_index m)) s'
               end
          else before ++ repl ++
               replace_from fuel' fl r repl (m_end m) (skipn (m_end m - i) s)
      end
  end.

Definition replace_all (fl : flags) (r : regex) (repl : str) (s : str) : str :=
  replace_from (S (length s)) fl r repl 0 s.

(** ** Notions used to describe the matcher *)

(** The state reached from [st] by consuming [n] characters. *)
Definition advance (n : nat) (st : mstate) : mstate :=
  {| idx := n + idx st; rest := skipn n (rest st); caps := caps st |}.

(** A matcher that consumes one character satisfying [q]. *)
Definition step_if (q : ascii -> bool) (st : mstate) : list mstate :=
  match rest st with
  | [] => []
  | c :: s' =>
      if q c then [{| idx := S (idx st); rest := s'; caps := caps st |}]
      else []
  end.

(** The length of the longest prefix of [s] made of [q] characters. *)
Definition span_len (q : ascii -> bool) (s : str) : nat :=
  length (Js.take_while q s).

(** The iteration counts a quantifier tries, in order, when at most [k]
    iterations can succeed. *)
Definition counts (greedy : bool) (mn : nat) (mx : option nat) (k : nat)
  : list nat :=
  let hi := match mx with Some m => Nat.min m k | None => k end in
  let l := seq mn (S hi - mn) in
  if greedy then rev l else l.

(** The predicate a class imposes on the next character. *)
Definition class_pred (fl : flags) (invert : bool) (p : ascii -> bool)
  (c : ascii) : bool := xorb invert (class_found fl p c).

(** The predicate [.] imposes on the next character. *)
Definition dot_pred (fl : flags) (c : ascii) : bool :=
  if dotAll fl then true else negb (Js.is_line_terminator c).

(** A run of pattern characters compared with the head of [s] under the
    flags. *)
Fixpoint matches_lit (fl : flags) (l s : str) : bool :=
  match l, s with
  | [], _ => true
  | _ :: _, [] => false
  | a :: l', b :: s' =>
      class_pred fl false (fun x => Js.ascii_eqb x a) b
      && matches_lit fl l' s'
  end.

(** [y] is reached from [st] by consuming a stretch of the input. *)
Definition consumes (st y : mstate) : Prop :=
  exists w, rest st = w ++ rest y /\ idx y = length w + idx st.

End Regex.

(* ================================================================== *)
(** * Numbers *)
(* ================================================================== *)

(** JavaScript numbers are IEEE-754 binary64 values. *)

Module Num.

Definition number : Type := spec_float.

Definition prec : Z := 53.
Definition emax : Z := 1024.

Definition NaN : number := S754_nan.

(** The number denoted by an integer literal, rounded to nearest-even. *)
Definition of_Z (z : Z) : number := binary_normalize prec emax z 0 false.

(** The number nearest to the positive rational [p/q]. *)
Definition of_ratio (p q : positive) : number :=
  SFdiv prec emax (S754_finite false p 0) (S754_finite false q 0).

(** [x * y] *)
Definition mul (x y : number) : number := SFmul prec emax x y.

(** [isNaN] *)
Definition isNaN (x : number) : bool :=
  match x with S754_nan => true | _ => false end.

(** [Math.round]: the integral number closest to [x], ties towards
    +Infinity; [x] itself when it is a zero, an infinity or NaN; -0 when
    [-0.5 <= x < 0]. *)
Definition round (x : number) : number :=
  match x with
  | S754_finite s m e =>
      if (0 <=? e)%Z then x
      else
        let d := Z.pow 2 (- e) in
        let n := ((2 * cond_Zopp s (Zpos m) + d) / (2 * d))%Z in
        binary_normalize prec emax n 0 s
  | _ => x
  end.

(** The value of a run of decimal digits. *)
Definition digit_value (c : ascii) : Z := Z.of_nat (Js.code c - 48).

Definition digits_value (ds : str) : Z :=
  fold_left (fun acc c => (10 * acc + digit_value c)%Z) ds 0%Z.

(** A decimal literal: Infinity, or [d * 10^e10]. *)
Inductive decimal : Type :=
| DInfinity
| DNum (d : Z) (e10 : Z).

(** The ExponentPart of a literal: [e] or [E], an optional sign and at
    least one digit; absent or malformed, it contributes nothing. *)
Definition exponent_part (s : str) : Z :=
  match s with
  | c :: s1 =>
      if Js.ascii_eqb c "e" || Js.ascii_eqb c "E" then
        let '(neg, s2) :=
          match s1 with
          | "-"%char :: t => (true, t)
          | "+"%char :: t => (false, t)
          | _ => (false, s1)
          end in
        match Js.take_while Js.is_digit s2 with
        | [] => 0%Z
        | ds => if neg then (- digits_value ds)%Z else digits_value ds
        end
      else 0%Z
  | [] => 0%Z
  end.

(** The longest prefix of [s] that is a StrUnsignedDecimalLiteral. *)
Definition unsigned_decimal_literal (s : str) : option decimal :=
  if Js.starts_with "Infinity" s then Some DInfinity
  else
    let ip := Js.take_while Js.is_digit s in
    let r1 := Js.drop_while Js.is_digit s in
    match r1 with
    | "."%char :: r =>
        let fp := Js.take_while Js.is_digit r in
        let r2 := Js.drop_while Js.is_digit r in
        match ip, fp with
        | [], [] => None
        | _, _ =>
            Some (DNum (digits_value (ip ++ fp))
                       (exponent_part r2 - Z.of_nat (length fp)))
        end
    | _ =>
        match ip with
        | [] => None
        | _ => Some (DNum (digits_value ip) (exponent_part r1))
        end
    end.

(** The number value of a decimal literal with sign [neg]. *)
Definition decimal_value (neg : bool) (v : decimal) : number :=
  match v with
  | DInfinity => S754_infinity neg
  | DNum d e10 =>
      match d with
      | Zpos p =>
          if (0 <=? e10)%Z
          then binary_normalize prec emax
                 (cond_Zopp neg (Zpos p * Z.pow 10 e10)) 0 neg
          else
            let q := of_ratio p (Z.to_pos (Z.pow 10 (- e10))) in
            if neg then SFopp q else q
      | _ => S754_zero neg
      end
  end.

(** [parseFloat]: leading white space is skipped, then the longest prefix
    that is a StrDecimalLiteral is converted; NaN when there is none.  The
    exact value of the literal is rounded to the nearest number, ties to
    even. *)
Definition parseFloat (s : str) : number :=
  let t := Js.trimStart s in
  let '(neg, u) :=
    match t with
    | "-"%char :: u => (true, u)
    | "+"%char :: u => (false, u)
    | _ => (false, t)
    end in
  match unsigned_decimal_literal u with
  | Some v => decimal_value neg v
  | None => NaN
  end.

(** The value of a digit in radix 16 (and so in radix 10), if any. *)
Definition hex_digit_value (c : ascii) : option Z :=
  if Js.is_digit c then Some (digit_value c)
  else if Js.in_range "a" "f" c then Some (Z.of_nat (Js.code c - 87))
  else if Js.in_range "A" "F" c then Some (Z.of_nat (Js.code c - 55))
  else None.

Definition is_hex_digit (c : ascii) : bool :=
  match hex_digit_value c with Some _ => true | None => false end.

Definition hex_value (ds : str) : Z :=
  fold_left
    (fun acc c => (16 * acc + match hex_digit_value c with
                              | Some v => v | None => 0 end)%Z) ds 0%Z.

(** [parseInt] without a radix argument: white space, a sign, an optional
    [0x]/[0X] prefix selecting radix 16, then the longest run of digits of
    the radix; NaN when that run is empty. *)
Definition parseInt (s : str) : number :=
  let t := Js.trimStart s in
  let '(neg, u) :=
    match t with
    | "-"%char :: u => (true, u)
    | "+"%char :: u => (false, u)
    | _ => (false, t)
    end in
  let '(hex, v) :=
    match u with
    | "0"%char :: x :: v =>
        if Js.ascii_eqb x "x" || Js.ascii_eqb x "X" then (true, v)
        else (false, u)
    | _ => (false, u)
    end in
  let ds := Js.take_while (if hex then is_hex_digit else Js.is_digit) v in
  match ds with
  | [] => NaN
  | _ =>
      let n := if hex then hex_value ds else digits_value ds in
      binary_normalize prec emax (cond_Zopp neg n) 0 neg
  end.

(** The integer a number denotes, when it denotes one. *)
Definition to_Z (x : number) : option Z :=
  match x with
  | S754_zero _ => Some 0%Z
  | S754_finite s m e =>
      if (0 <=? e)%Z then Some (cond_Zopp s (Zpos m * Z.pow 2 e))
      else if (Zpos m mod Z.pow 2 (- e) =? 0)%Z
           then Some (cond_Zopp s (Zpos m / Z.pow 2 (- e)))
           else None
  | _ => None
  end.

End Num.

(* ================================================================== *)
(** * The provider *)
(* ================================================================== *)

Import Regex.

Definition number := Num.number.

(** The double-quote character. *)
Definition dquote : ascii := "034".

(** ** The patterns of the source *)

(** [/<[^>]*>/g] *)
Definition markup_re : regex :=
  Cat (Chr "<") (Cat (star (Cls true (fun c => Js.ascii_eqb c ">"))) (Chr ">")).

(** [/<enclosure url=Q(magnet:[^Q]+)Q/], where Q stands for the
    double-quote character. *)
Definition enclosure_re : regex :=
  Cat (lit ("<enclosure url=" ++ [dquote]))
    (Cat (Grp 1 (Cat (lit "magnet:")
                     (plus (Cls true (fun c => Js.ascii_eqb c dquote)))))
         (Chr dquote)).

(** [KB|MB|GB|TB] *)
Definition units_re : regex :=
  Alt (lit "KB") (Alt (lit "MB") (Alt (lit "GB") (lit "TB"))).

(** [\.\d+] *)
Definition fraction_re : regex :=
  Cat (Chr ".") (plus (Cls false Js.is_digit)).

(** [/\d+(\.\d+)?\s*(KB|MB|GB|TB)/i] *)
Definition size_re : regex :=
  Cat (plus (Cls false Js.is_digit))
    (Cat (opt (Grp 1 fraction_re))
       (Cat (star (Cls false Js.is_space)) (Grp 2 units_re))).

(** The class [[a-f0-9]]. *)
Definition class_af09 (c : ascii) : bool :=
  Js.in_range "a" "f" c || Js.in_range "0" "9" c.

(** [/^[a-f0-9]+$/i] *)
Definition hex_re : regex := Cat Bol (Cat (plus (Cls false class_af09)) Eol).

(** The class [[a-fA-F0-9]]. *)
Definition class_afAF09 (c : ascii) : bool :=
  Js.in_range "a" "f" c || Js.in_range "A" "F" c || Js.in_range "0" "9" c.

Definition btih_prefix : str := "urn:btih:".

(** [/urn:btih:([a-fA-F0-9]{40})/] *)
Definition btih_re : regex :=
  Cat (lit "urn:btih:") (Grp 1 (exactly 40 (Cls false class_afAF09))).

(** The class [[0-9.]]; the pattern [/[^0-9.]/g] is its inverse. *)
Definition class_09dot (c : ascii) : bool :=
  Js.in_range "0" "9" c || Js.ascii_eqb c ".".

Definition non_numeric_re : regex := Cls true class_09dot.

(** The opening and closing texts of the two tag patterns.  A tag name is
    spliced into the pattern source; for the names the provider uses
    ([title], [link], [pubDate], [description]), and for any name made of
    letters and digits, the spliced name is a run of pattern characters. *)
Definition cdata_open (tagName : str) : str := "<" ++ tagName ++ "><![CDATA[".
Definition cdata_close (tagName : str) : str := "]]></" ++ tagName ++ ">".
Definition plain_open (tagName : str) : str := "<" ++ tagName ++ ">".
Definition plain_close (tagName : str) : str := "</" ++ tagName ++ ">".

(** [new RegExp(`<${tagName}><!\\[CDATA\\[(.*?)]]></${tagName}>`, 's')] *)
Definition cdata_re (tagName : str) : regex :=
  Cat (lit (cdata_open tagName))
    (Cat (Grp 1 (lazy_star Dot)) (lit (cdata_close tagName))).

(** [new RegExp(`<${tagName}>(.*?)</${tagName}>`)] *)
Definition plain_re (tagName : str) : regex :=
  Cat (lit (plain_open tagName))
    (Cat (Grp 1 (lazy_star Dot)) (lit (plain_close tagName))).

(** ** Helpers of the class *)

(** The second half of [getTagContent]: the plain pattern. *)
Definition plain_fallback (xml tagName : str) : option str :=
  match exec no_flags (plain_re tagName) xml with
  | Some fallbackMatch => group fallbackMatch 1
  | None => Some []
  end.

(** Helper to extract content from a CDATA-wrapped tag. *)
Definition getTagContent (xml tagName : str) : option str :=
  let fallback := plain_fallback xml tagName in
  match exec flag_s (cdata_re tagName) xml with
  | Some m =>
      match group m 1 with
      | Some c => if Js.truthy c then Some c else fallback
      | None => fallback
      end
  | None => fallback
  end.

(** ToString of a string-or-[undefined] argument. *)
Definition to_string (v : option str) : str :=
  match v with
  | Some s => s
  | None => "undefined"
  end.

(** Helper to extract the info hash from a magnet link; [None] is the
    source's [null]. *)
Definition getHashFromMagnet (magnet : option str) : option str :=
  match exec no_flags btih_re (to_string magnet) with
  | Some m => group m 1
  | None => None
  end.

Definition n1024 : number := Num.of_Z 1024.

(** Helper to convert size strings (e.g., "1.5GB") into bytes. *)
Definition parseSizeToBytes (sizeStr : str) : number :=
  if negb (Js.truthy sizeStr) then Num.of_Z 0
  else
    let sizeLower := Js.toLowerCase sizeStr in
    let value :=
      Num.parseFloat (replace_all no_flags non_numeric_re "" sizeStr) in
    if Num.isNaN value then Num.of_Z 0
    else
      let bytes :=
        if Js.includes sizeLower "gb"
        then Num.mul (Num.mul (Num.mul value n1024) n1024) n1024
        else if Js.includes sizeLower "mb"
        then Num.mul (Num.mul value n1024) n1024
        else if Js.includes sizeLower "kb"
        then Num.mul value n1024
        else value in
      Num.round bytes.

(** ** Records *)

(** The record of a torrent.  A field that the source may leave
    [undefined] is an option. *)
Record AnimeTorrent : Type :=
  { name : option str;
    date : str;
    size : number;
    formattedSize : str;
    seeders : number;
    leechers : number;
    downloadCount : number;
    link : option str;
    downloadUrl : str;
    magnetLink : option str;
    infoHash : str;
    resolution : str;
    isBatch : option bool;
    episodeNumber : number;
    releaseGroup : str;
    isBestRelease : bool;
    confirmed : bool }.

(** The result of the host's title parser [$habari.parse]. *)
Record Metadata : Type :=
  { episode_number : option (list str);
    video_resolution : option str;
    release_group : option str }.

(** The response object handed back by the host's [fetch]; [text] is the
    body, which the host's [response.text()] returns directly. *)
Record Response : Type :=
  { ok : bool;
    status : nat;
    text : str }.

(** The description split at the pipes, as the source computes it. *)
Definition description_parts (description : str) : list str :=
  let cleanedDescription :=
    Js.trim (replace_all no_flags markup_re "" description) in
  Js.split cleanedDescription "|".

(** The test of the size loop. *)
Definition is_size_part (part : str) : bool :=
  test flag_i size_re (Js.trim part).

(** The test of the hash loop. *)
Definition is_hash_part (part : str) : bool :=
  let trimmedPart := Js.trim part in
  (length trimmedPart =? 40)%nat && test flag_i hex_re trimmedPart.

(** Find the file size using a regex pattern, not a fixed index. *)
Definition find_formattedSize (descriptionParts : list str) : str :=
  match find is_size_part descriptionParts with
  | Some part => Js.trim part
  | None => "0 MB"
  end.

(** Get the info hash from the magnet link or find it in the
    description. *)
Definition find_infoHash (magnetLink : option str)
  (descriptionParts : list str) : str :=
  let infoHash := or_else (getHashFromMagnet magnetLink) "" in
  if negb (Js.truthy infoHash)
  then match find is_hash_part descriptionParts with
       | Some part => Js.trim part
       | None => infoHash
       end
  else infoHash.

Section Provider.

(** The capabilities of the host: the network, the title parser and the
    date library.  [Date_toISOString s] is [new Date(s).toISOString()],
    [None] when the date is invalid (the call then throws a RangeError). *)
Variable fetch : str -> completion Response.
Variable habari_parse : str -> completion Metadata.
Variable Date_toISOString : str -> option str.

Definition api : str := "https://share.acgnx.se/rss.xml".

(** [new Date(pubDate).toISOString()] *)
Definition new_Date_toISOString (pubDate : option str) : completion str :=
  match pubDate with
  | Some s =>
      match Date_toISOString s with
      | Some iso => Normal iso
      | None => Throw RangeError
      end
  | None => Throw RangeError
  end.

(** The episode number read off the metadata. *)
Definition episode_of (metadata : Metadata) : number :=
  match episode_number metadata with
  | Some (first :: _) =>
      let parsedEp := Num.parseInt first in
      if negb (Num.isNaN parsedEp) then parsedEp else Num.of_Z (-1)
  | _ => Num.of_Z (-1)
  end.

(** The body of the [try] block applied to one item of the feed. *)
Definition parse_item (itemXml : str) : completion AnimeTorrent :=
  title0 <- deref (getTagContent itemXml "title") ;;
  let title := Js.trim (replace_all no_flags markup_re "" title0) in
  let link := getTagContent itemXml "link" in
  let pubDate := getTagContent itemXml "pubDate" in
  description <- deref (getTagContent itemXml "description") ;;
  let magnetLink :=
    match exec no_flags enclosure_re itemXml with
    | Some magnetMatch => group magnetMatch 1
    | None => Some []
    end in
  let descriptionParts := description_parts description in
  let formattedSize := find_formattedSize descriptionParts in
  let infoHash := find_infoHash magnetLink descriptionParts in
  metadata <- habari_parse title ;;
  let episodeNumber := episode_of metadata in
  date <- new_Date_toISOString pubDate ;;
  Normal
    {| name := Some title;
       date := date;
       size := parseSizeToBytes formattedSize;
       formattedSize := formattedSize;
       seeders := Num.of_Z (-1);
       leechers := Num.of_Z (-1);
       downloadCount := Num.of_Z 0;
       link := link;
       downloadUrl := "";
       magnetLink := magnetLink;
       infoHash := Js.toLowerCase infoHash;
       resolution := or_else (video_resolution metadata) "";
       isBatch :=
         Some match episode_number metadata with
              | Some l => (1 <? length l)%nat
              | None => false
              end;
       episodeNumber := episodeNumber;
       releaseGroup := or_else (release_group metadata) "";
       isBestRelease := false;
       confirmed := false |}.

(** The callback of [items.map]: the [try] block with its [catch], which
    logs and yields [null].  Logging ([console.error]) has no bearing on
    the result and is left out. *)
Definition parse_item_or_null (itemXml : str) : option AnimeTorrent :=
  match parse_item itemXml with
  | Normal t => Some t
  | Throw _ => None
  end.

(** The items of the feed: the pieces after the first [<item>]. *)
Definition feed_items (xml : str) : list str :=
  Js.shift (Js.split xml "<item>").

(** [filter(t => t !== null)] *)
Fixpoint filter_non_null {A : Type} (l : list (option A)) : list A :=
  match l with
  | [] => []
  | Some a :: l' => a :: filter_non_null l'
  | None :: l' => filter_non_null l'
  end.

(** [items.map(...).filter(...)] *)
Definition parse_items (items : list str) : list AnimeTorrent :=
  filter_non_null (map parse_item_or_null items).

(** Parses the raw XML string to extract torrent items. *)
Definition parseTorrentsFromXml (xml : str) : list AnimeTorrent :=
  let items := feed_items xml in
  parse_items items.

(** The decimal rendering of a status code. *)
Definition status_text (n : nat) : str :=
  String.list_ascii_of_string
    (DecimalString.NilZero.string_of_uint (Nat.to_uint n)).

(** Main function to fetch the RSS feed and parse it. *)
Definition fetchAndParseRss (url : str) : completion (list AnimeTorrent) :=
  try_catch
    (response <- fetch url ;;
     if negb (ok response)
     then Throw (Error ("Failed to fetch RSS feed, status: "
                          ++ status_text (status response)))
     else
       let xmlText := text response in
       let torrents := parseTorrentsFromXml xmlText in
       Normal torrents)
    (fun _ => Normal []).

(** Fetches the latest torrents from the main RSS feed. *)
Definition getLatest : completion (list AnimeTorrent) :=
  fetchAndParseRss api.

End Provider.

(** ** The fixed-position variant

    The second source file of the repository is an earlier variant of the
    provider.  It reads the size and the hash of an item from fixed
    positions of the description instead of scanning for them, keeps the
    title as it is, does not call the title parser, and its size
    conversion replaces an unparseable value by zero instead of returning
    early.  [getTagContent] and [getHashFromMagnet] are the same in both
    files. *)

Module Legacy.

(** [descriptionHtml.split('|')] *)
Definition description_parts (descriptionHtml : str) : list str :=
  Js.split descriptionHtml "|".

(** [descriptionParts.length > 1 ? descriptionParts[1].trim() : "0"] *)
Definition formattedSize_of (descriptionParts : list str) : str :=
  match descriptionParts with
  | _ :: part1 :: _ => Js.trim part1
  | _ => "0"
  end.

(** [descriptionParts.length > 3 ? descriptionParts[3].trim()
     : (this.getHashFromMagnet(magnetLink) || "")] *)
Definition infoHash_of (magnetLink : option str)
  (descriptionParts : list str) : str :=
  match descriptionParts with
  | _ :: _ :: _ :: part3 :: _ => Js.trim part3
  | _ => or_else (getHashFromMagnet magnetLink) ""
  end.

(** Helper to convert size strings (e.g., "1.5GB") into bytes. *)
Definition parseSizeToBytes (sizeStr : str) : number :=
  if negb (Js.truthy sizeStr) then Num.of_Z 0
  else
    let sizeLower := Js.toLowerCase sizeStr in
    let value0 :=
      Num.parseFloat (replace_all no_flags non_numeric_re "" sizeStr) in
    let value := if Num.isNaN value0 then Num.of_Z 0 else value0 in
    let bytes :=
      if Js.includes sizeLower "gb"
      then Num.mul (Num.mul (Num.mul value n1024) n1024) n1024
      else if Js.includes sizeLower "mb"
      then Num.mul (Num.mul value n1024) n1024
      else if Js.includes sizeLower "kb"
      then Num.mul value n1024
      else value in
    Num.round bytes.

Section Provider.

Variable Date_toISOString : str -> option str.

(** The body of the [try] block applied to one item of the feed. *)
Definition parse_item (itemXml : str) : completion AnimeTorrent :=
  let title := getTagContent itemXml "title" in
  let link := getTagContent itemXml "link" in
  let pubDate := getTagContent itemXml "pubDate" in
  let magnetLink :=
    match exec no_flags enclosure_re itemXml with
    | Some magnetMatch => group magnetMatch 1
    | None => Some []
    end in
  descriptionHtml <- deref (getTagContent itemXml "description") ;;
  let descriptionParts := description_parts descriptionHtml in
  let formattedSize := formattedSize_of descriptionParts in
  let infoHash := infoHash_of magnetLink descriptionParts in
  date <- new_Date_toISOString Date_toISOString pubDate ;;
  Normal
    {| name := title;
       date := date;
       size := parseSizeToBytes formattedSize;
       formattedSize := formattedSize;
       seeders := Num.of_Z 0;
       leechers := Num.of_Z 0;
       downloadCount := Num.of_Z 0;
       link := link;
       downloadUrl := "";
       magnetLink := magnetLink;
       infoHash := Js.toLowerCase infoHash;
       resolution := "";
       isBatch := None;
       episodeNumber := Num.of_Z (-1);
       releaseGroup := "";
       isBestRelease := false;
       confirmed := false |}.

(** Parses the raw XML string to extract torrent items. *)
Definition parseTorrentsFromXml (xml : str) : list AnimeTorrent :=
  let items := feed_items xml in
  filter_non_null
    (map (fun itemXml => match parse_item itemXml with
                         | Normal t => Some t
                         | Throw _ => None
                         end) items).

End Provider.

End Legacy.

(** ** The public operations *)

(** [encodeURIComponent] on strings of code units below U+0100 (none of
    which is a surrogate, so the function does not throw): a code unit of
    the unreserved set stands for itself, any other one is replaced by the
    escapes [%XX] of the octets of its UTF-8 encoding, with upper-case
    hexadecimal digits. *)
Module Uri.

(** uriUnescaped: the letters, the decimal digits and the marks
    [- _ . ! ~ * ' ( )]. *)
Definition unreserved (c : ascii) : bool :=
  Js.in_range "a" "z" c || Js.in_range "A" "Z" c || Js.in_range "0" "9" c
  || existsb (Js.ascii_eqb c) "-_.!~*'()".

Definition hex_digit (n : nat) : ascii :=
  ascii_of_nat (if (n <? 10)%nat then 48 + n else 55 + n).

(** The escape of one octet. *)
Definition escape (octet : nat) : str :=
  ["%"%char; hex_digit (octet / 16); hex_digit (octet mod 16)].

(** The UTF-8 encoding of a code point below U+0100. *)
Definition utf8 (n : nat) : list nat :=
  if (n <? 128)%nat then [n] else [192 + n / 64; 128 + n mod 64].

Definition encode_char (c : ascii) : str :=
  if unreserved c then [c] else flat_map escape (utf8 (Js.code c)).

Definition encodeURIComponent (s : str) : str := flat_map encode_char s.

End Uri.

(** The options of a search; the provider reads the query only. *)
Record AnimeSearchOptions : Type := { query : str }.

(** The address that [search] fetches:
    [`${this.api}?keyword=${encodeURIComponent(opts.query)}`]. *)
Definition search_url (opts : AnimeSearchOptions) : str :=
  api ++ "?keyword=" ++ Uri.encodeURIComponent (query opts).

Section Operations.

Variable fetch : str -> completion Response.
Variable habari_parse : str -> completion Metadata.
Variable Date_toISOString : str -> option str.

(** Searches for torrents based on a user's query. *)
Definition search (opts : AnimeSearchOptions)
  : completion (list AnimeTorrent) :=
  let url := search_url opts in
  fetchAndParseRss fetch habari_parse Date_toISOString url.

End Operations.

(** The info hash is already provided in the search results. *)
Definition getTorrentInfoHash (torrent : AnimeTorrent) : str :=
  or_else (Some (infoHash torrent)) "".

(** The magnet link is already provided in the search results. *)
Definition getTorrentMagnetLink (torrent : AnimeTorrent) : str :=
  or_else (magnetLink torrent) "".

(** ** Sample hosts and inputs *)

Module Sample.

(** A title parser that recognises nothing. *)
Definition habari (title : str) : completion Metadata :=
  Normal {| episode_number := None;
            video_resolution := None;
            release_group := None |}.

(** A date library that accepts every non-empty text and renders it
    unchanged. *)
Definition date_iso (s : str) : option str :=
  match s with
  | [] => None
  | _ => Some s
  end.

(** A network that always answers with the given response. *)
Definition fetch_ok (r : Response) (url : str) : completion Response :=
  Normal r.

(** A network that is down. *)
Definition fetch_down (url : str) : completion Response :=
  Throw (Error "network unreachable").

Definition hash_upper : str := "ABCDEF0123456789ABCDEF0123456789ABCDEF01".
Definition hash_lower : str := "abcdef0123456789abcdef0123456789abcdef01".
Definition hash_zero : str := "0000000000000000000000000000000000000000".

Definition enclosure (magnet : str) : str :=
  "<enclosure url=" ++ [dquote] ++ magnet ++ [dquote] ++ " />".

(** An item whose magnet link carries one info hash. *)
Definition item_one_hash : str :=
  "<title>Show - 01</title><pubDate>Sat, 01 Nov 2025</pubDate>"
  ++ "<description>blurb | no size here</description>"
  ++ enclosure ("magnet:?xt=urn:btih:" ++ hash_upper ++ "&dn=show")
  ++ "</item>".

(** An item whose magnet link carries two info hashes. *)
Definition magnet_two_hashes : str :=
  "magnet:?xt=urn:btih:" ++ hash_zero ++ "&xt=urn:btih:" ++ hash_upper.

Definition item_two_hashes : str :=
  "<title>Show - 02</title><pubDate>Sat, 01 Nov 2025</pubDate>"
  ++ "<description>blurb | 1.5GB</description>"
  ++ enclosure magnet_two_hashes ++ "</item>".

(** An item without a publication date: its extraction throws. *)
Definition item_no_date : str :=
  "<title>Show - 03</title><description>blurb</description></item>".

(** An item without a magnet link and without a hash. *)
Definition item_no_hash : str :=
  "<title>Show - 05</title><pubDate>Sat, 01 Nov 2025</pubDate>"
  ++ "<description>blurb | 700 MB</description></item>".

(** An item with four description parts and a hash in the magnet link. *)
Definition item_four_parts : str :=
  "<title>Show - 06</title><pubDate>Sat, 01 Nov 2025</pubDate>"
  ++ "<description>a|b|c|d</description>"
  ++ enclosure ("magnet:?xt=urn:btih:" ++ hash_upper) ++ "</item>".

(** An item whose second description part is a bare number. *)
Definition item_bare_number : str :=
  "<title>Show - 07</title><pubDate>Sat, 01 Nov 2025</pubDate>"
  ++ "<description>a | 123 | c</description></item>".

(** An item whose hash is only in the description. *)
Definition item_hash_in_description : str :=
  "<title>Show - 04</title><pubDate>Sat, 01 Nov 2025</pubDate>"
  ++ "<description>blurb | 2TB | " ++ hash_upper ++ " </description>"
  ++ "</item>".

Definition feed : str :=
  "<rss><channel><title>ACGNX</title><item>" ++ item_one_hash
  ++ "<item>" ++ item_no_date ++ "<item>" ++ item_two_hashes
  ++ "</channel></rss>".

(** A tag whose CDATA section is empty. *)
Definition empty_cdata : str := "<t><![CDATA[]]></t>".

(** A string-or-[undefined] value, for display. *)
Definition shown (v : option str) : option String.string :=
  option_map String.string_of_list_ascii v.

End Sample.

(* ================================================================== *)
(** * Specification-level notions *)
(* ================================================================== *)

(** The notions below are stated on the shape of a text, independently of
    the matcher, which is proved to agree with them further down. *)

Module Spec.

(** [sub] occurs in [s]. *)
Definition occurs (sub s : str) : Prop :=
  exists pre post, s = pre ++ sub ++ post.

(** A hexadecimal digit, in either case. *)
Definition is_hex (c : ascii) : bool := class_afAF09 c.

(** A lower-case hexadecimal digit. *)
Definition is_lower_hex (c : ascii) : bool := class_af09 c.

(** An info hash as the source recognises it: exactly 40 hexadecimal
    digits. *)
Definition hash_like (h : str) : Prop :=
  length h = 40 /\ Forall (fun c => is_hex c = true) h.

(** [magnet] carries the 40-digit value [h] right after an occurrence of
    [urn:btih:] that starts at index [n]. *)
Definition btih_at (magnet : str) (n : nat) (h : str) : Prop :=
  exists pre post,
    magnet = pre ++ "urn:btih:" ++ h ++ post /\ length pre = n /\ hash_like h.

(** [magnet] contains the value [h]. *)
Definition contains_btih (magnet h : str) : Prop :=
  exists n, btih_at magnet n h.

(** [h] is the leftmost such value of [magnet]. *)
Definition first_btih (magnet h : str) : Prop :=
  exists n, btih_at magnet n h /\
            forall n' h', btih_at magnet n' h' -> n <= n'.

(** [magnet] carries no such value. *)
Definition no_btih (magnet : str) : Prop :=
  forall n h, ~ btih_at magnet n h.

(** [x] is the first element of [l] that satisfies [P]. *)
Definition first_such {A : Type} (P : A -> Prop) (l : list A) (x : A) : Prop :=
  exists l1 l2, l = l1 ++ x :: l2 /\ P x /\ Forall (fun y => ~ P y) l1.

(** The body [c] of the leftmost, shortest stretch of [xml] that opens
    with [opn], closes with [cls] and holds only [allowed] characters in
    between: leftmost start first, then fewest characters. *)
Definition body_at (allowed : ascii -> bool) (opn cls xml : str)
  (n : nat) (c : str) : Prop :=
  exists pre post,
    xml = pre ++ opn ++ c ++ cls ++ post /\ length pre = n /\
    Forall (fun a => allowed a = true) c.

Definition tag_body (allowed : ascii -> bool) (opn cls xml c : str) : Prop :=
  exists n, body_at allowed opn cls xml n c /\
    forall n' c', body_at allowed opn cls xml n' c' ->
                  n < n' \/ (n = n' /\ length c <= length c').

(** The body of a CDATA-wrapped tag; it may span line breaks. *)
Definition cdata_body (tagName xml c : str) : Prop :=
  tag_body (fun _ => true) (cdata_open tagName) (cdata_close tagName) xml c.

(** The body of a plain tag; it stays on one line. *)
Definition plain_body (tagName xml c : str) : Prop :=
  tag_body (fun a => negb (Js.is_line_terminator a))
    (plain_open tagName) (plain_close tagName) xml c.

(** One of the units KB, MB, GB, TB, in any mix of cases. *)
Definition is_unit (u : str) : Prop :=
  let U := map Js.upper_char u in
  U = "KB" \/ U = "MB" \/ U = "GB" \/ U = "TB".

(** A number as the size pattern reads it: digits, optionally followed by
    a point and more digits. *)
Definition is_quantity (q : str) : Prop :=
  exists ip fp,
    ip <> [] /\ Forall (fun c => Js.is_digit c = true) ip /\
    Forall (fun c => Js.is_digit c = true) fp /\
    (q = ip \/ (fp <> [] /\ q = ip ++ "." ++ fp)).

(** [s] holds a quantity, optional white space and a unit, in a row. *)
Definition has_size_pattern (s : str) : Prop :=
  exists pre q ws u post,
    s = pre ++ q ++ ws ++ u ++ post /\
    is_quantity q /\ Forall (fun c => Js.is_space c = true) ws /\ is_unit u.

(** A name made of letters and digits only. *)
Definition plain_name (tagName : str) : bool :=
  forallb (fun c => Js.in_range "a" "z" c || Js.in_range "A" "Z" c
                    || Js.in_range "0" "9" c) tagName.

End Spec.

(** ** Notions on the shape of the results *)

Module Shape.

(** [s] holds a markup tag: a [<] with a [>] somewhere after it. *)
Definition has_markup (s : str) : Prop :=
  exists a b c, s = a ++ "<"%char :: b ++ ">"%char :: c.

(** [s] neither starts nor ends with white space. *)
Definition trimmed (s : str) : Prop :=
  (forall c r, s = c :: r -> Js.is_space c = false) /\
  (forall r c, s = r ++ [c] -> Js.is_space c = false).

(** The pieces [l], each preceded by the separator [sep], in a row. *)
Definition glue (sep : str) (l : list str) : str :=
  flat_map (fun piece => sep ++ piece) l.

(** A character other than [>]: what the class [[^>]] of the markup
    pattern accepts. *)
Definition not_gt (c : ascii) : bool := negb (Js.ascii_eqb c ">").

(** A [magnet:] address as the enclosure pattern captures it: the scheme,
    then at least one character, none of them a double quote. *)
Definition magnet_uri (m : str) : Prop :=
  exists w, m = "magnet:" ++ w /\ w <> [] /\
            Forall (fun c => c <> dquote) w.

(** No separator [sep] starts inside [pre] when [pre] is followed by
    [s]. *)
Definition separator_free (sep pre s : str) : Prop :=
  forall a b, pre = a ++ b -> b <> [] ->
              Js.starts_with sep (b ++ s) = false.

(** A number that is a zero, a positive finite number or +Infinity:
    neither NaN nor negative nor the negative zero. *)
Definition non_negative (x : number) : bool :=
  match x with
  | S754_zero false | S754_infinity false | S754_finite false _ _ => true
  | _ => false
  end.

(** The shape of an emitted record: a name without markup and without
    outer white space; a magnet link that is empty or a [magnet:] address;
    a formatted size that holds a quantity and a unit; a size that is not
    negative; an episode number that is not NaN; an info hash that is
    empty or 40 lower-case hexadecimal digits. *)
Definition well_formed (t : AnimeTorrent) : Prop :=
  (exists n, name t = Some n /\ ~ has_markup n /\ trimmed n) /\
  (exists m, magnetLink t = Some m /\ (m = [] \/ magnet_uri m)) /\
  Spec.has_size_pattern (formattedSize t) /\
  trimmed (formattedSize t) /\
  non_negative (size t) = true /\
  Num.isNaN (episodeNumber t) = false /\
  (infoHash t = [] \/
   (length (infoHash t) = 40 /\
    Forall (fun c => Spec.is_lower_hex c = true) (infoHash t))).

(** A character that can stand in an encoded URI component: unreserved,
    or the percent sign of an escape. *)
Definition component_char (c : ascii) : bool :=
  Uri.unreserved c || Js.ascii_eqb c "%".

(** The value of an upper-case hexadecimal digit. *)
Definition hex_value (c : ascii) : nat :=
  if Js.is_digit c then Js.code c - 48 else Js.code c - 55.

(** Reading escapes back: the inverse of [Uri.encodeURIComponent] on its
    image. *)
Fixpoint unescape (s : str) : str :=
  match s with
  | [] => []
  | c :: s1 =>
      if Js.ascii_eqb c "%" then
        match s1 with
        | h1 :: h2 :: s2 =>
            let n := 16 * hex_value h1 + hex_value h2 in
            if (n <? 128)%nat then ascii_of_nat n :: unescape s2
            else
              match s2 with
              | _ :: l1 :: l2 :: s3 =>
                  ascii_of_nat ((n - 192) * 64
                                + (16 * hex_value l1 + hex_value l2 - 128))
                  :: unescape s3
              | _ => c :: unescape s1
              end
        | _ => c :: unescape s1
        end
      else c :: unescape s1
  end.

End Shape.

(* ================================================================== *)
(** * Facts about strings *)
(* ================================================================== *)

Module JsFacts.
Import Js.

Lemma ascii_eqb_eq (a b : ascii) : ascii_eqb a b = true <-> a = b.
Proof. unfold ascii_eqb. apply Ascii.eqb_eq. Qed.

Lemma ascii_eqb_refl (a : ascii) : ascii_eqb a a = true.
Proof. apply ascii_eqb_eq. reflexivity. Qed.

Lemma ascii_eqb_sym (a b : ascii) : ascii_eqb a b = ascii_eqb b a.
Proof. unfold ascii_eqb. apply Ascii.eqb_sym. Qed.

Lemma starts_with_iff (p s : str) :
  starts_with p s = true <-> exists post, s = p ++ post.
Proof.
  revert s. induction p as [|a p IH]; intros s; simpl.
  - split; [intros _; exists s; reflexivity | reflexivity].
  - destruct s as [|b s].
    + split; [discriminate | intros [post H]; discriminate].
    + rewrite andb_true_iff, ascii_eqb_eq, IH. split.
      * intros [-> [post ->]]. exists post. reflexivity.
      * intros [post H]. injection H as -> ->. split; [reflexivity|].
        exists post. reflexivity.
Qed.

Lemma starts_with_app (p s : str) : starts_with p (p ++ s) = true.
Proof. apply starts_with_iff. exists s. reflexivity. Qed.

Lemma starts_with_skipn (p s : str) :
  starts_with p s = true -> s = p ++ skipn (length p) s.
Proof.
  intros H. apply starts_with_iff in H. destruct H as [post ->].
  rewrite skipn_app, skipn_all, Nat.sub_diag. reflexivity.
Qed.

Lemma includes_iff (s sub : str) :
  includes s sub = true <-> Spec.occurs sub s.
Proof.
  unfold Spec.occurs. induction s as [|c s IH].
  - simpl. rewrite orb_false_r, starts_with_iff. split.
    + intros [post H]. exists [], post. exact H.
    + intros [pre [post H]]. destruct pre; [exists post; exact H|discriminate].
  - change (includes (c :: s) sub)
      with (starts_with sub (c :: s) || includes s sub).
    rewrite orb_true_iff, starts_with_iff, IH. split.
    + intros [[post H] | [pre [post H]]].
      * exists [], post. exact H.
      * exists (c :: pre), post. rewrite H. reflexivity.
    + intros [pre [post H]]. destruct pre as [|a pre].
      * left. exists post. exact H.
      * right. injection H as _ H. exists pre, post. exact H.
Qed.

(** Without an occurrence of the separator, [split] yields one piece. *)
Lemma split_go_no_occurrence (sep s cur : str) :
  includes s sep = false -> split_go sep 0 cur s = [rev cur ++ s].
Proof.
  revert cur. induction s as [|c s IH]; intros cur H.
  - simpl. rewrite app_nil_r. reflexivity.
  - change (includes (c :: s) sep)
      with (starts_with sep (c :: s) || includes s sep) in H.
    apply orb_false_iff in H. destruct H as [H1 H2].
    simpl split_go. rewrite H1, (IH _ H2). simpl.
    rewrite <- app_assoc. reflexivity.
Qed.

Lemma split_no_occurrence (s sep : str) :
  includes s sep = false -> split s sep = [s].
Proof. intros H. unfold split. rewrite split_go_no_occurrence; auto. Qed.

Lemma take_drop_while (p : ascii -> bool) (s : str) :
  take_while p s ++ drop_while p s = s.
Proof.
  induction s as [|c s IH]; simpl; [reflexivity|].
  destruct (p c); simpl; [rewrite IH|]; reflexivity.
Qed.

Lemma take_while_all (p : ascii -> bool) (s : str) :
  Forall (fun c => p c = true) (take_while p s).
Proof.
  induction s as [|c s IH]; simpl; [constructor|].
  destruct (p c) eqn:E; constructor; assumption.
Qed.

Lemma drop_while_sub (p : ascii -> bool) (s : str) :
  exists pre, s = pre ++ drop_while p s.
Proof. exists (take_while p s). symmetry. apply take_drop_while. Qed.

(** The characters that survive [trim] are characters of the text. *)
Lemma trim_sub (s : str) : exists pre post, s = pre ++ trim s ++ post.
Proof.
  unfold trim, trimEnd, trimStart.
  destruct (drop_while_sub is_space s) as [pre Hp].
  destruct (drop_while_sub is_space (rev (drop_while is_space s))) as [q Hq].
  exists pre, (rev q).
  rewrite <- rev_app_distr, <- Hq, rev_involutive. exact Hp.
Qed.

Lemma Forall_trim (P : ascii -> Prop) (s : str) :
  Forall P s -> Forall P (trim s).
Proof.
  intros H. destruct (trim_sub s) as [pre [post E]].
  rewrite E in H. apply Forall_app in H. destruct H as [_ H].
  apply Forall_app in H. tauto.
Qed.

End JsFacts.

(* ================================================================== *)
(** * Facts about the matcher *)
(* ================================================================== *)

Module RegexFacts.
Import Js JsFacts.

Lemma advance_0 (st : mstate) : advance 0 st = st.
Proof. destruct st; reflexivity. Qed.

Lemma advance_S (n : nat) (st : mstate) (c : ascii) (s' : str) :
  rest st = c :: s' ->
  advance n {| idx := S (idx st); rest := s'; caps := caps st |}
  = advance (S n) st.
Proof.
  intros H. unfold advance. simpl. rewrite H. simpl.
  f_equal. lia.
Qed.

Lemma advance_advance (n k : nat) (st : mstate) :
  advance n (advance k st) = advance (n + k) st.
Proof.
  unfold advance. simpl. f_equal; [lia|].
  rewrite skipn_skipn. reflexivity.
Qed.

Lemma span_len_nil (q : ascii -> bool) : span_len q [] = 0.
Proof. reflexivity. Qed.

Lemma span_len_cons (q : ascii -> bool) (c : ascii) (s : str) :
  span_len q (c :: s) = if q c then S (span_len q s) else 0.
Proof. unfold span_len. simpl. destruct (q c); reflexivity. Qed.

Lemma span_len_le (q : ascii -> bool) (s : str) : span_len q s <= length s.
Proof.
  induction s as [|c s IH]; [apply Nat.le_refl|].
  rewrite span_len_cons. destruct (q c); simpl; lia.
Qed.

(** [n] characters can be consumed exactly when the first [n] characters
    exist and satisfy [q]. *)
Lemma span_len_ge (q : ascii -> bool) (n : nat) (s : str) :
  n <= span_len q s <->
  n <= length s /\ Forall (fun c => q c = true) (firstn n s).
Proof.
  revert s. induction n as [|n IH]; intros s.
  - simpl. split; [intros _; split; [lia|constructor] | lia].
  - destruct s as [|c s].
    + rewrite span_len_nil. simpl. split; [lia | intros [H _]; lia].
    + rewrite span_len_cons. simpl. destruct (q c) eqn:E.
      * rewrite <- Nat.succ_le_mono, IH. split.
        -- intros [H1 H2]. split; [lia|]. constructor; assumption.
        -- intros [H1 H2]. split; [lia|]. inversion H2; assumption.
      * split; [lia|]. intros [_ H]. inversion H; congruence.
Qed.

Lemma counts_0 (g : bool) (mx : option nat) :
  counts g 0 mx 0 = [0].
Proof. unfold counts. destruct mx as [m|], g; rewrite ?Nat.min_0_r; reflexivity. Qed.

Lemma counts_pos_0 (g : bool) (mn : nat) (mx : option nat) :
  counts g (S mn) mx 0 = [].
Proof. unfold counts. destruct mx as [m|], g; rewrite ?Nat.min_0_r; reflexivity. Qed.

Lemma counts_step_0 (g : bool) (m : option nat) (k : nat) :
  m <> Some 0 ->
  counts g 0 m (S k) =
  if g then map S (counts g 0 (option_map Nat.pred m) k) ++ [0]
  else 0 :: map S (counts g 0 (option_map Nat.pred m) k).
Proof.
  intros Hm. unfold counts.
  assert (E : match m with Some x => Nat.min x (S k) | None => S k end
              = S match option_map Nat.pred m with
                  | Some x => Nat.min x k | None => k end).
  { destruct m as [[|x]|]; simpl; congruence. }
  rewrite E. set (hi := match option_map Nat.pred m with
                        | Some x => Nat.min x k | None => k end).
  rewrite !Nat.sub_0_r.
  change (seq 0 (S (S hi))) with (0 :: seq 1 (S hi)).
  rewrite <- seq_shift. destruct g; [|reflexivity].
  change (rev (0 :: map S (seq 0 (S hi))))
    with (rev (map S (seq 0 (S hi))) ++ [0]).
  rewrite <- map_rev. reflexivity.
Qed.

Lemma counts_step_S (g : bool) (mn : nat) (m : option nat) (k : nat) :
  m <> Some 0 ->
  counts g (S mn) m (S k) =
  map S (counts g mn (option_map Nat.pred m) k).
Proof.
  intros Hm. unfold counts.
  assert (E : match m with Some x => Nat.min x (S k) | None => S k end
              = S match option_map Nat.pred m with
                  | Some x => Nat.min x k | None => k end).
  { destruct m as [[|x]|]; simpl; congruence. }
  rewrite E. set (hi := match option_map Nat.pred m with
                        | Some x => Nat.min x k | None => k end).
  replace (S (S hi) - S mn) with (S hi - mn) by lia.
  rewrite <- seq_shift. destruct g; [|reflexivity].
  rewrite <- map_rev. reflexivity.
Qed.

(** One unfolding of the quantifier loop when another iteration is
    allowed: the atom fails, or it consumes a character and the loop goes
    on from there. *)
Ltac quantifier_iteration Hm IH st mn g :=
  cbn [repeat_matcher]; rewrite Hm; unfold step_if, clear_captures;
  cbn [rest idx caps app map];
  let c := fresh "c" in
  let s' := fresh "s'" in
  let Er := fresh "Er" in
  let Eq := fresh "Eq" in
  destruct (rest st) as [|c s'] eqn:Er;
  [ rewrite span_len_nil
  | rewrite span_len_cons;
    match goal with |- context [if ?b then S _ else 0] =>
      destruct b eqn:Eq end ];
  [ (* no input left *)
    destruct mn; cbn [flat_map];
    [ rewrite counts_0; cbn [map app Nat.eqb]; rewrite advance_0;
      destruct g; reflexivity
    | rewrite counts_pos_0; reflexivity ]
  | (* one more iteration *)
    cbn [flat_map idx]; rewrite app_nil_r;
    replace (Nat.eqb (S (idx st)) (idx st)) with false
      by (symmetry; apply Nat.eqb_neq; lia);
    rewrite andb_false_r;
    rewrite IH;
      [ | first [exact I | destruct mn; simpl; lia] | simpl in *; lia ];
    cbn [rest];
    destruct mn;
    [ rewrite counts_step_0 by discriminate;
      cbn [Nat.eqb option_map Nat.pred];
      destruct g;
      [ rewrite map_app, map_map; cbn [map]; rewrite advance_0;
        f_equal; apply map_ext; intros n; apply (advance_S n st Er)
      | cbn [map]; rewrite map_map, advance_0; f_equal;
        apply map_ext; intros n; apply (advance_S n st Er) ]
    | rewrite counts_step_S by discriminate;
      cbn [Nat.eqb option_map Nat.pred];
      rewrite map_map; apply map_ext; intros n;
      apply (advance_S n st Er) ]
  | (* the atom rejects the next character *)
    destruct mn; cbn [flat_map];
    [ rewrite counts_0; cbn [map app Nat.eqb]; rewrite advance_0;
      destruct g; reflexivity
    | rewrite counts_pos_0; reflexivity ] ].

(** A quantifier over a one-character atom tries its iteration counts in
    order; the fuel of [rmatch] is enough. *)
Lemma repeat_step_if (q : ascii -> bool) (m : mstate -> list mstate)
  (g : bool) :
  (forall st, m st = step_if q st) ->
  forall fuel mn mx st,
    match mx with Some x => mn <= x | None => True end ->
    mn + length (rest st) < fuel ->
    repeat_matcher m [] g fuel mn mx st
    = map (fun n => advance n st) (counts g mn mx (span_len q (rest st))).
Proof.
  intros Hm. induction fuel as [|fuel IH]; intros mn mx st Hv Hf; [lia|].
  destruct mx as [[|x]|].
  - (* max = 0 *)
    assert (mn = 0) by lia. subst mn. cbn [repeat_matcher].
    replace (counts g 0 (Some 0) (span_len q (rest st))) with [0]
      by (destruct g; reflexivity).
    cbn [map]. rewrite advance_0. reflexivity.
  - (* max = x + 1 *)
    quantifier_iteration Hm IH st mn g.
  - (* no maximum *)
    quantifier_iteration Hm IH st mn g.
Qed.

Lemma rmatch_Cls (fl : flags) (invert : bool) (p : ascii -> bool)
  (st : mstate) :
  rmatch fl (Cls invert p) st = step_if (class_pred fl invert p) st.
Proof. reflexivity. Qed.

Lemma rmatch_Dot (fl : flags) (st : mstate) :
  ignoreCase fl = false ->
  rmatch fl Dot st = step_if (dot_pred fl) st.
Proof.
  intros Hi. unfold dot_pred. cbn [rmatch]. unfold char_set, step_if, class_found.
  rewrite Hi. destruct (dotAll fl); reflexivity.
Qed.

Lemma rmatch_Rep_Cls (fl : flags) (g : bool) (mn : nat) (mx : option nat)
  (invert : bool) (p : ascii -> bool) (st : mstate) :
  match mx with Some x => mn <= x | None => True end ->
  rmatch fl (Rep g mn mx (Cls invert p)) st
  = map (fun n => advance n st)
        (counts g mn mx (span_len (class_pred fl invert p) (rest st))).
Proof.
  intros Hv. cbn [rmatch groups].
  apply repeat_step_if; [apply rmatch_Cls | exact Hv | lia].
Qed.

Lemma rmatch_Rep_Dot (fl : flags) (g : bool) (mn : nat) (mx : option nat)
  (st : mstate) :
  ignoreCase fl = false ->
  match mx with Some x => mn <= x | None => True end ->
  rmatch fl (Rep g mn mx Dot) st
  = map (fun n => advance n st)
        (counts g mn mx (span_len (dot_pred fl) (rest st))).
Proof.
  intros Hi Hv. cbn [rmatch groups].
  apply repeat_step_if; [intros; apply rmatch_Dot; exact Hi | exact Hv | lia].
Qed.

(** Without [ignoreCase], a run of pattern characters matches exactly
    when it is a prefix of the remaining input. *)
Lemma rmatch_lit (fl : flags) (l : str) (st : mstate) :
  ignoreCase fl = false ->
  rmatch fl (lit l) st
  = if starts_with l (rest st) then [advance (length l) st] else [].
Proof.
  intros Hi. revert st. induction l as [|a l IH]; intros st.
  - simpl. rewrite advance_0. reflexivity.
  - cbn [lit rmatch]. unfold char_set, class_found. rewrite Hi.
    destruct (rest st) as [|b s'] eqn:Er; [reflexivity|].
    cbn [xorb starts_with]. rewrite (ascii_eqb_sym b a).
    destruct (ascii_eqb a b); [|reflexivity].
    cbn [flat_map andb]. rewrite app_nil_r, IH. cbn [rest].
    destruct (starts_with l s'); [|reflexivity].
    rewrite (advance_S (length l) st Er). reflexivity.
Qed.

(** The first success of a sequence of attempts. *)
Lemma flat_map_first {A B : Type} (f : A -> list B) (l : list A)
  (y : B) (ys : list B) :
  flat_map f l = y :: ys ->
  exists l1 x l2 zs, l = l1 ++ x :: l2 /\ f x = y :: zs /\
                     Forall (fun a => f a = []) l1.
Proof.
  induction l as [|a l IH]; simpl; [discriminate|].
  destruct (f a) as [|z zs] eqn:E.
  - simpl. intros H. destruct (IH H) as [l1 [x [l2 [zs [-> [Hx Hl]]]]]].
    exists (a :: l1), x, l2, zs. split; [reflexivity|]. split; [exact Hx|].
    constructor; assumption.
  - simpl. intros H. injection H as -> _.
    exists [], a, l, zs. split; [reflexivity|]. split; [exact E|constructor].
Qed.

Lemma flat_map_nil {A B : Type} (f : A -> list B) (l : list A) :
  flat_map f l = [] <-> Forall (fun a => f a = []) l.
Proof.
  induction l as [|a l IH]; simpl.
  - split; [constructor | reflexivity].
  - split.
    + intros H. apply app_eq_nil in H. destruct H as [H1 H2].
      constructor; [exact H1 | apply IH; exact H2].
    + intros H. inversion H as [|? ? H1 H2]; subst.
      rewrite H1. apply IH. exact H2.
Qed.

(** ** The search over start indexes *)

Lemma exec_from_Some (fl : flags) (r : regex) (s : str) :
  forall i m, exec_from fl r i s = Some m ->
  exists pre suf y ys,
    s = pre ++ suf /\
    rmatch fl r (start (length pre + i) suf) = y :: ys /\
    m = {| m_index := length pre + i; m_end := idx y;
           m_text := firstn (idx y - (length pre + i)) suf;
           m_caps := caps y |} /\
    forall pre' suf', s = pre' ++ suf' -> length pre' < length pre ->
                      rmatch fl r (start (length pre' + i) suf') = [].
Proof.
  induction s as [|c s IH]; intros i m H.
  - cbn [exec_from] in H. fold (start i []) in H.
    destruct (rmatch fl r (start i [])) as [|y ys] eqn:E; [discriminate|].
    injection H as <-. exists [], [], y, ys.
    repeat split; try assumption. simpl. intros; lia.
  - cbn [exec_from] in H. fold (start i (c :: s)) in H.
    destruct (rmatch fl r (start i (c :: s))) as [|y ys] eqn:E.
    + destruct (IH _ _ H) as [pre [suf [y [ys [-> [Hy [-> Hmin]]]]]]].
      exists (c :: pre), suf, y, ys. cbn [length].
      replace (S (length pre) + i) with (length pre + S i) by lia.
      repeat split; try assumption.
      intros pre' suf' Hs Hl. destruct pre' as [|c' pre'].
      * simpl in Hs. subst suf'. exact E.
      * injection Hs as _ Hs. cbn [length].
        replace (S (length pre') + i) with (length pre' + S i) by lia.
        apply Hmin; [exact Hs | simpl in Hl; lia].
    + injection H as <-. exists [], (c :: s), y, ys.
      repeat split; try assumption. simpl. intros; lia.
Qed.

Lemma exec_from_None (fl : flags) (r : regex) (s : str) :
  forall i, exec_from fl r i s = None ->
  forall pre suf, s = pre ++ suf ->
                  rmatch fl r (start (length pre + i) suf) = [].
Proof.
  induction s as [|c s IH]; intros i H pre suf Hs.
  - symmetry in Hs. apply app_eq_nil in Hs. destruct Hs as [-> ->].
    cbn [exec_from] in H. fold (start i []) in H.
    destruct (rmatch fl r (start i [])) eqn:E; [exact E|discriminate].
  - cbn [exec_from] in H. fold (start i (c :: s)) in H.
    destruct (rmatch fl r (start i (c :: s))) as [|y ys] eqn:E;
      [|discriminate].
    destruct pre as [|c' pre].
    + simpl in Hs. subst suf. exact E.
    + injection Hs as _ Hs. cbn [length].
      replace (S (length pre) + i) with (length pre + S i) by lia.
      apply (IH _ H _ _ Hs).
Qed.

(** If the pattern matches at some start index, the search succeeds. *)
Lemma exec_from_complete (fl : flags) (r : regex) (s : str) (i : nat)
  (pre suf : str) :
  s = pre ++ suf ->
  rmatch fl r (start (length pre + i) suf) <> [] ->
  exec_from fl r i s <> None.
Proof.
  intros Hs Hne H. apply Hne. eapply exec_from_None; eassumption.
Qed.

(** ** Equations of the matcher *)

Lemma rmatch_Cat (fl : flags) (a b : regex) (st : mstate) :
  rmatch fl (Cat a b) st = flat_map (rmatch fl b) (rmatch fl a st).
Proof. reflexivity. Qed.

Lemma rmatch_Alt (fl : flags) (a b : regex) (st : mstate) :
  rmatch fl (Alt a b) st = rmatch fl a st ++ rmatch fl b st.
Proof. reflexivity. Qed.

Lemma rmatch_Grp (fl : flags) (n : nat) (a : regex) (st : mstate) :
  rmatch fl (Grp n a) st
  = map (fun y => set_capture n
                    (Some (firstn (idx y - idx st) (rest st))) y)
        (rmatch fl a st).
Proof. reflexivity. Qed.

Lemma rmatch_Chr (fl : flags) (c : ascii) (st : mstate) :
  rmatch fl (Chr c) st
  = step_if (class_pred fl false (fun a => ascii_eqb a c)) st.
Proof. reflexivity. Qed.

Lemma flat_map_if {A B : Type} (f : A -> list B) (b : bool) (a : A) :
  flat_map f (if b then [a] else []) = if b then f a else [].
Proof. destruct b; simpl; [apply app_nil_r | reflexivity]. Qed.

Lemma map_if {A B : Type} (f : A -> B) (b : bool) (a : A) :
  map f (if b then [a] else []) = if b then [f a] else [].
Proof. destruct b; reflexivity. Qed.

Lemma span_len_ext (p q : ascii -> bool) (s : str) :
  (forall c, p c = q c) -> span_len p s = span_len q s.
Proof.
  intros H. induction s as [|c s IH]; [reflexivity|].
  rewrite !span_len_cons, H, IH. reflexivity.
Qed.

Lemma counts_exact (g : bool) (n k : nat) :
  counts g n (Some n) k = if (n <=? k)%nat then [n] else [].
Proof.
  unfold counts. destruct (Nat.leb_spec n k) as [H|H].
  - rewrite Nat.min_l by exact H.
    replace (S n - n) with 1 by lia. destruct g; reflexivity.
  - rewrite Nat.min_r by lia.
    replace (S k - n) with 0 by lia. destruct g; reflexivity.
Qed.

Lemma idx_advance (n : nat) (st : mstate) : idx (advance n st) = n + idx st.
Proof. reflexivity. Qed.

Lemma rest_advance (n : nat) (st : mstate) :
  rest (advance n st) = skipn n (rest st).
Proof. reflexivity. Qed.

Lemma caps_advance (n : nat) (st : mstate) : caps (advance n st) = caps st.
Proof. reflexivity. Qed.

(** ** The info-hash pattern *)

(** The pattern matches at a position exactly when [urn:btih:] and forty
    hexadecimal digits follow, and then captures those digits. *)
Lemma rmatch_btih (st : mstate) :
  rmatch no_flags btih_re st
  = if starts_with btih_prefix (rest st) then
      if (40 <=? span_len Spec.is_hex (skipn 9 (rest st)))%nat
      then [set_capture 1 (Some (firstn 40 (skipn 9 (rest st))))
              (advance 49 st)]
      else []
    else [].
Proof.
  unfold btih_re. rewrite rmatch_Cat, rmatch_lit by reflexivity.
  fold btih_prefix. rewrite flat_map_if.
  destruct (starts_with btih_prefix (rest st)); [|reflexivity].
  rewrite rmatch_Grp. unfold exactly.
  rewrite rmatch_Rep_Cls by apply Nat.le_refl.
  rewrite counts_exact. rewrite rest_advance.
  change (length btih_prefix) with 9.
  rewrite (span_len_ext (class_pred no_flags false class_afAF09) Spec.is_hex)
    by reflexivity.
  rewrite !map_if.
  destruct (40 <=? span_len Spec.is_hex (skipn 9 (rest st)))%nat;
    [|reflexivity].
  cbv beta.
  rewrite (idx_advance 40), Nat.add_sub, advance_advance.
  reflexivity.
Qed.

Lemma app_inv_length {A : Type} (l1 l1' l2 l2' : list A) :
  l1 ++ l2 = l1' ++ l2' -> length l1 = length l1' ->
  l1 = l1' /\ l2 = l2'.
Proof.
  revert l1'. induction l1 as [|a l1 IH]; intros [|a' l1'] H Hl;
    try discriminate Hl.
  - split; [reflexivity | exact H].
  - injection H as -> H. simpl in Hl.
    destruct (IH l1' H) as [-> ->]; [lia|]. split; reflexivity.
Qed.

(** What the matcher checks at a position, in terms of the text. *)
Lemma btih_here_iff (suf h : str) :
  (starts_with btih_prefix suf = true /\
   40 <= span_len Spec.is_hex (skipn 9 suf) /\
   h = firstn 40 (skipn 9 suf))
  <-> exists post, suf = btih_prefix ++ h ++ post /\ Spec.hash_like h.
Proof.
  split.
  - intros [H1 [H2 ->]]. apply starts_with_skipn in H1.
    change (length btih_prefix) with 9 in H1.
    apply span_len_ge in H2. destruct H2 as [H2 H3].
    exists (skipn 40 (skipn 9 suf)). split.
    + rewrite firstn_skipn. exact H1.
    + split; [|exact H3]. rewrite length_firstn. lia.
  - intros [post [-> [Hl Hh]]]. split; [apply starts_with_app|].
    change (skipn 9 (btih_prefix ++ h ++ post)) with (h ++ post).
    assert (E : firstn 40 (h ++ post) = h).
    { rewrite <- Hl, firstn_app, Nat.sub_diag, firstn_all. simpl.
      apply app_nil_r. }
    split; [|symmetry; exact E].
    apply span_len_ge. rewrite E. split; [|exact Hh].
    rewrite length_app. lia.
Qed.

Lemma rmatch_btih_Some (i : nat) (suf : str) (y : mstate) (ys : list mstate) :
  rmatch no_flags btih_re (start i suf) = y :: ys ->
  exists h post, suf = btih_prefix ++ h ++ post /\ Spec.hash_like h /\
                 capture 1 (caps y) = Some h.
Proof.
  rewrite rmatch_btih. cbn [rest start].
  destruct (starts_with btih_prefix suf) eqn:E1; [|discriminate].
  destruct (Nat.leb_spec 40 (span_len Spec.is_hex (skipn 9 suf)))
    as [E2|E2]; [|discriminate].
  intros H. injection H as <- _.
  destruct (proj1 (btih_here_iff suf (firstn 40 (skipn 9 suf))))
    as [post [Hs Hh]]; [auto|].
  exists (firstn 40 (skipn 9 suf)), post. auto.
Qed.

Lemma rmatch_btih_not_nil (i : nat) (suf h post : str) :
  suf = btih_prefix ++ h ++ post -> Spec.hash_like h ->
  rmatch no_flags btih_re (start i suf) <> [].
Proof.
  intros Hs Hh.
  destruct (proj2 (btih_here_iff suf h)) as [E1 [E2 _]];
    [exists post; auto|].
  rewrite rmatch_btih. cbn [rest start]. rewrite E1.
  apply Nat.leb_le in E2. rewrite E2. discriminate.
Qed.

(** The leftmost value is unique. *)
Lemma first_btih_unique (magnet h h' : str) :
  Spec.first_btih magnet h -> Spec.first_btih magnet h' -> h = h'.
Proof.
  intros [n [Hn Hmin]] [n' [Hn' Hmin']].
  assert (n = n') by (apply Nat.le_antisymm; eauto). subst n'.
  destruct Hn as [pre [post [E [Hl [Hlen _]]]]].
  destruct Hn' as [pre' [post' [E' [Hl' [Hlen' _]]]]].
  rewrite E in E'.
  apply app_inv_length in E'; [|congruence]. destruct E' as [_ E'].
  apply app_inv_head in E'.
  apply app_inv_length in E'; [|congruence]. tauto.
Qed.

(** [getHashFromMagnet] returns the leftmost 40-digit [urn:btih:] value of
    the magnet link, and [null] exactly when there is none. *)
Lemma getHashFromMagnet_sound (magnet h : str) :
  getHashFromMagnet (Some magnet) = Some h -> Spec.first_btih magnet h.
Proof.
  unfold getHashFromMagnet, exec. cbn [to_string].
  destruct (exec_from no_flags btih_re 0 magnet) as [m|] eqn:E;
    [|discriminate].
  destruct (exec_from_Some _ _ _ _ E)
    as [pre [suf [y [ys [Hs [Hy [-> Hmin]]]]]]].
  cbn [group m_caps]. intros Hc.
  destruct (rmatch_btih_Some _ _ Hy) as [h0 [post [Hsuf [Hh Hc0]]]].
  rewrite Hc0 in Hc. injection Hc as ->.
  exists (length pre). split.
  - exists pre, post. subst. auto.
  - intros n' h' [pre' [post' [E' [Hl' Hh']]]].
    destruct (Nat.le_gt_cases (length pre) n') as [|Hlt]; [assumption|].
    exfalso. subst n'.
    apply (@rmatch_btih_not_nil (length pre' + 0) _ h' post' eq_refl Hh').
    apply Hmin; [exact E' | exact Hlt].
Qed.

Lemma getHashFromMagnet_null (magnet : str) :
  getHashFromMagnet (Some magnet) = None -> Spec.no_btih magnet.
Proof.
  unfold getHashFromMagnet, exec. cbn [to_string].
  destruct (exec_from no_flags btih_re 0 magnet) as [m|] eqn:E.
  - destruct (exec_from_Some _ _ _ _ E)
      as [pre [suf [y [ys [Hs [Hy [-> Hmin]]]]]]].
    cbn [group m_caps].
    destruct (rmatch_btih_Some _ _ Hy) as [h0 [post [Hsuf [Hh Hc0]]]].
    congruence.
  - intros _ n h [pre [post [E' [Hl Hh]]]].
    apply (@rmatch_btih_not_nil (length pre + 0) _ h post eq_refl Hh).
    eapply exec_from_None; [exact E | exact E'].
Qed.

Lemma getHashFromMagnet_first (magnet h : str) :
  Spec.first_btih magnet h -> getHashFromMagnet (Some magnet) = Some h.
Proof.
  intros Hf. destruct (getHashFromMagnet (Some magnet)) as [h'|] eqn:E.
  - apply getHashFromMagnet_sound in E.
    rewrite (first_btih_unique Hf E). reflexivity.
  - apply getHashFromMagnet_null in E. destruct Hf as [n [Hn _]].
    destruct (E _ _ Hn).
Qed.

Lemma getHashFromMagnet_none (magnet : str) :
  Spec.no_btih magnet -> getHashFromMagnet (Some magnet) = None.
Proof.
  intros Hn. destruct (getHashFromMagnet (Some magnet)) as [h|] eqn:E;
    [|reflexivity].
  apply getHashFromMagnet_sound in E. destruct E as [n [Hb _]].
  destruct (Hn _ _ Hb).
Qed.

(** ** The iteration counts *)

Lemma In_counts (g : bool) (mn : nat) (mx : option nat) (k n : nat) :
  In n (counts g mn mx k) <->
  mn <= n /\ n <= k /\ match mx with Some x => n <= x | None => True end.
Proof.
  unfold counts.
  set (hi := match mx with Some m => Nat.min m k | None => k end).
  assert (H : In n (seq mn (S hi - mn)) <-> mn <= n /\ n <= hi).
  { rewrite in_seq. lia. }
  assert (Hhi : n <= hi <->
                n <= k /\ match mx with Some x => n <= x | None => True end).
  { unfold hi. destruct mx; lia. }
  destruct g; [rewrite <- in_rev|]; rewrite H, Hhi; tauto.
Qed.

Lemma flat_map_not_nil {A B : Type} (f : A -> list B) (l : list A) (x : A) :
  In x l -> f x <> [] -> flat_map f l <> [].
Proof.
  intros Hin Hx H. apply Hx. rewrite flat_map_nil, Forall_forall in H. auto.
Qed.

(** ** The hexadecimal-part pattern *)

(** Under [ignoreCase] the class [[a-f0-9]] accepts the hexadecimal digits
    of either case. *)
Lemma class_af09_i (c : ascii) :
  class_pred flag_i false class_af09 c = Spec.is_hex c.
Proof.
  destruct c as [[] [] [] [] [] [] [] []]; reflexivity.
Qed.

Lemma rmatch_Bol (fl : flags) (st : mstate) :
  rmatch fl Bol st = if (idx st =? 0)%nat then [st] else [].
Proof. reflexivity. Qed.

Lemma rmatch_Eol (fl : flags) (st : mstate) :
  rmatch fl Eol st = match rest st with [] => [st] | _ => [] end.
Proof. reflexivity. Qed.

Lemma rmatch_hex (i : nat) (s : str) :
  rmatch flag_i hex_re (start i s) <> [] <->
  i = 0 /\ s <> [] /\ Forall (fun c => Spec.is_hex c = true) s.
Proof.
  unfold hex_re. rewrite rmatch_Cat, rmatch_Bol. cbn [idx start].
  destruct i as [|i]; cbn [Nat.eqb flat_map];
    [|split; [congruence | intros [H _]; discriminate]].
  rewrite app_nil_r. fold (start 0 s).
  rewrite rmatch_Cat. unfold plus. rewrite rmatch_Rep_Cls by exact I.
  cbn [rest start].
  rewrite (span_len_ext _ _ s class_af09_i).
  set (k := span_len Spec.is_hex s). split.
  - intros H. destruct (flat_map _ _) as [|y ys] eqn:E; [congruence|].
    apply flat_map_first in E.
    destruct E as [l1 [x [l2 [zs [El [Hx _]]]]]].
    assert (Hin : In x (map (fun n => advance n (start 0 s))
                            (counts true 1 None k))).
    { rewrite El. apply in_or_app. right. left. reflexivity. }
    apply in_map_iff in Hin. destruct Hin as [n [<- Hn]].
    apply In_counts in Hn. rewrite rmatch_Eol, rest_advance in Hx.
    cbn [rest start] in Hx.
    destruct (skipn n s) eqn:Es; [|discriminate].
    assert (Hlen : length (skipn n s) = 0) by (rewrite Es; reflexivity).
    rewrite length_skipn in Hlen.
    destruct Hn as [Hn1 [Hn2 _]].
    assert (Hk : length s <= k) by lia.
    apply span_len_ge in Hk. rewrite firstn_all in Hk.
    split; [reflexivity|]. split; [|tauto].
    intros ->. unfold k in Hn2. rewrite span_len_nil in Hn2. lia.
  - intros [_ [Hne Hall]].
    assert (Hk : length s <= k).
    { apply span_len_ge. rewrite firstn_all. auto. }
    apply flat_map_not_nil with (x := advance (length s) (start 0 s)).
    + apply (in_map (fun n => advance n (start 0 s))). apply In_counts.
      destruct s; [congruence|]. simpl in *. lia.
    + rewrite rmatch_Eol, rest_advance. cbn [rest start].
      rewrite skipn_all. discriminate.
Qed.

(** The hash test of the description loop accepts exactly the non-empty
    texts made of hexadecimal digits. *)
Lemma test_hex_iff (s : str) :
  test flag_i hex_re s = true <->
  s <> [] /\ Forall (fun c => Spec.is_hex c = true) s.
Proof.
  unfold test, exec. split.
  - destruct (exec_from flag_i hex_re 0 s) as [m|] eqn:E; [|discriminate].
    intros _.
    destruct (exec_from_Some _ _ _ _ E)
      as [pre [suf [y [ys [Hs [Hy _]]]]]].
    assert (Hne : rmatch flag_i hex_re (start (length pre + 0) suf) <> [])
      by congruence.
    apply rmatch_hex in Hne. destruct Hne as [Hp H].
    destruct pre; [|discriminate]. subst s. exact H.
  - intros H.
    destruct (exec_from flag_i hex_re 0 s) as [m|] eqn:E; [reflexivity|].
    exfalso. eapply (@exec_from_complete flag_i hex_re s 0 [] s eq_refl);
      [|exact E].
    apply rmatch_hex. tauto.
Qed.

Lemma is_hash_part_iff (part : str) :
  is_hash_part part = true <-> Spec.hash_like (Js.trim part).
Proof.
  unfold is_hash_part, Spec.hash_like.
  rewrite andb_true_iff, Nat.eqb_eq, test_hex_iff. split.
  - tauto.
  - intros [H1 H2]. repeat split; try assumption.
    intros E. rewrite E in H1. discriminate.
Qed.

(** ** The tag patterns *)

Lemma flat_map_map {A B C : Type} (f : B -> list C) (g : A -> B)
  (l : list A) :
  flat_map f (map g l) = flat_map (fun a => f (g a)) l.
Proof.
  induction l as [|a l IH]; simpl; [reflexivity|]. rewrite IH. reflexivity.
Qed.

Lemma flat_map_seq_first {B : Type} (G : nat -> list B) (len : nat) :
  forall a y ys, flat_map G (seq a len) = y :: ys ->
  exists n zs, a <= n < a + len /\ G n = y :: zs /\
               forall n', a <= n' < n -> G n' = [].
Proof.
  induction len as [|len IH]; intros a y ys H; [discriminate|].
  cbn [seq flat_map] in H. destruct (G a) as [|z zs] eqn:E.
  - simpl in H. destruct (IH _ _ _ H) as [n [zs [Hn [Hg Hmin]]]].
    exists n, zs. split; [lia|]. split; [exact Hg|].
    intros n' Hn'. destruct (Nat.eq_dec n' a) as [->|Hne]; [exact E|].
    apply Hmin. lia.
  - simpl in H. injection H as <- _. exists a, zs.
    split; [lia|]. split; [exact E|]. intros n' Hn'. lia.
Qed.

Section TagPattern.

Variable fl : flags.
Hypothesis fl_case : ignoreCase fl = false.
Variables opn cls : str.

Let tag_re : regex :=
  Cat (lit opn) (Cat (Grp 1 (lazy_star Dot)) (lit cls)).

(** The attempt with a body of [n] characters, on the input [s1] that
    follows the opening text. *)
Let attempt (a : mstate) (n : nat) : list mstate :=
  rmatch fl (lit cls)
    (set_capture 1 (Some (firstn n (rest a))) (advance n a)).

Lemma rmatch_tag (st : mstate) :
  rmatch fl tag_re st
  = if starts_with opn (rest st) then
      flat_map (attempt (advance (length opn) st))
        (seq 0 (S (span_len (dot_pred fl)
                     (skipn (length opn) (rest st)))))
    else [].
Proof.
  unfold tag_re. rewrite rmatch_Cat, rmatch_lit by exact fl_case.
  rewrite flat_map_if.
  destruct (starts_with opn (rest st)); [|reflexivity].
  rewrite rmatch_Cat, rmatch_Grp. unfold lazy_star.
  rewrite rmatch_Rep_Dot by (exact fl_case || exact I).
  rewrite map_map, flat_map_map. rewrite rest_advance.
  unfold counts. rewrite Nat.sub_0_r.
  apply flat_map_ext. intros n. unfold attempt.
  rewrite idx_advance, Nat.add_sub, rest_advance. reflexivity.
Qed.

Lemma attempt_iff (a : mstate) (n : nat) :
  n <= span_len (dot_pred fl) (rest a) ->
  (attempt a n <> [] <->
   exists c post, rest a = c ++ cls ++ post /\ length c = n /\
                  Forall (fun x => dot_pred fl x = true) c).
Proof.
  intros Hn. unfold attempt. rewrite rmatch_lit by exact fl_case.
  cbn [rest set_capture]. rewrite rest_advance.
  apply span_len_ge in Hn. destruct Hn as [Hl Hall].
  destruct (starts_with cls (skipn n (rest a))) eqn:E.
  - split; [intros _|discriminate].
    apply starts_with_iff in E. destruct E as [post E].
    exists (firstn n (rest a)), post.
    rewrite <- E, firstn_skipn, length_firstn.
    split; [reflexivity|]. split; [lia | exact Hall].
  - split; [congruence|]. intros [c [post [Hr [Hc _]]]]. exfalso.
    rewrite Hr, <- Hc, skipn_app, skipn_all, Nat.sub_diag in E.
    simpl in E. rewrite starts_with_app in E. discriminate.
Qed.

Lemma attempt_capture (a : mstate) (n : nat) (y : mstate)
  (zs : list mstate) :
  attempt a n = y :: zs -> capture 1 (caps y) = Some (firstn n (rest a)).
Proof.
  unfold attempt. rewrite rmatch_lit by exact fl_case.
  destruct (starts_with cls _); [|discriminate].
  intros H. injection H as <- _. reflexivity.
Qed.

(** A body can be tried only if its characters are acceptable. *)
Lemma body_in_span (s1 c post : str) :
  s1 = c ++ cls ++ post -> Forall (fun x => dot_pred fl x = true) c ->
  length c <= span_len (dot_pred fl) s1.
Proof.
  intros -> Hall. apply span_len_ge. split.
  - rewrite length_app. lia.
  - rewrite firstn_app, Nat.sub_diag, firstn_all. simpl.
    rewrite app_nil_r. exact Hall.
Qed.

(** At a given position the pattern finds the shortest body. *)
Lemma rmatch_tag_Some (i : nat) (suf : str) (y : mstate)
  (ys : list mstate) :
  rmatch fl tag_re (start i suf) = y :: ys ->
  exists c post,
    suf = opn ++ c ++ cls ++ post /\
    Forall (fun x => dot_pred fl x = true) c /\
    capture 1 (caps y) = Some c /\
    forall c' post', suf = opn ++ c' ++ cls ++ post' ->
                     Forall (fun x => dot_pred fl x = true) c' ->
                     length c <= length c'.
Proof.
  rewrite rmatch_tag. cbn [rest start].
  destruct (starts_with opn suf) eqn:Eo; [|discriminate].
  apply starts_with_skipn in Eo.
  set (s1 := skipn (length opn) suf) in *.
  set (a := advance (length opn) (start i suf)).
  assert (Ha : rest a = s1) by reflexivity.
  intros H. apply flat_map_seq_first in H.
  destruct H as [n [zs [Hn [Hg Hmin]]]].
  assert (Hn' : n <= span_len (dot_pred fl) (rest a)) by (rewrite Ha; lia).
  destruct (proj1 (attempt_iff a Hn')) as [c [post [Hr [Hc Hall]]]];
    [congruence|].
  exists c, post. rewrite Ha in Hr.
  split; [rewrite Eo, Hr; reflexivity|]. split; [exact Hall|]. split.
  - rewrite (attempt_capture _ _ Hg), Ha, Hr, <- Hc.
    rewrite firstn_app, Nat.sub_diag, firstn_all. simpl.
    rewrite app_nil_r. reflexivity.
  - intros c' post' Hs' Hall'.
    rewrite Eo in Hs'. apply app_inv_head in Hs'.
    destruct (Nat.le_gt_cases (length c) (length c')) as [|Hlt];
      [assumption|]. exfalso.
    assert (Hk : length c' <= span_len (dot_pred fl) (rest a)).
    { rewrite Ha. eapply body_in_span; eassumption. }
    apply (proj2 (attempt_iff a Hk)).
    + exists c', post'. rewrite Ha. auto.
    + apply Hmin. lia.
Qed.

Lemma rmatch_tag_not_nil (i : nat) (suf c post : str) :
  suf = opn ++ c ++ cls ++ post ->
  Forall (fun x => dot_pred fl x = true) c ->
  rmatch fl tag_re (start i suf) <> [].
Proof.
  intros Hs Hall. rewrite rmatch_tag. cbn [rest start].
  rewrite Hs, starts_with_app, skipn_app, skipn_all, Nat.sub_diag.
  cbn [skipn app].
  set (a := advance (length opn) (start i (opn ++ c ++ cls ++ post))).
  assert (Ha : rest a = c ++ cls ++ post).
  { unfold a. rewrite rest_advance. cbn [rest start].
    rewrite skipn_app, skipn_all, Nat.sub_diag. reflexivity. }
  assert (Hk : length c <= span_len (dot_pred fl) (rest a)).
  { rewrite Ha. eapply body_in_span; [reflexivity | exact Hall]. }
  apply flat_map_not_nil with (x := length c).
  - apply in_seq. rewrite <- Ha. lia.
  - apply (proj2 (attempt_iff a Hk)). exists c, post. auto.
Qed.

(** The search returns the body of the leftmost, shortest stretch. *)
Lemma exec_tag_sound (xml : str) (m : match_result) :
  exec fl tag_re xml = Some m ->
  exists c, group m 1 = Some c /\
            Spec.tag_body (dot_pred fl) opn cls xml c.
Proof.
  unfold exec. intros E.
  destruct (exec_from_Some _ _ _ _ E)
    as [pre [suf [y [ys [Hs [Hy [-> Hmin]]]]]]].
  destruct (rmatch_tag_Some _ _ Hy) as [c [post [Hsuf [Hall [Hc Hshort]]]]].
  exists c. split; [exact Hc|]. exists (length pre). split.
  - exists pre, post. subst. auto.
  - intros n' c' [pre' [post' [E' [Hl' Hall']]]].
    destruct (Nat.lt_trichotomy (length pre) n') as [Hlt|[Heq|Hgt]].
    + left. exact Hlt.
    + right. split; [exact Heq|]. subst n'.
      rewrite Hs in E'. apply app_inv_length in E'; [|congruence].
      destruct E' as [_ E']. eapply Hshort; eassumption.
    + exfalso. subst n'.
      apply (@rmatch_tag_not_nil (length pre' + 0) _ c' post' eq_refl Hall').
      apply Hmin; [exact E' | exact Hgt].
Qed.

Lemma exec_tag_None (xml : str) :
  exec fl tag_re xml = None ->
  forall c, ~ Spec.tag_body (dot_pred fl) opn cls xml c.
Proof.
  unfold exec. intros E c [n [[pre [post [Hs [Hl Hall]]]] _]].
  apply (@rmatch_tag_not_nil (length pre + 0) _ c post eq_refl Hall).
  eapply exec_from_None; [exact E | exact Hs].
Qed.

End TagPattern.

(** The leftmost, shortest body is unique. *)
Lemma tag_body_unique (allowed : ascii -> bool) (opn cls xml c c' : str) :
  Spec.tag_body allowed opn cls xml c ->
  Spec.tag_body allowed opn cls xml c' -> c = c'.
Proof.
  intros [n [Hb Hmin]] [n' [Hb' Hmin']].
  destruct (Hmin _ _ Hb') as [H1|[H1 H2]];
    destruct (Hmin' _ _ Hb) as [H3|[H3 H4]]; try lia.
  subst n'.
  destruct Hb as [pre [post [E [Hl _]]]].
  destruct Hb' as [pre' [post' [E' [Hl' _]]]].
  rewrite E in E'. apply app_inv_length in E'; [|congruence].
  destruct E' as [_ E']. apply app_inv_head in E'.
  apply app_inv_length in E'; [|lia]. tauto.
Qed.

Lemma exec_tag_complete (fl : flags) (opn cls xml c : str) :
  ignoreCase fl = false ->
  Spec.tag_body (dot_pred fl) opn cls xml c ->
  exists m,
    exec fl (Cat (lit opn) (Cat (Grp 1 (lazy_star Dot)) (lit cls))) xml
    = Some m /\ group m 1 = Some c.
Proof.
  intros Hi Hb.
  destruct (exec fl (Cat (lit opn) (Cat (Grp 1 (lazy_star Dot)) (lit cls)))
              xml) as [m|] eqn:E.
  - destruct (@exec_tag_sound fl Hi opn cls xml m E) as [c0 [Hg Hb0]].
    exists m. split; [reflexivity|].
    rewrite (tag_body_unique Hb Hb0). exact Hg.
  - destruct (@exec_tag_None fl Hi opn cls xml E c Hb).
Qed.

(** ** The enclosure pattern *)

Lemma In_step_if (q : ascii -> bool) (st y : mstate) :
  In y (step_if q st) <->
  exists c, rest st = c :: rest y /\ q c = true /\
            idx y = S (idx st) /\ caps y = caps st.
Proof.
  unfold step_if. destruct (rest st) as [|c s'] eqn:E.
  - split; [intros [] | intros [c [H _]]; discriminate].
  - destruct (q c) eqn:Eq.
    + split.
      * intros [ <- | [] ]. exists c. auto.
      * intros [c' [H [_ [Hi Hc]]]]. injection H as <- ->.
        left. destruct y; simpl in *. congruence.
    + split; [intros [] | intros [c' [H [Hq _]]]].
      injection H as <- _. congruence.
Qed.

(** Every success of the enclosure pattern has its group set. *)
Lemma rmatch_enclosure_capture (st y : mstate) :
  In y (rmatch no_flags enclosure_re st) ->
  exists c, capture 1 (caps y) = Some c.
Proof.
  unfold enclosure_re. rewrite rmatch_Cat. intros H.
  apply in_flat_map in H. destruct H as [x [_ H]].
  rewrite rmatch_Cat in H. apply in_flat_map in H.
  destruct H as [z [Hz H]].
  rewrite rmatch_Grp in Hz. apply in_map_iff in Hz.
  destruct Hz as [z0 [<- _]].
  rewrite rmatch_Chr in H. apply In_step_if in H.
  destruct H as [c [_ [_ [_ Hc]]]]. rewrite Hc.
  eexists. reflexivity.
Qed.

Lemma exec_enclosure_group (s : str) (m : match_result) :
  exec no_flags enclosure_re s = Some m ->
  exists c, group m 1 = Some c.
Proof.
  unfold exec. intros E.
  destruct (exec_from_Some _ _ _ _ E)
    as [pre [suf [y [ys [_ [Hy [-> _]]]]]]].
  cbn [group m_caps]. eapply rmatch_enclosure_capture.
  rewrite Hy. left. reflexivity.
Qed.

(** ** The tag extractor *)

Lemma exec_cdata_sound (xml tagName : str) (m : match_result) :
  exec flag_s (cdata_re tagName) xml = Some m ->
  exists c, group m 1 = Some c /\ Spec.cdata_body tagName xml c.
Proof. intros E. apply (@exec_tag_sound flag_s eq_refl _ _ _ _ E). Qed.

Lemma exec_plain_sound (xml tagName : str) (m : match_result) :
  exec no_flags (plain_re tagName) xml = Some m ->
  exists c, group m 1 = Some c /\ Spec.plain_body tagName xml c.
Proof. intros E. apply (@exec_tag_sound no_flags eq_refl _ _ _ _ E). Qed.

Lemma plain_fallback_body (xml tagName c : str) :
  Spec.plain_body tagName xml c -> plain_fallback xml tagName = Some c.
Proof.
  intros Hb. unfold plain_fallback.
  destruct (@exec_tag_complete no_flags _ _ _ _ eq_refl Hb) as [m [E Hg]].
  unfold plain_re. rewrite E. exact Hg.
Qed.

Lemma plain_fallback_none (xml tagName : str) :
  (forall c, ~ Spec.plain_body tagName xml c) ->
  plain_fallback xml tagName = Some [].
Proof.
  intros Hn. unfold plain_fallback.
  destruct (exec no_flags (plain_re tagName) xml) as [m|] eqn:E;
    [|reflexivity].
  destruct (exec_plain_sound _ _ E) as [c [_ Hb]]. destruct (Hn _ Hb).
Qed.

Lemma plain_fallback_defined (xml tagName : str) :
  exists c, plain_fallback xml tagName = Some c.
Proof.
  unfold plain_fallback.
  destruct (exec no_flags (plain_re tagName) xml) as [m|] eqn:E.
  - destruct (exec_plain_sound _ _ E) as [c [Hg _]]. eauto.
  - eauto.
Qed.

Lemma getTagContent_cdata (xml tagName c : str) :
  Spec.cdata_body tagName xml c -> c <> [] ->
  getTagContent xml tagName = Some c.
Proof.
  intros Hb Hne. unfold getTagContent.
  destruct (@exec_tag_complete flag_s _ _ _ _ eq_refl Hb) as [m [E Hg]].
  unfold cdata_re. rewrite E, Hg.
  destruct c; [congruence | reflexivity].
Qed.

Lemma getTagContent_fallback (xml tagName : str) :
  (forall c, Spec.cdata_body tagName xml c -> c = []) ->
  getTagContent xml tagName = plain_fallback xml tagName.
Proof.
  intros Hc. unfold getTagContent.
  destruct (exec flag_s (cdata_re tagName) xml) as [m|] eqn:E;
    [|reflexivity].
  destruct (exec_cdata_sound _ _ E) as [c [Hg Hb]].
  rewrite Hg, (Hc _ Hb). reflexivity.
Qed.

(** The extractor always returns a string. *)
Lemma getTagContent_defined (xml tagName : str) :
  exists c, getTagContent xml tagName = Some c.
Proof.
  unfold getTagContent.
  destruct (exec flag_s (cdata_re tagName) xml) as [m|] eqn:E.
  - destruct (exec_cdata_sound _ _ E) as [c [Hg _]]. rewrite Hg.
    destruct (truthy c); [eauto | apply plain_fallback_defined].
  - apply plain_fallback_defined.
Qed.

(** ** The size pattern *)

Lemma rmatch_lit_gen (fl : flags) (l : str) (st : mstate) :
  rmatch fl (lit l) st
  = if matches_lit fl l (rest st) then [advance (length l) st] else [].
Proof.
  revert st. induction l as [|a l IH]; intros st.
  - simpl. rewrite advance_0. reflexivity.
  - cbn [lit]. rewrite rmatch_Cat, rmatch_Chr. unfold step_if.
    destruct (rest st) as [|b s'] eqn:Er; [reflexivity|].
    cbn [matches_lit].
    destruct (class_pred fl false (fun x => ascii_eqb x a) b); [|reflexivity].
    cbn [flat_map andb]. rewrite app_nil_r, IH. cbn [rest].
    destruct (matches_lit fl l s'); [|reflexivity].
    rewrite (advance_S (length l) st Er). reflexivity.
Qed.

Ltac by_cases_on_char c :=
  destruct c as [[] [] [] [] [] [] [] []]; reflexivity.

Lemma class_digit_i (c : ascii) :
  class_pred flag_i false is_digit c = is_digit c.
Proof. by_cases_on_char c. Qed.

Lemma class_space_i (c : ascii) :
  class_pred flag_i false is_space c = is_space c.
Proof. by_cases_on_char c. Qed.

Lemma class_point_i (c : ascii) :
  class_pred flag_i false (fun x => ascii_eqb x ".") c = ascii_eqb c ".".
Proof. by_cases_on_char c. Qed.

Lemma class_K_i (c : ascii) :
  class_pred flag_i false (fun x => ascii_eqb x "K") c
  = ascii_eqb (upper_char c) "K".
Proof. by_cases_on_char c. Qed.

Lemma class_M_i (c : ascii) :
  class_pred flag_i false (fun x => ascii_eqb x "M") c
  = ascii_eqb (upper_char c) "M".
Proof. by_cases_on_char c. Qed.

Lemma class_G_i (c : ascii) :
  class_pred flag_i false (fun x => ascii_eqb x "G") c
  = ascii_eqb (upper_char c) "G".
Proof. by_cases_on_char c. Qed.

Lemma class_T_i (c : ascii) :
  class_pred flag_i false (fun x => ascii_eqb x "T") c
  = ascii_eqb (upper_char c) "T".
Proof. by_cases_on_char c. Qed.

Lemma class_B_i (c : ascii) :
  class_pred flag_i false (fun x => ascii_eqb x "B") c
  = ascii_eqb (upper_char c) "B".
Proof. by_cases_on_char c. Qed.

(** A two-letter unit under [ignoreCase]. *)
Lemma matches_unit (a b : ascii) (s : str) :
  (forall c, class_pred flag_i false (fun x => ascii_eqb x a) c
             = ascii_eqb (upper_char c) a) ->
  (forall c, class_pred flag_i false (fun x => ascii_eqb x b) c
             = ascii_eqb (upper_char c) b) ->
  (matches_lit flag_i [a; b] s = true <->
   exists u, map upper_char u = [a; b] /\ s = u ++ skipn 2 s).
Proof.
  intros Ha Hb. destruct s as [|x [|y s]]; cbn [matches_lit].
  - split; [discriminate|]. intros [u [Hu Hs]].
    destruct u; [discriminate Hu | discriminate Hs].
  - rewrite andb_false_r. split; [discriminate|]. intros [u [Hu Hs]].
    destruct u as [|? [|? u]]; try discriminate Hu.
    discriminate Hs.
  - rewrite Ha, Hb, andb_true_r, andb_true_iff, !ascii_eqb_eq. split.
    + intros [<- <-]. exists [x; y]. split; reflexivity.
    + intros [u [Hu Hs]].
      destruct u as [|x' [|y' [|? u]]]; try discriminate Hu.
      cbn [skipn app] in Hs. injection Hs as -> ->.
      cbn [map] in Hu. injection Hu as <- <-. split; reflexivity.
Qed.

Lemma rest_clear_captures (gs : list nat) (st : mstate) :
  rest (clear_captures gs st) = rest st.
Proof. reflexivity. Qed.

Lemma idx_clear_captures (gs : list nat) (st : mstate) :
  idx (clear_captures gs st) = idx st.
Proof. reflexivity. Qed.

(** What a quantified class consumes. *)
Lemma rep_cls_sound (fl : flags) (g : bool) (mn : nat) (invert : bool)
  (p : ascii -> bool) (st y : mstate) :
  In y (rmatch fl (Rep g mn None (Cls invert p)) st) ->
  exists w, rest st = w ++ rest y /\ mn <= length w /\
            idx y = length w + idx st /\
            Forall (fun c => class_pred fl invert p c = true) w.
Proof.
  rewrite rmatch_Rep_Cls by exact I. intros H.
  apply in_map_iff in H. destruct H as [n [<- Hn]].
  apply In_counts in Hn. destruct Hn as [H1 [H2 _]].
  apply span_len_ge in H2. destruct H2 as [H2 H3].
  exists (firstn n (rest st)). rewrite rest_advance, idx_advance.
  rewrite firstn_skipn, length_firstn.
  replace (Nat.min n (length (rest st))) with n by lia. auto.
Qed.

Lemma rep_cls_complete (fl : flags) (g : bool) (mn : nat) (invert : bool)
  (p : ascii -> bool) (st : mstate) (w r : str) :
  rest st = w ++ r -> mn <= length w ->
  Forall (fun c => class_pred fl invert p c = true) w ->
  exists y, In y (rmatch fl (Rep g mn None (Cls invert p)) st) /\
            rest y = r /\ idx y = length w + idx st.
Proof.
  intros Hr Hmn Hall. exists (advance (length w) st).
  rewrite rmatch_Rep_Cls by exact I. split; [|split].
  - apply (in_map (fun n => advance n st)). apply In_counts.
    split; [exact Hmn|]. split; [|exact I].
    apply span_len_ge. rewrite Hr. split.
    + rewrite length_app. lia.
    + rewrite firstn_app, Nat.sub_diag, firstn_all. simpl.
      rewrite app_nil_r. exact Hall.
  - rewrite rest_advance, Hr, skipn_app, skipn_all, Nat.sub_diag.
    reflexivity.
  - reflexivity.
Qed.

(** An optional atom is taken, consuming something, or skipped. *)
Lemma rmatch_opt (fl : flags) (a : regex) (st : mstate) :
  rmatch fl (opt a) st
  = flat_map (fun y => if (idx y =? idx st)%nat then [] else [y])
      (rmatch fl a (clear_captures (groups a) st)) ++ [st].
Proof.
  unfold opt. cbn [rmatch repeat_matcher Nat.eqb andb].
  f_equal. apply flat_map_ext. intros y.
  destruct (idx y =? idx st)%nat; [reflexivity|].
  destruct (0 + length (rest st)); reflexivity.
Qed.

Lemma In_opt (fl : flags) (a : regex) (st y : mstate) :
  In y (rmatch fl (opt a) st) <->
  (In y (rmatch fl a (clear_captures (groups a) st)) /\ idx y <> idx st)
  \/ y = st.
Proof.
  rewrite rmatch_opt, in_app_iff, in_flat_map. split.
  - intros [[x [Hx H]] | [ <- | [] ]]; [left|right; reflexivity].
    destruct (Nat.eqb_spec (idx x) (idx st)); [destruct H|].
    destruct H as [ <- | [] ]. auto.
  - intros [[H Hi] | ->]; [left|right; left; reflexivity].
    exists y. split; [exact H|].
    destruct (Nat.eqb_spec (idx y) (idx st)); [contradiction|].
    left. reflexivity.
Qed.

Lemma In_lit_gen (fl : flags) (l : str) (st y : mstate) :
  In y (rmatch fl (lit l) st) <->
  matches_lit fl l (rest st) = true /\ y = advance (length l) st.
Proof.
  rewrite rmatch_lit_gen. destruct (matches_lit fl l (rest st)).
  - split; [intros [ <- | [] ]; auto | intros [_ ->]; left; reflexivity].
  - split; [intros [] | intros [H _]; discriminate].
Qed.

Lemma In_units (st y : mstate) :
  In y (rmatch flag_i units_re st) <->
  (exists u, Spec.is_unit u /\ rest st = u ++ skipn 2 (rest st))
  /\ y = advance 2 st.
Proof.
  unfold units_re. rewrite !rmatch_Alt, !in_app_iff, !In_lit_gen.
  change (length (String.list_ascii_of_string "KB")) with 2.
  change (length (String.list_ascii_of_string "MB")) with 2.
  change (length (String.list_ascii_of_string "GB")) with 2.
  change (length (String.list_ascii_of_string "TB")) with 2.
  change (String.list_ascii_of_string "KB") with ["K"; "B"]%char.
  change (String.list_ascii_of_string "MB") with ["M"; "B"]%char.
  change (String.list_ascii_of_string "GB") with ["G"; "B"]%char.
  change (String.list_ascii_of_string "TB") with ["T"; "B"]%char.
  rewrite (@matches_unit "K" "B" _ class_K_i class_B_i),
          (@matches_unit "M" "B" _ class_M_i class_B_i),
          (@matches_unit "G" "B" _ class_G_i class_B_i),
          (@matches_unit "T" "B" _ class_T_i class_B_i).
  unfold Spec.is_unit. cbv zeta.
  change (String.list_ascii_of_string "KB") with ["K"; "B"]%char.
  change (String.list_ascii_of_string "MB") with ["M"; "B"]%char.
  change (String.list_ascii_of_string "GB") with ["G"; "B"]%char.
  change (String.list_ascii_of_string "TB") with ["T"; "B"]%char.
  split.
  - intros [[[u [Hu Hs]] ->]|[[[u [Hu Hs]] ->]|[[[u [Hu Hs]] ->]
            |[[u [Hu Hs]] ->]]]]; (split; [exists u|reflexivity]); tauto.
  - intros [[u [[Hu|[Hu|[Hu|Hu]]] Hs]] ->];
      [left|right; left|right; right; left|right; right; right];
      (split; [exists u; tauto|reflexivity]).
Qed.

Lemma Forall_pred_ext (p q : ascii -> bool) (w : str) :
  (forall c, p c = q c) ->
  (Forall (fun c => p c = true) w <-> Forall (fun c => q c = true) w).
Proof.
  intros H. split; apply Forall_impl; intros c Hc;
    [rewrite <- H | rewrite H]; exact Hc.
Qed.

Lemma is_unit_length (u : str) : Spec.is_unit u -> length u = 2.
Proof.
  unfold Spec.is_unit. cbv zeta. intros H.
  rewrite <- (length_map upper_char).
  destruct H as [-> | [-> | [-> | ->]]]; reflexivity.
Qed.

(** The fraction [\.\d+] of a quantity. *)
Lemma fraction_sound (st y : mstate) :
  In y (rmatch flag_i fraction_re st) ->
  exists fp, rest st = "."%char :: fp ++ rest y /\ fp <> [] /\
             Forall (fun c => is_digit c = true) fp.
Proof.
  unfold fraction_re. rewrite rmatch_Cat, in_flat_map.
  intros [z [Hz Hy]]. rewrite rmatch_Chr in Hz. apply In_step_if in Hz.
  destruct Hz as [c [Hr [Hc _]]]. rewrite class_point_i in Hc.
  apply ascii_eqb_eq in Hc. subst c.
  apply rep_cls_sound in Hy. destruct Hy as [w [Hw [Hl [_ Hd]]]].
  exists w. rewrite Hr, Hw. split; [reflexivity|]. split.
  - intros ->. simpl in Hl. lia.
  - apply (Forall_pred_ext _ _ w class_digit_i). exact Hd.
Qed.

Lemma fraction_complete (st : mstate) (fp r : str) :
  rest st = "."%char :: fp ++ r -> fp <> [] ->
  Forall (fun c => is_digit c = true) fp ->
  exists y, In y (rmatch flag_i fraction_re st) /\ rest y = r /\
            idx y <> idx st.
Proof.
  intros Hr Hne Hd. unfold fraction_re.
  set (z := {| idx := S (idx st); rest := fp ++ r; caps := caps st |}).
  destruct (@rep_cls_complete flag_i true 1 false is_digit z fp r)
    as [y [Hy [Hry Hiy]]].
  - reflexivity.
  - destruct fp; [congruence | simpl; lia].
  - apply (Forall_pred_ext _ _ fp class_digit_i). exact Hd.
  - exists y. split; [|split; [exact Hry | rewrite Hiy; simpl; lia]].
    rewrite rmatch_Cat, in_flat_map. exists z. split; [|exact Hy].
    rewrite rmatch_Chr. apply In_step_if. exists "."%char.
    rewrite class_point_i. auto.
Qed.

(** Every success of the size pattern consumes a quantity, white space
    and a unit. *)
Lemma size_sound (st y : mstate) :
  In y (rmatch flag_i size_re st) ->
  exists q ws u,
    rest st = q ++ ws ++ u ++ rest y /\ Spec.is_quantity q /\
    Forall (fun c => is_space c = true) ws /\ Spec.is_unit u.
Proof.
  unfold size_re. rewrite rmatch_Cat, in_flat_map.
  intros [x1 [H1 H]]. apply rep_cls_sound in H1.
  destruct H1 as [ip [Hip [Hl1 [_ Hd1]]]].
  apply (Forall_pred_ext _ _ ip class_digit_i) in Hd1.
  assert (Hne1 : ip <> []) by (intros ->; simpl in Hl1; lia).
  rewrite rmatch_Cat, in_flat_map in H. destruct H as [x2 [H2 H]].
  rewrite rmatch_Cat, in_flat_map in H. destruct H as [x3 [H3 H]].
  apply rep_cls_sound in H3. destruct H3 as [ws [Hws [_ [_ Hsp]]]].
  apply (Forall_pred_ext _ _ ws class_space_i) in Hsp.
  rewrite rmatch_Grp, in_map_iff in H. destruct H as [y0 [<- H]].
  apply In_units in H. destruct H as [[u [Hu Hr3]] ->].
  cbn [rest set_capture]. rewrite rest_advance.
  assert (Hq : exists q, Spec.is_quantity q /\ rest st = q ++ rest x2).
  { apply In_opt in H2. destruct H2 as [[H2 _] | ->].
    - rewrite rmatch_Grp, in_map_iff in H2. destruct H2 as [z [<- Hz]].
      apply fraction_sound in Hz. destruct Hz as [fp [Hr [Hne Hd]]].
      rewrite rest_clear_captures in Hr.
      exists (ip ++ "." ++ fp). split.
      + exists ip, fp. split; [exact Hne1|]. split; [exact Hd1|].
        split; [exact Hd|]. right. split; [exact Hne | reflexivity].
      + cbn [rest set_capture]. rewrite Hip, Hr, <- !app_assoc.
        reflexivity.
    - exists ip. split; [|exact Hip]. exists ip, [].
      split; [exact Hne1|]. split; [exact Hd1|]. split; [constructor|].
      left. reflexivity. }
  destruct Hq as [q [Hq Hrq]].
  exists q, ws, u. rewrite Hrq, Hws, <- Hr3. auto.
Qed.

Lemma size_complete (st : mstate) (q ws u r : str) :
  rest st = q ++ ws ++ u ++ r -> Spec.is_quantity q ->
  Forall (fun c => is_space c = true) ws -> Spec.is_unit u ->
  rmatch flag_i size_re st <> [].
Proof.
  intros Hr [ip [fp [Hne [Hd1 [Hd2 Hq]]]]] Hsp Hu.
  assert (Hx2 : exists x2,
             In x2 (rmatch flag_i
                      (Cat (plus (Cls false is_digit))
                           (opt (Grp 1 fraction_re))) st)
             /\ rest x2 = ws ++ u ++ r).
  { destruct Hq as [-> | [Hnf ->]].
    - destruct (@rep_cls_complete flag_i true 1 false is_digit st ip
                  (ws ++ u ++ r)) as [x1 [Hx1 [Hr1 _]]].
      + exact Hr.
      + destruct ip; [congruence | simpl; lia].
      + apply (Forall_pred_ext _ _ ip class_digit_i). exact Hd1.
      + exists x1. split; [|exact Hr1].
        rewrite rmatch_Cat, in_flat_map. exists x1. split; [exact Hx1|].
        apply In_opt. right. reflexivity.
    - destruct (@rep_cls_complete flag_i true 1 false is_digit st ip
                  ("." ++ fp ++ ws ++ u ++ r)) as [x1 [Hx1 [Hr1 _]]].
      + rewrite Hr, <- !app_assoc. reflexivity.
      + destruct ip; [congruence | simpl; lia].
      + apply (Forall_pred_ext _ _ ip class_digit_i). exact Hd1.
      + destruct (@fraction_complete (clear_captures [1] x1) fp
                    (ws ++ u ++ r)) as [z [Hz [Hrz Hiz]]];
          [rewrite rest_clear_captures; exact Hr1 | exact Hnf
           | exact Hd2 |].
        set (x1' := clear_captures [1] x1) in *.
        exists (set_capture 1
                  (Some (firstn (idx z - idx x1') (rest x1'))) z).
        split; [|exact Hrz].
        rewrite rmatch_Cat, in_flat_map. exists x1. split; [exact Hx1|].
        apply In_opt. left. split.
        * rewrite rmatch_Grp.
          apply (in_map (fun y => set_capture 1
                           (Some (firstn (idx y - idx x1') (rest x1'))) y)).
          exact Hz.
        * exact Hiz. }
  destruct Hx2 as [x2 [Hx2 Hr2]].
  destruct (@rep_cls_complete flag_i true 0 false is_space x2 ws (u ++ r))
    as [x3 [Hx3 [Hr3 _]]];
    [exact Hr2 | lia
     | apply (Forall_pred_ext _ _ ws class_space_i); exact Hsp |].
  assert (Hin : In (set_capture 2
                      (Some (firstn (idx (advance 2 x3) - idx x3) (rest x3)))
                      (advance 2 x3))
                   (rmatch flag_i size_re st)).
  { unfold size_re. rewrite rmatch_Cat, in_flat_map.
    unfold size_re in Hx2. rewrite rmatch_Cat, in_flat_map in Hx2.
    destruct Hx2 as [x1 [Hx1 Hx2]]. exists x1. split; [exact Hx1|].
    rewrite rmatch_Cat, in_flat_map. exists x2. split; [exact Hx2|].
    rewrite rmatch_Cat, in_flat_map. exists x3. split; [exact Hx3|].
    rewrite rmatch_Grp.
    apply (in_map (fun y => set_capture 2
                     (Some (firstn (idx y - idx x3) (rest x3))) y)).
    apply In_units. split; [|reflexivity].
    exists u. split; [exact Hu|].
    rewrite Hr3, <- (is_unit_length Hu), skipn_app, skipn_all, Nat.sub_diag.
    reflexivity. }
  intros E. rewrite E in Hin. destruct Hin.
Qed.

(** The size test of the description loop accepts exactly the texts that
    hold a quantity, optional white space and a unit. *)
Lemma test_size_iff (s : str) :
  test flag_i size_re s = true <-> Spec.has_size_pattern s.
Proof.
  unfold test, exec. split.
  - destruct (exec_from flag_i size_re 0 s) as [m|] eqn:E; [|discriminate].
    intros _.
    destruct (exec_from_Some _ _ _ _ E)
      as [pre [suf [y [ys [Hs [Hy _]]]]]].
    assert (Hin : In y (rmatch flag_i size_re (start (length pre + 0) suf)))
      by (rewrite Hy; left; reflexivity).
    apply size_sound in Hin. destruct Hin as [q [ws [u [Hr H]]]].
    exists pre, q, ws, u, (rest y). cbn [rest start] in Hr.
    rewrite Hs, Hr. tauto.
  - intros [pre [q [ws [u [post [Hs [Hq [Hsp Hu]]]]]]]].
    destruct (exec_from flag_i size_re 0 s) as [m|] eqn:E; [reflexivity|].
    exfalso.
    eapply (@exec_from_complete flag_i size_re s 0 pre
              (q ++ ws ++ u ++ post) Hs); [|exact E].
    eapply size_complete; [reflexivity | eassumption ..].
Qed.

Lemma is_size_part_iff (part : str) :
  is_size_part part = true <-> Spec.has_size_pattern (Js.trim part).
Proof. apply test_size_iff. Qed.

(** ** Case-insensitive classes *)

Lemma In_all_chars (c : ascii) : In c all_chars.
Proof.
  unfold all_chars. rewrite <- (ascii_nat_embedding c).
  apply in_map, in_seq. pose proof (nat_ascii_bounded c). lia.
Qed.

Lemma canonical_forms_check :
  forallb (fun a =>
    forallb (fun c =>
      implb (ascii_eqb (upper_char a) (upper_char c))
            (ascii_eqb a c || ascii_eqb a (lower_char c)
             || ascii_eqb a (upper_char c)))
      all_chars) all_chars = true.
Proof. vm_compute. reflexivity. Qed.

Lemma canonical_forms (a c : ascii) :
  upper_char a = upper_char c ->
  a = c \/ a = lower_char c \/ a = upper_char c.
Proof.
  intros H. pose proof canonical_forms_check as K.
  rewrite forallb_forall in K. specialize (K a (In_all_chars a)).
  rewrite forallb_forall in K. specialize (K c (In_all_chars c)).
  apply ascii_eqb_eq in H. rewrite H in K. cbn [implb] in K.
  rewrite !orb_true_iff, !ascii_eqb_eq in K. tauto.
Qed.

Lemma upper_lower (c : ascii) : upper_char (lower_char c) = upper_char c.
Proof. destruct c as [[] [] [] [] [] [] [] []]; reflexivity. Qed.

Lemma upper_upper (c : ascii) : upper_char (upper_char c) = upper_char c.
Proof. destruct c as [[] [] [] [] [] [] [] []]; reflexivity. Qed.

(** [class_found] is the test of the language specification: some member
    of the class has the canonical form of the character. *)
Lemma class_found_canonical (fl : flags) (p : ascii -> bool) (c : ascii) :
  class_found fl p c = true <->
  exists a, p a = true /\ canonicalize fl a = canonicalize fl c.
Proof.
  unfold class_found, canonicalize. destruct (ignoreCase fl).
  - rewrite !orb_true_iff. split.
    + intros [[H|H]|H]; eexists; (split; [exact H|]);
        [reflexivity | apply upper_lower | apply upper_upper].
    + intros [a [Ha E]].
      destruct (canonical_forms _ _ E) as [-> | [-> | ->]]; tauto.
  - split; [intros H; exists c; auto | intros [a [Ha ->]]; exact Ha].
Qed.

(** ** Replacing the matches of a class *)

Section ReplaceClass.

Variable fl : flags.
Variable invert : bool.
Variable p : ascii -> bool.

Let q : ascii -> bool := class_pred fl invert p.

Lemma exec_from_class_nil (i : nat) :
  exec_from fl (Cls invert p) i [] = None.
Proof. reflexivity. Qed.

Lemma exec_from_class_cons (i : nat) (c : ascii) (s : str) :
  exec_from fl (Cls invert p) i (c :: s)
  = if q c
    then Some {| m_index := i; m_end := S i;
                 m_text := firstn (S i - i) (c :: s); m_caps := [] |}
    else exec_from fl (Cls invert p) (S i) s.
Proof.
  cbn [exec_from]. rewrite rmatch_Cls. unfold step_if, start.
  cbn [rest idx caps]. fold q. destruct (q c); reflexivity.
Qed.

Lemma exec_from_class_bounds (s : str) :
  forall i m, exec_from fl (Cls invert p) i s = Some m ->
              i <= m_index m /\ m_end m = S (m_index m).
Proof.
  induction s as [|c s IH]; intros i m H.
  - rewrite exec_from_class_nil in H. discriminate.
  - rewrite exec_from_class_cons in H. destruct (q c).
    + injection H as <-. simpl. lia.
    + apply IH in H. lia.
Qed.

(** Replacing every match of a class by the empty string keeps exactly
    the characters the class rejects. *)
Lemma replace_from_class (s : str) :
  forall fuel i, length s < fuel ->
    replace_from fuel fl (Cls invert p) [] i s
    = filter (fun c => negb (q c)) s.
Proof.
  induction s as [|c s IH]; intros fuel i Hf.
  - destruct fuel; reflexivity.
  - destruct fuel as [|fuel]; [simpl in Hf; lia|].
    cbn [replace_from filter]. rewrite exec_from_class_cons.
    destruct (q c) eqn:Eq; cbn [negb].
    + cbn [m_index m_end]. rewrite Nat.sub_diag.
      replace (S i =? i)%nat with false
        by (symmetry; apply Nat.eqb_neq; lia).
      replace (S i - i) with 1 by lia.
      cbn [firstn skipn app]. apply IH. simpl in Hf. lia.
    + assert (Hs : length s < S fuel) by (simpl in Hf; lia).
      specialize (IH (S fuel) (S i) Hs). cbn [replace_from] in IH.
      destruct (exec_from fl (Cls invert p) (S i) s) as [m|] eqn:E.
      * destruct (exec_from_class_bounds _ _ E) as [Hi He].
        rewrite He in *.
        replace (S (m_index m) =? m_index m)%nat with false in *
          by (symmetry; apply Nat.eqb_neq; lia).
        replace (m_index m - i) with (S (m_index m - S i)) by lia.
        replace (S (m_index m) - i) with (S (S (m_index m) - S i)) by lia.
        cbn [firstn skipn app]. rewrite <- IH. reflexivity.
      * rewrite <- IH. reflexivity.
Qed.

End ReplaceClass.

(** Stripping the size text leaves its digits and points. *)
Lemma strip_non_numeric (s : str) :
  replace_all no_flags non_numeric_re "" s = filter class_09dot s.
Proof.
  unfold replace_all, non_numeric_re.
  change (String.list_ascii_of_string "") with (@nil ascii).
  rewrite replace_from_class by lia.
  apply filter_ext. intros c. unfold class_pred, class_found.
  cbn [ignoreCase no_flags xorb]. apply negb_involutive.
Qed.

(** ** Matching moves forward *)

Lemma consumes_refl (st : mstate) : consumes st st.
Proof. exists []. split; reflexivity. Qed.

Lemma consumes_trans (a b c : mstate) :
  consumes a b -> consumes b c -> consumes a c.
Proof.
  intros [w1 [H1 I1]] [w2 [H2 I2]]. exists (w1 ++ w2).
  rewrite H1, H2, I2, I1, length_app, <- app_assoc. split; [reflexivity|lia].
Qed.

Lemma consumes_step_if (q : ascii -> bool) (st y : mstate) :
  In y (step_if q st) -> consumes st y.
Proof.
  intros H. apply In_step_if in H. destruct H as [c [Hr [_ [Hi _]]]].
  exists [c]. rewrite Hr, Hi. split; reflexivity.
Qed.

Lemma repeat_matcher_consumes (m : mstate -> list mstate) (gs : list nat)
  (g : bool) :
  (forall st y, In y (m st) -> consumes st y) ->
  forall fuel mn mx x y,
    In y (repeat_matcher m gs g fuel mn mx x) -> consumes x y.
Proof.
  intros Hm. induction fuel as [|fuel IH]; intros mn mx x y H.
  - destruct mx as [[|k]|]; cbn [repeat_matcher] in H;
      try destruct H as [ <- | [] ]; try destruct H.
    apply consumes_refl.
  - assert (Hagain :
      In y (flat_map
              (fun z =>
                 if (mn =? 0)%nat && (idx z =? idx x)%nat then []
                 else repeat_matcher m gs g fuel (Nat.pred mn)
                        (option_map Nat.pred mx) z)
              (m (clear_captures gs x))) -> consumes x y).
    { intros Hin. apply in_flat_map in Hin. destruct Hin as [z [Hz Hy]].
      destruct ((mn =? 0)%nat && (idx z =? idx x)%nat); [destruct Hy|].
      apply Hm in Hz. apply IH in Hy.
      apply consumes_trans with (b := z); [|exact Hy].
      destruct Hz as [w Hw]. exists w. exact Hw. }
    destruct mx as [[|k]|]; cbn [repeat_matcher] in H.
    + destruct H as [ <- | [] ]. apply consumes_refl.
    + destruct (mn =? 0)%nat; [destruct g|]; auto.
      * apply in_app_iff in H. destruct H as [H | [ <- | [] ]]; auto.
        apply consumes_refl.
      * destruct H as [ <- | H]; auto. apply consumes_refl.
    + destruct (mn =? 0)%nat; [destruct g|]; auto.
      * apply in_app_iff in H. destruct H as [H | [ <- | [] ]]; auto.
        apply consumes_refl.
      * destruct H as [ <- | H]; auto. apply consumes_refl.
Qed.

(** Every success of a pattern is reached by consuming a stretch of the
    input: the index grows by the length of that stretch. *)
Lemma rmatch_consumes (fl : flags) (r : regex) :
  forall st y, In y (rmatch fl r st) -> consumes st y.
Proof.
  induction r as [ | c | invert p | | a IHa b IHb | a IHa b IHb
                 | g mn mx a IHa | n a IHa | | ]; intros st y H.
  - destruct H as [ <- | [] ]. apply consumes_refl.
  - rewrite rmatch_Chr in H. eapply consumes_step_if; exact H.
  - rewrite rmatch_Cls in H. eapply consumes_step_if; exact H.
  - cbn [rmatch] in H. destruct (dotAll fl);
      eapply (consumes_step_if (class_pred fl false _)); exact H.
  - rewrite rmatch_Cat in H. apply in_flat_map in H.
    destruct H as [x [Hx Hy]]. eapply consumes_trans; eauto.
  - rewrite rmatch_Alt in H. apply in_app_iff in H. destruct H; auto.
  - cbn [rmatch] in H. eapply repeat_matcher_consumes; eauto.
  - rewrite rmatch_Grp in H. apply in_map_iff in H.
    destruct H as [x [ <- Hx]]. apply IHa in Hx.
    destruct Hx as [w Hw]. exists w. exact Hw.
  - cbn [rmatch] in H. destruct (idx st =? 0)%nat; [|destruct H].
    destruct H as [ <- | [] ]. apply consumes_refl.
  - cbn [rmatch] in H. destruct (rest st); [|destruct H].
    destruct H as [ <- | [] ]. apply consumes_refl.
Qed.

(** A match lies within the part of the input that was searched. *)
Lemma exec_from_bounds (fl : flags) (r : regex) (s : str) (i : nat)
  (m : match_result) :
  exec_from fl r i s = Some m ->
  i <= m_index m /\ m_index m <= m_end m /\ m_end m <= i + length s.
Proof.
  intros E.
  destruct (exec_from_Some _ _ _ _ E)
    as [pre [suf [y [ys [Hs [Hy [-> _]]]]]]].
  assert (Hin : In y (rmatch fl r (start (length pre + i) suf)))
    by (rewrite Hy; left; reflexivity).
  apply rmatch_consumes in Hin. destruct Hin as [w [Hw Hi]].
  cbn [rest idx start] in Hw, Hi. cbn [m_index m_end].
  rewrite Hs, Hw, Hi, !length_app. lia.
Qed.

(** The fuel of [replace_all] is enough: more fuel changes nothing. *)
Lemma replace_from_fuel (fl : flags) (r : regex) (repl : str) :
  forall fuel1 fuel2 s i,
    length s < fuel1 -> length s < fuel2 ->
    replace_from fuel1 fl r repl i s = replace_from fuel2 fl r repl i s.
Proof.
  induction fuel1 as [|f1 IH]; intros fuel2 s i H1 H2; [lia|].
  destruct fuel2 as [|f2]; [lia|]. cbn [replace_from].
  destruct (exec_from fl r i s) as [m|] eqn:E; [|reflexivity].
  destruct (exec_from_bounds _ _ _ _ E) as [Hi [Hie He]].
  destruct (Nat.eqb_spec (m_end m) (m_index m)) as [Heq|Hne].
  - do 2 f_equal.
    destruct (skipn (m_index m - i) s) as [|c s'] eqn:Es; [reflexivity|].
    f_equal.
    assert (Hl : length (skipn (m_index m - i) s) = S (length s'))
      by (rewrite Es; reflexivity).
    rewrite length_skipn in Hl. apply IH; lia.
  - do 2 f_equal. apply IH; rewrite length_skipn; lia.
Qed.

End RegexFacts.

(* ================================================================== *)
(** * Facts about the provider *)
(* ================================================================== *)

Module ProviderFacts.
Import Js JsFacts RegexFacts.

Lemma getHashFromMagnet_to_string (v : option str) :
  getHashFromMagnet v = getHashFromMagnet (Some (to_string v)).
Proof. reflexivity. Qed.

(** The value handed on by the first step of the hash search is a
    40-digit hash or the empty string. *)
Lemma magnet_hash_cases (v : option str) :
  (exists h, getHashFromMagnet v = Some h /\
             Spec.first_btih (to_string v) h /\
             or_else (getHashFromMagnet v) [] = h /\ truthy h = true)
  \/ (getHashFromMagnet v = None /\ Spec.no_btih (to_string v) /\
      or_else (getHashFromMagnet v) [] = []).
Proof.
  rewrite getHashFromMagnet_to_string.
  destruct (getHashFromMagnet (Some (to_string v))) as [h|] eqn:E.
  - left. exists h. apply getHashFromMagnet_sound in E.
    assert (Ht : truthy h = true).
    { destruct E as [n [[pre [post [_ [_ [Hl _]]]]] _]].
      destruct h; [discriminate Hl | reflexivity]. }
    unfold or_else. rewrite Ht. auto.
  - right. apply getHashFromMagnet_null in E. auto.
Qed.

Lemma find_first_such {A : Type} (f : A -> bool) (P : A -> Prop)
  (l : list A) (x : A) :
  (forall a, f a = true <-> P a) ->
  Spec.first_such P l x -> find f l = Some x.
Proof.
  intros Hf [l1 [l2 [-> [Hx Hl1]]]].
  induction l1 as [|a l1 IH]; simpl.
  - apply Hf in Hx. rewrite Hx. reflexivity.
  - inversion Hl1 as [|? ? Ha Hl]; subst.
    destruct (f a) eqn:E; [apply Hf in E; contradiction | apply IH; exact Hl].
Qed.

Lemma find_none_such {A : Type} (f : A -> bool) (P : A -> Prop)
  (l : list A) :
  (forall a, f a = true <-> P a) ->
  Forall (fun a => ~ P a) l -> find f l = None.
Proof.
  intros Hf Hl. induction Hl as [|a l Ha Hl IH]; simpl; [reflexivity|].
  destruct (f a) eqn:E; [apply Hf in E; contradiction | exact IH].
Qed.

(** The three cases of the hash search. *)
Lemma find_infoHash_magnet (v : option str) (parts : list str) (h : str) :
  Spec.first_btih (to_string v) h -> find_infoHash v parts = h.
Proof.
  intros Hf. unfold find_infoHash.
  rewrite getHashFromMagnet_to_string, (getHashFromMagnet_first Hf).
  destruct Hf as [n [[pre [post [_ [_ [Hl _]]]]] _]].
  destruct h; [discriminate Hl | reflexivity].
Qed.

Lemma find_infoHash_part (v : option str) (parts : list str) (part : str) :
  Spec.no_btih (to_string v) ->
  Spec.first_such (fun p => Spec.hash_like (trim p)) parts part ->
  find_infoHash v parts = trim part.
Proof.
  intros Hn Hp. unfold find_infoHash.
  rewrite getHashFromMagnet_to_string, (getHashFromMagnet_none Hn).
  cbn [or_else truthy negb].
  rewrite (find_first_such is_hash_part is_hash_part_iff Hp). reflexivity.
Qed.

Lemma find_infoHash_default (v : option str) (parts : list str) :
  Spec.no_btih (to_string v) ->
  Forall (fun p => ~ Spec.hash_like (trim p)) parts ->
  find_infoHash v parts = [].
Proof.
  intros Hn Hp. unfold find_infoHash.
  rewrite getHashFromMagnet_to_string, (getHashFromMagnet_none Hn).
  cbn [or_else truthy negb].
  rewrite (@find_none_such _ is_hash_part _ parts is_hash_part_iff Hp).
  reflexivity.
Qed.

(** The hash search yields the empty string or a 40-digit hash. *)
Lemma find_infoHash_shape (v : option str) (parts : list str) :
  find_infoHash v parts = [] \/ Spec.hash_like (find_infoHash v parts).
Proof.
  unfold find_infoHash. cbv zeta.
  change (String.list_ascii_of_string "") with (@nil ascii).
  destruct (magnet_hash_cases v) as [[h [_ [Hf [-> Ht]]]] | [_ [_ ->]]].
  - rewrite Ht. right. destruct Hf as [n [[pre [post [_ [_ Hh]]]] _]].
    exact Hh.
  - cbn [truthy negb].
    destruct (find is_hash_part parts) as [part|] eqn:E; [|left; reflexivity].
    right. apply find_some in E. apply is_hash_part_iff. tauto.
Qed.

Lemma lower_hex (c : ascii) :
  Spec.is_hex c = true -> Spec.is_lower_hex (lower_char c) = true.
Proof.
  destruct c as [[] [] [] [] [] [] [] []]; vm_compute; congruence.
Qed.

Lemma toLowerCase_hash (h : str) :
  Spec.hash_like h ->
  length (toLowerCase h) = 40 /\
  Forall (fun c => Spec.is_lower_hex c = true) (toLowerCase h).
Proof.
  intros [Hl Hh]. unfold toLowerCase. rewrite length_map.
  split; [exact Hl|]. apply Forall_map.
  revert Hh. apply Forall_impl. exact lower_hex.
Qed.

Section Items.

Variable habari_parse : str -> completion Metadata.
Variable Date_toISOString : str -> option str.

Local Abbreviation parse_item := (parse_item habari_parse Date_toISOString).
Local Abbreviation parse_items := (parse_items habari_parse Date_toISOString).

(** The fields of a record in terms of the item it was read from. *)
Lemma parse_item_fields (itemXml : str) (t : AnimeTorrent) :
  parse_item itemXml = Normal t ->
  exists title0 description,
    getTagContent itemXml "title" = Some title0 /\
    getTagContent itemXml "description" = Some description /\
    name t = Some (trim (replace_all no_flags markup_re "" title0)) /\
    magnetLink t =
      match exec no_flags enclosure_re itemXml with
      | Some magnetMatch => group magnetMatch 1
      | None => Some []
      end /\
    formattedSize t = find_formattedSize (description_parts description) /\
    size t = parseSizeToBytes (formattedSize t) /\
    infoHash t =
      toLowerCase (find_infoHash (magnetLink t)
                     (description_parts description)).
Proof.
  unfold parse_item.
  destruct (getTagContent itemXml "title") as [title0|];
    [|discriminate].
  destruct (getTagContent itemXml "description") as [description|];
    [|discriminate].
  cbn [deref bind].
  destruct (habari_parse _) as [metadata|]; [|discriminate].
  cbn [bind].
  destruct (new_Date_toISOString _ _) as [iso|]; [|discriminate].
  cbn [bind]. intros H. injection H as <-.
  exists title0, description. cbn. repeat split; reflexivity.
Qed.

Lemma magnetLink_defined (itemXml : str) (t : AnimeTorrent) :
  parse_item itemXml = Normal t -> exists m, magnetLink t = Some m.
Proof.
  intros H. destruct (parse_item_fields _ H)
    as [title0 [description [_ [_ [_ [Hm _]]]]]].
  rewrite Hm.
  destruct (exec no_flags enclosure_re itemXml) as [m|] eqn:E.
  - apply (exec_enclosure_group _ E).
  - eauto.
Qed.

(** An item is dropped exactly when the title parser throws or the date
    is invalid. *)
Lemma parse_item_throws (itemXml : str) (e : error) :
  parse_item itemXml = Throw e ->
  (exists title, habari_parse title = Throw e) \/
  (e = RangeError /\ exists pubDate,
      getTagContent itemXml "pubDate" = Some pubDate /\
      Date_toISOString pubDate = None).
Proof.
  unfold parse_item.
  destruct (getTagContent_defined itemXml "title") as [title0 ->].
  destruct (getTagContent_defined itemXml "description") as [d ->].
  destruct (getTagContent_defined itemXml "pubDate") as [pubDate ->].
  cbn [deref bind].
  destruct (habari_parse _) as [metadata|e'] eqn:Eh.
  - cbn [bind new_Date_toISOString].
    destruct (Date_toISOString pubDate) as [iso|] eqn:Ed; [discriminate|].
    cbn [bind]. intros H. injection H as <-. right. split; [reflexivity|].
    exists pubDate. auto.
  - cbn [bind]. intros H. injection H as <-. left. eauto.
Qed.

(** The records of a list of items, item by item. *)
Lemma parse_items_cons (item : str) (items : list str) :
  parse_items (item :: items)
  = match parse_item item with
    | Normal t => [t]
    | Throw _ => []
    end ++ parse_items items.
Proof.
  unfold parse_items. cbn [map].
  unfold parse_item_or_null at 1.
  destruct (parse_item item); reflexivity.
Qed.

Lemma parse_items_app (l1 l2 : list str) :
  parse_items (l1 ++ l2) = parse_items l1 ++ parse_items l2.
Proof.
  induction l1 as [|a l1 IH]; [reflexivity|].
  cbn [app]. rewrite !parse_items_cons, IH, app_assoc. reflexivity.
Qed.

Lemma parse_items_length (items : list str) :
  length (parse_items items) <= length items.
Proof.
  induction items as [|a l IH]; [apply Nat.le_refl|].
  rewrite parse_items_cons, length_app. cbn [length].
  destruct (parse_item a); simpl; lia.
Qed.

Lemma In_parse_items (items : list str) (t : AnimeTorrent) :
  In t (parse_items items) <->
  exists item, In item items /\ parse_item item = Normal t.
Proof.
  induction items as [|a l IH].
  - split; [intros [] | intros [item [[] _]]].
  - rewrite parse_items_cons, in_app_iff, IH. split.
    + intros [H | [item [Hi Hp]]].
      * destruct (parse_item a) as [t'|] eqn:E; [|destruct H].
        destruct H as [ <- | [] ]. exists a. split; [left|]; auto.
      * exists item. split; [right|]; auto.
    + intros [item [[ <- | Hi] Hp]].
      * left. rewrite Hp. left. reflexivity.
      * right. eauto.
Qed.

End Items.

Lemma first_such_of_find {A : Type} (f : A -> bool) (P : A -> Prop)
  (l : list A) (x : A) :
  (forall a, f a = true <-> P a) ->
  find f l = Some x -> Spec.first_such P l x.
Proof.
  intros Hf. induction l as [|a l IH]; simpl; [discriminate|].
  destruct (f a) eqn:E.
  - intros H. injection H as <-. exists [], l.
    split; [reflexivity|]. split; [apply Hf; exact E | constructor].
  - intros H. destruct (IH H) as [l1 [l2 [-> [Hx Hl]]]].
    exists (a :: l1), l2. split; [reflexivity|]. split; [exact Hx|].
    constructor; [|exact Hl]. intros Ha. apply Hf in Ha. congruence.
Qed.

Lemma none_such_of_find {A : Type} (f : A -> bool) (P : A -> Prop)
  (l : list A) :
  (forall a, f a = true <-> P a) ->
  find f l = None -> Forall (fun a => ~ P a) l.
Proof.
  intros Hf. induction l as [|a l IH]; simpl; [constructor|].
  destruct (f a) eqn:E; [discriminate|]. intros H.
  constructor; [|exact (IH H)]. intros Ha. apply Hf in Ha. congruence.
Qed.

Lemma Forall_of_forallb (p : ascii -> bool) (s : str) :
  forallb p s = true -> Forall (fun c => p c = true) s.
Proof.
  intros H. apply Forall_forall. apply forallb_forall. exact H.
Qed.

Lemma has_size_pattern_trim (part : str) :
  Spec.has_size_pattern (trim part) -> Spec.has_size_pattern part.
Proof.
  intros [pre [q [ws [u [post [E H]]]]]].
  destruct (trim_sub part) as [a [b Hp]].
  exists (a ++ pre), q, ws, u, (post ++ b). split; [|exact H].
  rewrite Hp at 1. rewrite E, <- !app_assoc. reflexivity.
Qed.

Lemma find_formattedSize_default (parts : list str) :
  Forall (fun part => ~ Spec.has_size_pattern part) parts ->
  find_formattedSize parts = "0 MB".
Proof.
  intros H. unfold find_formattedSize.
  rewrite (@find_none_such _ is_size_part
             (fun p => Spec.has_size_pattern (trim p)) parts
             is_size_part_iff); [reflexivity|].
  revert H. apply Forall_impl. intros part Hn Ht.
  apply Hn, has_size_pattern_trim, Ht.
Qed.

Lemma feed_items_no_marker (xml : str) :
  ~ Spec.occurs "<item>" xml -> feed_items xml = [].
Proof.
  intros Hn. unfold feed_items.
  rewrite split_no_occurrence; [reflexivity|].
  destruct (includes xml "<item>") eqn:E; [|reflexivity].
  apply includes_iff in E. contradiction.
Qed.

(** ** Size conversion *)

(** The multiplier the conversion applies. *)
Lemma parseSizeToBytes_unfold (sizeStr : str) :
  parseSizeToBytes sizeStr
  = match sizeStr with
    | [] => Num.of_Z 0
    | _ =>
        let value := Num.parseFloat (filter class_09dot sizeStr) in
        if Num.isNaN value then Num.of_Z 0
        else
          let lower := toLowerCase sizeStr in
          Num.round
            (if includes lower "gb"
             then Num.mul (Num.mul (Num.mul value n1024) n1024) n1024
             else if includes lower "mb"
             then Num.mul (Num.mul value n1024) n1024
             else if includes lower "kb"
             then Num.mul value n1024
             else value)
    end.
Proof.
  unfold parseSizeToBytes. rewrite strip_non_numeric.
  destruct sizeStr; reflexivity.
Qed.

(** Both variants of the size conversion compute the same function. *)
Lemma legacy_parseSizeToBytes_same (sizeStr : str) :
  Legacy.parseSizeToBytes sizeStr = parseSizeToBytes sizeStr.
Proof.
  unfold Legacy.parseSizeToBytes, parseSizeToBytes. cbv zeta.
  destruct (truthy sizeStr); [|reflexivity]. cbn [negb].
  destruct (Num.isNaN _); [|reflexivity].
  destruct (includes _ "gb"); [reflexivity|].
  destruct (includes _ "mb"); [reflexivity|].
  destruct (includes _ "kb"); reflexivity.
Qed.

(** The fixed-position variant reads the hash from the fourth part of the
    description whatever the magnet link holds, and has "0" as size
    placeholder. *)
Lemma legacy_fixed_positions :
  Legacy.infoHash_of
    (Some ("magnet:?xt=urn:btih:" ++ Sample.hash_upper))
    (Legacy.description_parts "a|b|c|d") = "d" /\
  Legacy.formattedSize_of (Legacy.description_parts "blurb") = "0" /\
  Legacy.formattedSize_of (Legacy.description_parts "a | 123 | c")
  = String.list_ascii_of_string "123".
Proof. repeat split; vm_compute; reflexivity. Qed.

(** ** The fixed-position variant *)

(** The fields of a record of the fixed-position variant. *)
Lemma legacy_parse_item_fields (Date_toISOString : str -> option str)
  (itemXml : str) (t : AnimeTorrent) :
  Legacy.parse_item Date_toISOString itemXml = Normal t ->
  exists description n m,
    getTagContent itemXml "description" = Some description /\
    name t = Some n /\ magnetLink t = Some m /\
    formattedSize t
    = Legacy.formattedSize_of (Legacy.description_parts description) /\
    infoHash t
    = toLowerCase (Legacy.infoHash_of (magnetLink t)
                     (Legacy.description_parts description)).
Proof.
  unfold Legacy.parse_item.
  destruct (getTagContent_defined itemXml "title") as [title Ht].
  rewrite Ht.
  destruct (getTagContent itemXml "description") as [description|];
    [|discriminate].
  cbn [deref bind].
  destruct (new_Date_toISOString _ _) as [iso|]; [|discriminate].
  cbn [bind]. intros H. injection H as <-. cbn.
  assert (Hm : exists m,
             match exec no_flags enclosure_re itemXml with
             | Some magnetMatch => group magnetMatch 1
             | None => Some []
             end = Some m).
  { destruct (exec no_flags enclosure_re itemXml) as [mm|] eqn:E.
    - apply (exec_enclosure_group _ E).
    - eauto. }
  destruct Hm as [m Hm]. exists description, title, m.
  repeat split; try reflexivity. exact Hm.
Qed.

(** The parse stage of the fixed-position variant drops and keeps items
    as the other one does. *)
Lemma legacy_parse_stage_bounded (Date_toISOString : str -> option str)
  (xml : str) :
  length (Legacy.parseTorrentsFromXml Date_toISOString xml)
  <= length (feed_items xml).
Proof.
  unfold Legacy.parseTorrentsFromXml. cbv zeta.
  induction (feed_items xml) as [|a l IH]; [apply Nat.le_refl|].
  cbn [map filter_non_null length].
  destruct (Legacy.parse_item Date_toISOString a); cbn [length]; lia.
Qed.

End ProviderFacts.

(* ================================================================== *)
(** * Further facts about strings *)
(* ================================================================== *)

Module StringShape.
Import Js JsFacts.

Lemma drop_while_head (p : ascii -> bool) (s : str) (c : ascii) (r : str) :
  drop_while p s = c :: r -> p c = false.
Proof.
  induction s as [|a s IH]; [discriminate|].
  cbn [drop_while]. destruct (p a) eqn:E; [exact IH|].
  intros H. injection H as <- _. exact E.
Qed.

(** [trim] leaves no white space at either end. *)
Lemma trim_trimmed (s : str) : Shape.trimmed (trim s).
Proof.
  unfold trim, trimEnd, trimStart. split.
  - intros c r H.
    destruct (drop_while_sub is_space (rev (drop_while is_space s)))
      as [pre Hp].
    apply (f_equal (@rev ascii)) in Hp.
    rewrite rev_involutive, rev_app_distr, H in Hp.
    apply (drop_while_head is_space s (r := r ++ rev pre)).
    rewrite Hp. reflexivity.
  - intros r c H.
    apply (f_equal (@rev ascii)) in H.
    rewrite rev_involutive, rev_app_distr in H. cbn [rev app] in H.
    apply (drop_while_head _ _ H).
Qed.

(** A text without outer white space is left as it is by [trim]. *)
Lemma trim_fixed (s : str) : Shape.trimmed s -> trim s = s.
Proof.
  intros [H1 H2]. unfold trim, trimEnd, trimStart.
  assert (E : drop_while is_space s = s).
  { destruct s as [|c r]; [reflexivity|].
    cbn [drop_while]. rewrite (H1 c r eq_refl). reflexivity. }
  rewrite E.
  destruct (rev s) as [|c r] eqn:Er.
  - apply (f_equal (@rev ascii)) in Er. rewrite rev_involutive in Er.
    rewrite Er. reflexivity.
  - cbn [drop_while].
    apply (f_equal (@rev ascii)) in Er. rewrite rev_involutive in Er.
    cbn [rev] in Er. rewrite (H2 _ _ Er). cbn [rev]. symmetry. exact Er.
Qed.

(** A piece being skipped over is dropped from the input. *)
Lemma split_go_skip (sep : str) :
  forall s k cur, split_go sep k cur s = split_go sep 0 cur (skipn k s).
Proof.
  induction s as [|c s IH]; intros k cur.
  - destruct k; reflexivity.
  - destruct k as [|k]; [reflexivity|].
    cbn [split_go skipn]. apply IH.
Qed.

(** One step of [split_go] at a separator. *)
Lemma split_go_at_separator (sep s2 cur : str) :
  sep <> [] ->
  split_go sep 0 cur (sep ++ s2) = rev cur :: split_go sep 0 [] s2.
Proof.
  intros Hs. destruct sep as [|c sep']; [contradiction|].
  change ((c :: sep') ++ s2) with (c :: (sep' ++ s2)).
  cbn [split_go].
  change (c :: sep' ++ s2) with ((c :: sep') ++ s2).
  rewrite starts_with_app. rewrite split_go_skip. cbn [length Nat.pred].
  rewrite skipn_app, skipn_all, Nat.sub_diag. reflexivity.
Qed.

(** The pieces of a split, glued with the separator, give the text
    back. *)
Lemma split_go_glue (sep : str) :
  sep <> [] ->
  forall n s cur, length s <= n ->
    exists h t, split_go sep 0 cur s = h :: t /\
                rev cur ++ s = h ++ Shape.glue sep t.
Proof.
  intros Hs. induction n as [|n IH]; intros s cur Hn.
  - destruct s; [|simpl in Hn; lia].
    exists (rev cur), []. split; reflexivity.
  - destruct s as [|c s'].
    { exists (rev cur), []. split; reflexivity. }
    destruct (starts_with sep (c :: s')) eqn:E.
    + apply starts_with_iff in E. destruct E as [s2 E].
      rewrite E, (split_go_at_separator s2 cur Hs).
      destruct (IH s2 []) as [h [t [H1 H2]]].
      { apply (f_equal (@length ascii)) in E. rewrite length_app in E.
        destruct sep; [contradiction|]. simpl in E, Hn. lia. }
      exists (rev cur), (h :: t). rewrite H1. split; [reflexivity|].
      unfold Shape.glue. cbn [flat_map]. cbn [rev app] in H2.
      rewrite H2. rewrite <- app_assoc. reflexivity.
    + cbn [split_go]. rewrite E.
      destruct (IH s' (c :: cur)) as [h [t [H1 H2]]].
      { simpl in Hn. lia. }
      exists h, t. split; [exact H1|].
      rewrite <- H2. cbn [rev]. rewrite <- app_assoc. reflexivity.
Qed.

Lemma separator_free_occurs (sep pre s : str) :
  sep <> [] -> Shape.separator_free sep pre s -> ~ Spec.occurs sep pre.
Proof.
  intros Hs H [a [b E]].
  assert (F : starts_with sep ((sep ++ b) ++ s) = false).
  { apply (H a); [exact E|]. destruct sep; [contradiction|discriminate]. }
  rewrite <- app_assoc, starts_with_app in F. discriminate.
Qed.

Lemma split_go_pieces (sep : str) :
  sep <> [] ->
  forall n s cur, length s <= n ->
    Shape.separator_free sep (rev cur) s ->
    Forall (fun piece => ~ Spec.occurs sep piece) (split_go sep 0 cur s).
Proof.
  intros Hs. induction n as [|n IH]; intros s cur Hn Hf.
  - destruct s; [|simpl in Hn; lia].
    constructor; [|constructor].
    apply (separator_free_occurs Hs Hf).
  - destruct s as [|c s'].
    { constructor; [|constructor]. apply (separator_free_occurs Hs Hf). }
    destruct (starts_with sep (c :: s')) eqn:E.
    + pose proof E as E'.
      apply starts_with_iff in E'. destruct E' as [s2 E'].
      rewrite E', (split_go_at_separator s2 cur Hs).
      constructor.
      * apply (separator_free_occurs Hs Hf).
      * apply IH.
        { apply (f_equal (@length ascii)) in E'. rewrite length_app in E'.
          destruct sep; [contradiction|]. simpl in E', Hn. lia. }
        intros a b Hab Hb. destruct a; destruct b; try discriminate.
        contradiction.
    + cbn [split_go]. rewrite E. apply IH; [simpl in Hn; lia|].
      intros a b Hab Hb. cbn [rev] in Hab.
      destruct (exists_last Hb) as [b' [x Hx]]. subst b.
      rewrite app_assoc in Hab. apply app_inj_tail in Hab.
      destruct Hab as [Hab <-]. rewrite <- app_assoc. cbn [app].
      destruct b' as [|y b'].
      * exact E.
      * apply (Hf a); [exact Hab | discriminate].
Qed.

Lemma split_glue (s sep : str) :
  sep <> [] ->
  exists h t, split s sep = h :: t /\ s = h ++ Shape.glue sep t.
Proof.
  intros Hs. apply (split_go_glue Hs (n := length s) s [] (Nat.le_refl _)).
Qed.

Lemma split_pieces (s sep : str) :
  sep <> [] -> Forall (fun piece => ~ Spec.occurs sep piece) (split s sep).
Proof.
  intros Hs. apply (split_go_pieces Hs (n := length s)); [apply Nat.le_refl|].
  intros a b Hab Hb. destruct a; destruct b; try discriminate. contradiction.
Qed.

(** A stretch of a text without markup has no markup. *)
Lemma has_markup_stretch (pre s post : str) :
  Shape.has_markup s -> Shape.has_markup (pre ++ s ++ post).
Proof.
  intros [a [b [c ->]]]. exists (pre ++ a), b, (c ++ post).
  rewrite <- !app_assoc. cbn [app]. rewrite <- !app_assoc. reflexivity.
Qed.

End StringShape.

(* ================================================================== *)
(** * The markup pattern *)
(* ================================================================== *)

Module MarkupFacts.
Import Js JsFacts RegexFacts StringShape.

Lemma class_not_gt (c : ascii) :
  class_pred no_flags true (fun a => ascii_eqb a ">") c = Shape.not_gt c.
Proof. reflexivity. Qed.

Lemma skipn_past {A : Type} (a l : list A) (n : nat) :
  skipn (length a + n) (a ++ l) = skipn n l.
Proof. induction a as [|x a IH]; [reflexivity | exact IH]. Qed.

(** A match of the markup pattern is a [<], a stretch without [>], and
    a [>]. *)
Lemma rmatch_markup_sound (st y : mstate) :
  In y (rmatch no_flags markup_re st) ->
  exists b c, rest st = "<"%char :: b ++ ">"%char :: c /\
              rest y = c /\ idx y = length b + 2 + idx st.
Proof.
  unfold markup_re. rewrite rmatch_Cat. intros H.
  apply in_flat_map in H. destruct H as [y1 [H1 H]].
  rewrite rmatch_Chr in H1. apply In_step_if in H1.
  destruct H1 as [c1 [R1 [Q1 [I1 _]]]].
  rewrite rmatch_Cat in H. apply in_flat_map in H.
  destruct H as [y2 [H2 H3]].
  apply rep_cls_sound in H2. destruct H2 as [w [R2 [_ [I2 _]]]].
  rewrite rmatch_Chr in H3. apply In_step_if in H3.
  destruct H3 as [c3 [R3 [Q3 [I3 _]]]].
  apply ascii_eqb_eq in Q1, Q3. subst c1 c3.
  exists w, (rest y). rewrite R1, R2, R3. split; [reflexivity|].
  split; [reflexivity|]. lia.
Qed.

(** The stretch of a text up to its first [>]. *)
Lemma first_gt (b c : str) :
  exists b' c', b ++ ">"%char :: c = b' ++ ">"%char :: c' /\
                Forall (fun x => Shape.not_gt x = true) b'.
Proof.
  set (s := b ++ ">"%char :: c).
  exists (take_while Shape.not_gt s).
  destruct (drop_while Shape.not_gt s) as [|x r] eqn:E.
  - exfalso.
    pose proof (take_drop_while Shape.not_gt s) as H. rewrite E, app_nil_r in H.
    pose proof (take_while_all Shape.not_gt s) as F. rewrite H in F.
    unfold s in F. apply Forall_app in F. destruct F as [_ F].
    inversion F as [|? ? F1 _]. discriminate F1.
  - exists r. split; [|apply take_while_all].
    pose proof (drop_while_head _ _ E) as Hx.
    unfold Shape.not_gt in Hx. apply negb_false_iff, ascii_eqb_eq in Hx. subst x.
    rewrite <- E. symmetry. apply take_drop_while.
Qed.

(** A [<] with a [>] after it is matched. *)
Lemma rmatch_markup_complete (st : mstate) (b c : str) :
  rest st = "<"%char :: b ++ ">"%char :: c ->
  rmatch no_flags markup_re st <> [].
Proof.
  intros R. destruct (first_gt b c) as [b' [c' [E F]]]. rewrite E in R.
  unfold markup_re. rewrite rmatch_Cat, rmatch_Chr.
  unfold step_if at 1. rewrite R.
  change (class_pred no_flags false (fun a => ascii_eqb a "<") "<") with true.
  cbn [flat_map]. rewrite app_nil_r, rmatch_Cat.
  set (st1 := {| idx := S (idx st); rest := b' ++ ">"%char :: c';
                 caps := caps st |}).
  destruct (@rep_cls_complete no_flags true 0 true
              (fun a => ascii_eqb a ">") st1 b' (">"%char :: c'))
    as [y [Hy [Ry _]]]; [reflexivity | lia | exact F |].
  apply (flat_map_not_nil _ _ _ Hy).
  rewrite rmatch_Chr. unfold step_if. rewrite Ry.
  change (class_pred no_flags false (fun a => ascii_eqb a ">") ">") with true.
  discriminate.
Qed.

(** Markup that starts in a stretch without [<] starts after it. *)
Lemma has_markup_after (pre r : str) :
  Forall (fun x => x <> "<"%char) pre ->
  Shape.has_markup (pre ++ r) -> Shape.has_markup r.
Proof.
  induction pre as [|x pre IH]; intros F H; [exact H|].
  inversion F as [|? ? Fx F']; subst.
  apply IH; [exact F'|].
  destruct H as [a [b [c E]]]. destruct a as [|x' a].
  - injection E as E _. contradiction.
  - injection E as _ E. exists a, b, c. exact E.
Qed.

(** Replacing every match of the markup pattern by nothing leaves no
    markup. *)
Lemma replace_markup_clean :
  forall fuel s i, length s < fuel ->
    ~ Shape.has_markup (replace_from fuel no_flags markup_re [] i s).
Proof.
  induction fuel as [|fuel IH]; intros s i Hf; [lia|].
  cbn [replace_from].
  destruct (exec_from no_flags markup_re i s) as [m|] eqn:E.
  - destruct (exec_from_Some _ _ _ _ E)
      as [pre [suf [y [ys [Hs [Hy [Hm Hmin]]]]]]].
    destruct (@rmatch_markup_sound (start (length pre + i) suf) y)
      as [b [c [R [Ry Iy]]]]; [rewrite Hy; left; reflexivity|].
    cbn [start rest idx] in R, Iy. subst m. cbn [m_index m_end].
    rewrite Iy.
    replace (length b + 2 + (length pre + i) =? length pre + i)%nat
      with false by (symmetry; apply Nat.eqb_neq; lia).
    replace (length pre + i - i) with (length pre) by lia.
    replace (length b + 2 + (length pre + i) - i)
      with (length pre + (length b + 2)) by lia.
    rewrite Hs, firstn_app, firstn_all, Nat.sub_diag, firstn_0, app_nil_r.
    rewrite skipn_past, R.
    replace (length b + 2) with (S (length b + 1)) by lia.
    cbn [skipn].
    replace (b ++ ">"%char :: c) with ((b ++ [">"%char]) ++ c)
      by (rewrite <- app_assoc; reflexivity).
    replace (length b + 1) with (length (b ++ [">"%char]) + 0)
      by (rewrite length_app; simpl; lia).
    rewrite skipn_past. cbn [skipn app].
    intros H. apply has_markup_after in H.
    + revert H. apply IH.
      rewrite Hs, R, length_app in Hf. simpl in Hf.
      rewrite length_app in Hf. simpl in Hf. lia.
    + apply Forall_forall. intros x Hx ->.
      apply in_split in Hx. destruct Hx as [p1 [p2 Hp]].
      assert (N : rmatch no_flags markup_re
                    (start (length p1 + i)
                       ("<"%char :: p2 ++ suf)) = []).
      { apply Hmin.
        - rewrite Hs, Hp, <- app_assoc. reflexivity.
        - rewrite Hp, length_app. simpl. lia. }
      revert N. rewrite R.
      apply (@rmatch_markup_complete _ (p2 ++ "<"%char :: b) c).
      cbn [start rest]. rewrite <- app_assoc. reflexivity.
  - intros [a [b [c Hs]]].
    pose proof E as N. eapply exec_from_None in N; [|exact Hs].
    revert N. apply (@rmatch_markup_complete _ b c). reflexivity.
Qed.

Lemma strip_markup_clean (s : str) :
  ~ Shape.has_markup (replace_all no_flags markup_re "" s).
Proof. apply replace_markup_clean. lia. Qed.

(** The cleaned text of the source: stripped of markup, then trimmed. *)
Lemma cleaned_text (s : str) :
  ~ Shape.has_markup (trim (replace_all no_flags markup_re "" s)) /\
  Shape.trimmed (trim (replace_all no_flags markup_re "" s)).
Proof.
  split; [|apply trim_trimmed].
  intros H.
  destruct (trim_sub (replace_all no_flags markup_re "" s))
    as [pre [post E]].
  apply (strip_markup_clean s). rewrite E.
  apply has_markup_stretch. exact H.
Qed.

End MarkupFacts.

(* ================================================================== *)
(** * Signs of numbers *)
(* ================================================================== *)

Module NumFacts.
Import Js JsFacts.

Lemma iter_pos_invariant {A : Type} (f : A -> A) (P : A -> Prop) :
  (forall x, P x -> P (f x)) ->
  forall p x, P x -> P (iter_pos f p x).
Proof.
  intros Hf. induction p as [p IH|p IH|]; intros x Hx; cbn [iter_pos]; auto.
Qed.

Lemma shr_1_nonneg (mrs : shr_record) :
  (0 <= shr_m mrs)%Z -> (0 <= shr_m (shr_1 mrs))%Z.
Proof.
  destruct mrs as [m r s]. cbn [shr_m]. intros H.
  destruct m as [|p|p]; [| |lia]; [|destruct p]; cbn; lia.
Qed.

Lemma shr_nonneg (mrs : shr_record) (e n : Z) :
  (0 <= shr_m mrs)%Z -> (0 <= shr_m (fst (shr mrs e n)))%Z.
Proof.
  intros H. destruct n; cbn [shr fst]; try exact H.
  apply (iter_pos_invariant shr_1 (fun x => (0 <= shr_m x)%Z));
    [apply shr_1_nonneg | exact H].
Qed.

Lemma shr_fexp_nonneg (m e : Z) (l : location) :
  (0 <= m)%Z ->
  (0 <= shr_m (fst (shr_fexp Num.prec Num.emax m e l)))%Z.
Proof.
  intros H. unfold shr_fexp. apply shr_nonneg.
  destruct l as [|[]]; exact H.
Qed.

Lemma round_nearest_even_nonneg (m : Z) (l : location) :
  (0 <= m)%Z -> (0 <= round_nearest_even m l)%Z.
Proof.
  intros H. destruct l as [|[]]; cbn [round_nearest_even]; try lia.
  destruct (Z.even m); lia.
Qed.

(** Rounding a non-negative significand with the positive sign gives a
    zero, a positive number or +Infinity. *)
Lemma binary_round_aux_nonneg (mx ex : Z) (lx : location) :
  (0 <= mx)%Z ->
  Shape.non_negative (binary_round_aux Num.prec Num.emax false mx ex lx)
  = true.
Proof.
  intros H. unfold binary_round_aux.
  pose proof (@shr_fexp_nonneg mx ex lx H) as H1.
  destruct (shr_fexp Num.prec Num.emax mx ex lx) as [mrs' e'].
  cbn [fst] in H1.
  pose proof (@shr_fexp_nonneg
                (round_nearest_even (shr_m mrs') (loc_of_shr_record mrs'))
                e' loc_Exact
                (round_nearest_even_nonneg _ H1)) as H2.
  destruct (shr_fexp Num.prec Num.emax _ e' loc_Exact) as [mrs'' e''].
  cbn [fst] in H2.
  destruct (shr_m mrs'') as [|p|p]; [reflexivity| |lia].
  destruct (e'' <=? Num.emax - Num.prec)%Z; reflexivity.
Qed.

Lemma binary_round_nonneg (m : positive) (e : Z) :
  Shape.non_negative (binary_round Num.prec Num.emax false m e) = true.
Proof.
  unfold binary_round. destruct (shl_align _ _ _) as [mz ez].
  apply binary_round_aux_nonneg. lia.
Qed.

Lemma binary_normalize_nonneg (n e : Z) :
  (0 <= n)%Z ->
  Shape.non_negative (binary_normalize Num.prec Num.emax n e false) = true.
Proof.
  intros H. destruct n as [|p|p]; [reflexivity| |lia].
  apply binary_round_nonneg.
Qed.

Lemma of_ratio_nonneg (p q : positive) :
  Shape.non_negative (Num.of_ratio p q) = true.
Proof.
  unfold Num.of_ratio, SFdiv.
  destruct (SFdiv_core_binary Num.prec Num.emax (Zpos p) 0 (Zpos q) 0)
    as [[mz ez] lz] eqn:E.
  apply binary_round_aux_nonneg.
  unfold SFdiv_core_binary in E.
  set (s := (0 - 0 - _)%Z) in E.
  set (m' := match s with
             | Zpos _ => Z.shiftl (Zpos p) s
             | Z0 => Zpos p
             | Zneg _ => 0%Z
             end) in E.
  assert (Hm : (0 <= m')%Z).
  { unfold m'. destruct s; try lia. apply Z.shiftl_nonneg. lia. }
  pose proof (Z.div_pos m' (Zpos q) Hm eq_refl) as Hq.
  unfold Z.div in Hq.
  destruct (Z.div_eucl m' (Zpos q)) as [q0 r0].
  injection E as <- _ _. exact Hq.
Qed.

Lemma decimal_value_nonneg (v : Num.decimal) :
  Shape.non_negative (Num.decimal_value false v) = true.
Proof.
  destruct v as [|d e10]; [reflexivity|].
  unfold Num.decimal_value. destruct d as [|p|p]; try reflexivity.
  destruct (0 <=? e10)%Z eqn:E.
  - apply binary_normalize_nonneg. cbn [cond_Zopp].
    apply Z.mul_nonneg_nonneg; [lia|]. apply Z.pow_nonneg. lia.
  - apply of_ratio_nonneg.
Qed.

(** [parseFloat] of a text that does not start, after its white space,
    with a minus sign is NaN or not negative. *)
Lemma parseFloat_nonneg (s : str) :
  (forall u, trimStart s <> "-"%char :: u) ->
  Num.parseFloat s = Num.NaN \/
  Shape.non_negative (Num.parseFloat s) = true.
Proof.
  intros H. unfold Num.parseFloat.
  assert (E : (let '(neg, u) :=
                 match trimStart s with
                 | "-"%char :: u => (true, u)
                 | "+"%char :: u => (false, u)
                 | _ => (false, trimStart s)
                 end in neg) = false).
  { destruct (trimStart s) as [|c t]; [reflexivity|].
    destruct c as [[] [] [] [] [] [] [] []]; try reflexivity.
    exfalso. apply (H t). reflexivity. }
  destruct (match trimStart s with
            | "-"%char :: u => (true, u)
            | "+"%char :: u => (false, u)
            | _ => (false, trimStart s)
            end) as [neg u].
  subst neg.
  destruct (Num.unsigned_decimal_literal u) as [v|]; [right|left; reflexivity].
  apply decimal_value_nonneg.
Qed.

Lemma mul_n1024_nonneg (x : number) :
  Shape.non_negative x = true ->
  Shape.non_negative (Num.mul x n1024) = true.
Proof.
  assert (E : exists m e, n1024 = S754_finite false m e)
    by (vm_compute; eauto).
  destruct E as [m [e ->]]. unfold Num.mul, SFmul.
  destruct x as [[]|[]| |[] mx ex]; try discriminate; intros _;
    try reflexivity.
  apply binary_round_aux_nonneg. lia.
Qed.

Lemma round_nonneg (x : number) :
  Shape.non_negative x = true -> Shape.non_negative (Num.round x) = true.
Proof.
  destruct x as [[]|[]| |[] m e]; try discriminate; intros _;
    try reflexivity.
  unfold Num.round. destruct (0 <=? e)%Z eqn:E; [reflexivity|].
  apply Z.leb_gt in E.
  apply binary_normalize_nonneg. cbv zeta. cbn [cond_Zopp].
  assert (0 < 2 ^ (- e))%Z by (apply Z.pow_pos_nonneg; lia).
  apply Z.div_pos; lia.
Qed.

Lemma drop_while_Forall (P : ascii -> Prop) (p : ascii -> bool) (s : str) :
  Forall P s -> Forall P (drop_while p s).
Proof.
  intros H. destruct (drop_while_sub p s) as [pre E].
  rewrite E in H. apply Forall_app in H. apply H.
Qed.

(** The digits and points of a text never parse to a negative number. *)
Lemma parseFloat_filter_nonneg (s : str) :
  Num.parseFloat (filter class_09dot s) = Num.NaN \/
  Shape.non_negative (Num.parseFloat (filter class_09dot s)) = true.
Proof.
  apply parseFloat_nonneg. intros u E.
  assert (F : Forall (fun c => class_09dot c = true)
                (trimStart (filter class_09dot s))).
  { apply drop_while_Forall. apply Forall_forall. intros c Hc.
    apply filter_In in Hc. apply Hc. }
  rewrite E in F. inversion F as [|? ? F1 _]. discriminate F1.
Qed.

(** A run of points is not a number. *)
Lemma parseFloat_points (f : str) :
  Forall (fun c => c = "."%char) f -> Num.parseFloat f = Num.NaN.
Proof.
  intros F. destruct f as [|c f]; [reflexivity|].
  inversion F as [|? ? -> F']; subst. destruct f as [|c f]; [reflexivity|].
  inversion F' as [|? ? -> _]; subst. reflexivity.
Qed.

End NumFacts.

(* ================================================================== *)
(** * Tags, enclosures and addresses *)
(* ================================================================== *)

Module ItemFacts.
Import Js JsFacts RegexFacts StringShape.

(** The body of a tag stops at the first closing text. *)
Lemma tag_body_closing_free (allowed : ascii -> bool) (opn cls xml c : str) :
  cls <> [] -> Spec.tag_body allowed opn cls xml c -> ~ Spec.occurs cls c.
Proof.
  intros Hc [n [[pre [post [E [Hn F]]]] Hmin]] [a [b Ec]].
  assert (B : Spec.body_at allowed opn cls xml n a).
  { exists pre, (b ++ cls ++ post). split; [|split; [exact Hn|]].
    - rewrite E, Ec, <- !app_assoc. reflexivity.
    - rewrite Ec in F. apply Forall_app in F. apply F. }
  destruct (Hmin _ _ B) as [H | [_ H]]; [lia|].
  rewrite Ec, !length_app in H.
  destruct cls; [contradiction|]. simpl in H. lia.
Qed.

Lemma occurs_longer (a sub s : str) :
  Spec.occurs (a ++ sub) s -> Spec.occurs sub s.
Proof.
  intros [pre [post E]]. exists (pre ++ a), post.
  rewrite E, <- !app_assoc. reflexivity.
Qed.

Lemma plain_fallback_closing_free (xml tagName c : str) :
  plain_fallback xml tagName = Some c ->
  ~ Spec.occurs (plain_close tagName) c.
Proof.
  unfold plain_fallback.
  destruct (exec no_flags (plain_re tagName) xml) as [m|] eqn:E.
  - destruct (exec_plain_sound _ _ E) as [c' [G B]].
    rewrite G. intros H. injection H as <-.
    refine (tag_body_closing_free _ B). discriminate.
  - intros H. injection H as <-. intros [pre [post H]].
    destruct pre; discriminate H.
Qed.

(** The content of a tag never holds the closing text of the CDATA
    form. *)
Lemma getTagContent_closing_free (xml tagName c : str) :
  getTagContent xml tagName = Some c ->
  ~ Spec.occurs (cdata_close tagName) c.
Proof.
  assert (P : plain_fallback xml tagName = Some c ->
              ~ Spec.occurs (cdata_close tagName) c).
  { intros H O. eapply plain_fallback_closing_free; [exact H|].
    apply (@occurs_longer "]]>"). exact O. }
  unfold getTagContent. cbv zeta.
  destruct (exec flag_s (cdata_re tagName) xml) as [m|] eqn:E; [|exact P].
  destruct (exec_cdata_sound _ _ E) as [c' [G B]]. rewrite G.
  destruct (truthy c'); [|exact P].
  intros H. injection H as <-.
  refine (tag_body_closing_free _ B). discriminate.
Qed.

(** The address captured by the enclosure pattern. *)
Lemma rmatch_enclosure_shape (st y : mstate) :
  In y (rmatch no_flags enclosure_re st) ->
  exists w,
    capture 1 (caps y) = Some ("magnet:" ++ w) /\ Shape.magnet_uri ("magnet:" ++ w) /\
    rest st = ("<enclosure url=" ++ [dquote]) ++ ("magnet:" ++ w)
              ++ dquote :: rest y.
Proof.
  unfold enclosure_re. rewrite rmatch_Cat. intros H.
  apply in_flat_map in H. destruct H as [x [Hx H]].
  rewrite rmatch_lit in Hx by reflexivity.
  destruct (starts_with _ (rest st)) eqn:Ex; [|destruct Hx].
  destruct Hx as [<-|[]]. apply starts_with_skipn in Ex.
  rewrite rmatch_Cat in H. apply in_flat_map in H.
  destruct H as [z [Hz H]].
  rewrite rmatch_Grp in Hz. apply in_map_iff in Hz.
  destruct Hz as [z0 [<- Hz0]].
  rewrite rmatch_Cat in Hz0. apply in_flat_map in Hz0.
  destruct Hz0 as [x1 [Hx1 Hz0]].
  rewrite rmatch_lit in Hx1 by reflexivity.
  destruct (starts_with "magnet:" (rest (advance _ st))) eqn:Em;
    [|destruct Hx1].
  destruct Hx1 as [<-|[]]. apply starts_with_skipn in Em.
  apply rep_cls_sound in Hz0. destruct Hz0 as [w [Rw [Lw [Iw Fw]]]].
  rewrite rmatch_Chr in H. apply In_step_if in H.
  destruct H as [c [Rc [Qc [_ Cc]]]].
  apply ascii_eqb_eq in Qc. subst c. cbn [set_capture rest] in Rc.
  cbn [advance rest idx] in Rw, Iw, Em. rewrite Rw in Em. rewrite Em in Ex.
  exists w. split; [|split].
  - rewrite Cc. cbn [set_capture caps capture find fst Nat.eqb].
    f_equal. cbn [advance rest idx]. rewrite Em.
    replace (idx z0 - (length ("<enclosure url=" ++ [dquote]) + idx st))
      with (length ("magnet:" ++ w) + 0)
      by (rewrite Iw, length_app; lia).
    rewrite app_assoc.
    rewrite (firstn_app (length ("magnet:" ++ w) + 0)).
    rewrite firstn_all2 by lia.
    replace (length ("magnet:" ++ w) + 0 - length ("magnet:" ++ w))
      with 0 by lia.
    rewrite firstn_0, app_nil_r. reflexivity.
  - exists w. split; [reflexivity|]. split.
    + destruct w; [simpl in Lw; lia | discriminate].
    + revert Fw. apply Forall_impl. intros a Ha ->. discriminate Ha.
  - rewrite Ex, Rc, <- app_assoc. reflexivity.
Qed.

(** The magnet link read off an item: empty, or a [magnet:] address
    without double quotes that the item holds as the [url] of an
    enclosure. *)
Lemma magnet_of_item (itemXml : str) :
  exists m,
    match exec no_flags enclosure_re itemXml with
    | Some magnetMatch => group magnetMatch 1
    | None => Some []
    end = Some m /\
    (m = [] \/
     (Shape.magnet_uri m /\
      Spec.occurs (("<enclosure url=" ++ [dquote]) ++ m ++ [dquote])
        itemXml)).
Proof.
  destruct (exec no_flags enclosure_re itemXml) as [mm|] eqn:E;
    [|exists []; auto].
  unfold exec in E.
  destruct (exec_from_Some _ _ _ _ E)
    as [pre [suf [y [ys [Hs [Hy [-> _]]]]]]].
  destruct (@rmatch_enclosure_shape (start (length pre + 0) suf) y)
    as [w [C [U R]]]; [rewrite Hy; left; reflexivity|].
  cbn [start rest] in R. cbn [group m_caps]. exists ("magnet:" ++ w).
  split; [exact C|]. right. split; [exact U|].
  exists pre, (rest y). rewrite Hs, R, <- !app_assoc. reflexivity.
Qed.

(** The text of a tag whose CDATA section is empty. *)
Lemma empty_cdata_text (tagName : str) :
  cdata_open tagName ++ cdata_close tagName
  = plain_open tagName ++ "<![CDATA[]]>" ++ plain_close tagName.
Proof.
  unfold cdata_open, cdata_close, plain_open, plain_close.
  rewrite <- !app_assoc. reflexivity.
Qed.

(** A CDATA section that is empty is the body of its tag. *)
Lemma cdata_body_of_empty (tagName : str) :
  Spec.cdata_body tagName (cdata_open tagName ++ cdata_close tagName) [].
Proof.
  exists 0. split.
  - exists [], []. split; [|split; [reflexivity|constructor]].
    cbn [app]. rewrite app_nil_r. reflexivity.
  - intros n' c' _. destruct n'; [right; split; [reflexivity|]|left]; 
      simpl; lia.
Qed.

(** Read as a plain tag, it has the wrapper text as its body. *)
Lemma plain_body_of_empty_cdata (tagName : str) :
  Spec.plain_body tagName (cdata_open tagName ++ cdata_close tagName)
    "<![CDATA[]]>".
Proof.
  rewrite empty_cdata_text. exists 0. split.
  - exists [], []. split; [|split; [reflexivity|]].
    + cbn [app]. rewrite app_nil_r. reflexivity.
    + cbn. repeat constructor.
  - intros n' c' [pre [post [E [Hn _]]]].
    destruct n' as [|n']; [right; split; [reflexivity|]|left; lia].
    destruct pre; [|discriminate Hn]. cbn [app] in E.
    apply app_inv_head in E.
    destruct (le_lt_dec (length (String.list_ascii_of_string "<![CDATA[]]>"))
                (length c')) as [H|H]; [exact H|exfalso].
    unfold plain_close in E.
    do 12 (destruct c' as [|? c'];
           [cbn in E; congruence | cbn in E; injection E as _ E]).
    cbn in H. lia.
Qed.

(** A plain tag somewhere in the text gives the text a plain body. *)
Lemma plain_body_exists (tagName xml : str) (n : nat) (c : str) :
  Spec.body_at (fun a => negb (is_line_terminator a))
    (plain_open tagName) (plain_close tagName) xml n c ->
  exists c', Spec.plain_body tagName xml c'.
Proof.
  intros [pre [post [E [_ F]]]].
  destruct (exec no_flags (plain_re tagName) xml) as [m|] eqn:X.
  - destruct (exec_plain_sound _ _ X) as [c' [_ B]]. eauto.
  - exfalso. revert X. unfold exec.
    apply (@exec_from_complete no_flags (plain_re tagName) xml 0 pre
             (plain_open tagName ++ c ++ plain_close tagName ++ post) E).
    apply (@rmatch_tag_not_nil no_flags eq_refl (plain_open tagName)
             (plain_close tagName) (length pre + 0) _ c post eq_refl F).
Qed.

(** When the CDATA section of the tag is empty the extractor goes on to
    the plain pattern, which matches, and returns its body. *)
Lemma getTagContent_empty_cdata (xml tagName : str) :
  Spec.cdata_body tagName xml [] ->
  exists c, Spec.plain_body tagName xml c /\
            getTagContent xml tagName = Some c.
Proof.
  intros Hb.
  assert (He : forall c, Spec.cdata_body tagName xml c -> c = []).
  { intros c Hc. apply (tag_body_unique Hc Hb). }
  destruct Hb as [n [[pre [post [E _]]] _]].
  destruct (@plain_body_exists tagName xml (length pre) "<![CDATA[]]>")
    as [c Hc].
  { exists pre, post. split; [|split; [reflexivity|cbn; repeat constructor]].
    rewrite E. cbn [app]. f_equal.
    rewrite app_assoc, empty_cdata_text, <- !app_assoc. reflexivity. }
  exists c. split; [exact Hc|].
  rewrite (getTagContent_fallback He). apply plain_fallback_body. exact Hc.
Qed.

(** So the content of such a tag is read as the wrapper text. *)
Lemma getTagContent_wrapper (tagName : str) :
  getTagContent (cdata_open tagName ++ cdata_close tagName) tagName
  = Some (String.list_ascii_of_string "<![CDATA[]]>").
Proof.
  destruct (getTagContent_empty_cdata (cdata_body_of_empty tagName))
    as [c [Hc ->]].
  f_equal. apply (tag_body_unique Hc (plain_body_of_empty_cdata tagName)).
Qed.

Lemma or_else_string (s : str) : or_else (Some s) "" = s.
Proof. destruct s; reflexivity. Qed.

End ItemFacts.

Module UriFacts.
Import Js JsFacts.

Lemma encode_char_component (c : ascii) :
  forallb Shape.component_char (Uri.encode_char c) = true.
Proof. destruct c as [[] [] [] [] [] [] [] []]; vm_compute; reflexivity. Qed.

Lemma encodeURIComponent_component (s : str) :
  forallb Shape.component_char (Uri.encodeURIComponent s) = true.
Proof.
  induction s as [|c s IH]; [reflexivity|].
  unfold Uri.encodeURIComponent. cbn [flat_map].
  rewrite forallb_app, encode_char_component. exact IH.
Qed.

Lemma unescape_encode_char (c : ascii) (s : str) :
  Shape.unescape (Uri.encode_char c ++ s) = c :: Shape.unescape s.
Proof. destruct c as [[] [] [] [] [] [] [] []]; reflexivity. Qed.

(** Reading the escapes back recovers the text. *)
Lemma unescape_encodeURIComponent (s : str) :
  Shape.unescape (Uri.encodeURIComponent s) = s.
Proof.
  induction s as [|c s IH]; [reflexivity|].
  unfold Uri.encodeURIComponent. cbn [flat_map].
  rewrite unescape_encode_char. f_equal. exact IH.
Qed.

End UriFacts.

(* ================================================================== *)
(** * The shape of the records *)
(* ================================================================== *)

Module RecordFacts.
Import Js JsFacts RegexFacts ProviderFacts StringShape MarkupFacts NumFacts
  ItemFacts.

(** The conversion never yields NaN or a negative number. *)
Lemma parseSizeToBytes_nonneg (sizeStr : str) :
  Shape.non_negative (parseSizeToBytes sizeStr) = true.
Proof.
  rewrite parseSizeToBytes_unfold.
  destruct sizeStr as [|c s]; [vm_compute; reflexivity|].
  cbv zeta.
  destruct (parseFloat_filter_nonneg (c :: s)) as [-> | H].
  - vm_compute. reflexivity.
  - destruct (Num.isNaN _); [vm_compute; reflexivity|].
    apply round_nonneg.
    repeat match goal with
           | |- context [if ?b then _ else _] => destruct b
           end;
      repeat apply mul_n1024_nonneg; exact H.
Qed.

(** The formatted size always holds a quantity and a unit. *)
Lemma find_formattedSize_shape (parts : list str) :
  Spec.has_size_pattern (find_formattedSize parts) /\
  Shape.trimmed (find_formattedSize parts).
Proof.
  unfold find_formattedSize.
  destruct (find is_size_part parts) as [part|] eqn:E.
  - apply find_some in E. destruct E as [_ E].
    split; [apply is_size_part_iff; exact E | apply trim_trimmed].
  - split.
    + apply test_size_iff. vm_compute. reflexivity.
    + change (String.list_ascii_of_string "0 MB") with (trim "0 MB").
      apply trim_trimmed.
Qed.

(** Text without markup is left as it is by the stripping. *)
Lemma strip_markup_fixed (s : str) :
  ~ Shape.has_markup s -> replace_all no_flags markup_re "" s = s.
Proof.
  intros H. unfold replace_all. cbn [replace_from].
  destruct (exec_from no_flags markup_re 0 s) as [m|] eqn:E; [|reflexivity].
  exfalso. apply H.
  destruct (exec_from_Some _ _ _ _ E)
    as [pre [suf [y [ys [Hs [Hy _]]]]]].
  destruct (@rmatch_markup_sound (start (length pre + 0) suf) y)
    as [b [c [R _]]]; [rewrite Hy; left; reflexivity|].
  cbn [start rest] in R. exists pre, b, c. rewrite Hs, R. reflexivity.
Qed.

(** Markup is found by the pattern. *)
Lemma no_markup_by_run (s : str) :
  exec no_flags markup_re s = None -> ~ Shape.has_markup s.
Proof.
  intros E [a [b [c Hs]]]. unfold exec in E.
  eapply exec_from_None in E; [|exact Hs].
  revert E. apply (@rmatch_markup_complete _ b c). reflexivity.
Qed.

(** Lower-casing leaves digits and points alone. *)
Lemma lower_char_class_09dot (c : ascii) :
  class_09dot (lower_char c) = class_09dot c /\
  (class_09dot c = true -> lower_char c = c) /\
  lower_char (lower_char c) = lower_char c.
Proof.
  destruct c as [[] [] [] [] [] [] [] []]; vm_compute;
    (split; [reflexivity|]; split; [|reflexivity]);
    intros H; try reflexivity; discriminate H.
Qed.

Lemma filter_toLowerCase (s : str) :
  filter class_09dot (toLowerCase s) = filter class_09dot s.
Proof.
  unfold toLowerCase. induction s as [|c s IH]; [reflexivity|].
  cbn [map filter].
  destruct (lower_char_class_09dot c) as [H1 [H2 _]]. rewrite H1.
  destruct (class_09dot c) eqn:E; [|exact IH].
  rewrite (H2 eq_refl), IH. reflexivity.
Qed.

Lemma toLowerCase_idempotent (s : str) :
  toLowerCase (toLowerCase s) = toLowerCase s.
Proof.
  unfold toLowerCase. rewrite map_map. apply map_ext. intros c.
  apply lower_char_class_09dot.
Qed.

(** The conversion reads its argument up to case. *)
Lemma parseSizeToBytes_toLowerCase (sizeStr : str) :
  parseSizeToBytes (toLowerCase sizeStr) = parseSizeToBytes sizeStr.
Proof.
  rewrite !parseSizeToBytes_unfold.
  destruct sizeStr as [|c s]; [reflexivity|].
  change (toLowerCase (c :: s)) with (lower_char c :: toLowerCase s).
  cbv iota beta.
  change (lower_char c :: toLowerCase s) with (toLowerCase (c :: s)).
  rewrite filter_toLowerCase, toLowerCase_idempotent. reflexivity.
Qed.

(** A glued piece is a stretch of the whole. *)
Lemma glue_piece (sep : str) (l : list str) (piece : str) :
  In piece l -> exists pre post, Shape.glue sep l = pre ++ piece ++ post.
Proof.
  induction l as [|a l IH]; [intros []|].
  unfold Shape.glue. cbn [flat_map]. intros [-> | H].
  - exists sep, (Shape.glue sep l). rewrite <- app_assoc. reflexivity.
  - destruct (IH H) as [pre [post E]].
    exists ((sep ++ a) ++ pre), post. unfold Shape.glue in E.
    rewrite E, <- !app_assoc. reflexivity.
Qed.

Lemma split_piece (s sep piece : str) :
  sep <> [] -> In piece (split s sep) ->
  exists pre post, s = pre ++ piece ++ post.
Proof.
  intros Hs Hin. destruct (split_glue s Hs) as [h [t [E1 E2]]].
  rewrite E1 in Hin. destruct Hin as [<- | Hin].
  - exists [], (Shape.glue sep t). exact E2.
  - destruct (glue_piece sep _ _ Hin) as [pre [post E]].
    exists (h ++ pre), post. rewrite E2, E, <- app_assoc. reflexivity.
Qed.

(** The items of a feed are stretches of it. *)
Lemma feed_item_stretch (xml item : str) :
  In item (feed_items xml) -> exists pre post, xml = pre ++ item ++ post.
Proof.
  intros H. apply (@split_piece xml "<item>"); [discriminate|].
  unfold feed_items, shift in H.
  destruct (split xml "<item>"); [destruct H | right; exact H].
Qed.

Section Items.

Variable habari_parse : str -> completion Metadata.
Variable Date_toISOString : str -> option str.

Local Abbreviation parse_item := (parse_item habari_parse Date_toISOString).

(** The episode number is that of the metadata, or -1: never NaN. *)
Lemma episode_of_defined (metadata : Metadata) :
  Num.isNaN (episode_of metadata) = false.
Proof.
  unfold episode_of. destruct (episode_number metadata) as [[|first l]|];
    try reflexivity.
  cbv zeta. destruct (Num.isNaN (Num.parseInt first)) eqn:E;
    [reflexivity | exact E].
Qed.

Lemma parse_item_episode (itemXml : str) (t : AnimeTorrent) :
  parse_item itemXml = Normal t ->
  exists metadata, episodeNumber t = episode_of metadata.
Proof.
  unfold parse_item.
  destruct (getTagContent itemXml "title") as [title0|];
    [|discriminate].
  destruct (getTagContent itemXml "description") as [description|];
    [|discriminate].
  cbn [deref bind].
  destruct (habari_parse _) as [metadata|]; [|discriminate].
  cbn [bind].
  destruct (new_Date_toISOString _ _) as [iso|]; [|discriminate].
  cbn [bind]. intros H. injection H as <-.
  exists metadata. reflexivity.
Qed.

Lemma parse_item_well_formed (itemXml : str) (t : AnimeTorrent) :
  parse_item itemXml = Normal t -> Shape.well_formed t.
Proof.
  intros H.
  destruct (parse_item_fields _ _ _ H)
    as [title0 [d [_ [_ [Hn [Hm [Hf [Hz Hi]]]]]]]].
  unfold Shape.well_formed.
  split; [|split; [|split; [|split; [|split; [|split]]]]];
    [| | | | |destruct (parse_item_episode _ H) as [md ->];
              apply episode_of_defined|].
  - exists (trim (replace_all no_flags markup_re "" title0)).
    split; [exact Hn|]. apply cleaned_text.
  - destruct (magnet_of_item itemXml) as [m [Em Sm]].
    exists m. split; [rewrite Hm; exact Em|]. tauto.
  - rewrite Hf. apply find_formattedSize_shape.
  - rewrite Hf. apply find_formattedSize_shape.
  - rewrite Hz. apply parseSizeToBytes_nonneg.
  - rewrite Hi.
    destruct (find_infoHash_shape (magnetLink t) (description_parts d))
      as [-> | Hh]; [left; reflexivity|].
    right. apply toLowerCase_hash. exact Hh.
Qed.

(** An item yields a record exactly when the title parser returns and
    the date is valid. *)
Lemma parse_item_returns (itemXml title0 pubDate : str) :
  getTagContent itemXml "title" = Some title0 ->
  getTagContent itemXml "pubDate" = Some pubDate ->
  ((exists t, parse_item itemXml = Normal t) <->
   (exists metadata,
       habari_parse (trim (replace_all no_flags markup_re "" title0))
       = Normal metadata) /\
   (exists iso, Date_toISOString pubDate = Some iso)).
Proof.
  intros Ht Hp. unfold parse_item. rewrite Ht, Hp.
  destruct (getTagContent_defined itemXml "description") as [d ->].
  cbn [deref bind].
  destruct (habari_parse _) as [metadata|e].
  - cbn [bind new_Date_toISOString].
    destruct (Date_toISOString pubDate) as [iso|]; cbn [bind].
    + split; [intros _; split; eauto | intros _; eauto].
    + split; [intros [t Hx]; discriminate Hx|].
      intros [_ [iso Hx]]. discriminate Hx.
  - cbn [bind]. split; [intros [t Hx]; discriminate Hx|].
    intros [[metadata Hx] _]. discriminate Hx.
Qed.

Variable fetch : str -> completion Response.

(** What [fetchAndParseRss] returns is empty or the records of the body
    of a response that is ok. *)
Lemma fetchAndParseRss_records (url : str) (l : list AnimeTorrent)
  (t : AnimeTorrent) :
  fetchAndParseRss fetch habari_parse Date_toISOString url = Normal l ->
  In t l ->
  exists response item,
    fetch url = Normal response /\ ok response = true /\
    In item (feed_items (text response)) /\ parse_item item = Normal t.
Proof.
  unfold fetchAndParseRss.
  destruct (fetch url) as [response|e]; cbn [bind try_catch].
  - destruct (ok response) eqn:Eo; cbn [negb try_catch].
    + intros H. injection H as <-. intros Hin.
      unfold parseTorrentsFromXml in Hin. cbv zeta in Hin.
      apply In_parse_items in Hin. destruct Hin as [item [Hi Hp]].
      exists response, item. auto.
    + intros H. injection H as <-. intros [].
  - intros H. injection H as <-. intros [].
Qed.

End Items.

End RecordFacts.

(* ================================================================== *)
(** * The embedding at work *)
(* ================================================================== *)

(** Runs of the embedded runtime and of the provider on small inputs. *)

Module Examples.

Example split_pipes :
  map String.string_of_list_ascii (Js.split "a|b||c|" "|")
  = ["a"; "b"; ""; "c"; ""].
Proof. reflexivity. Qed.

Example split_empty : Js.split "" "|" = [[]].
Proof. reflexivity. Qed.

Example feed_items_of_header_only : feed_items "<rss><channel>" = [].
Proof. reflexivity. Qed.

Example trim_both_ends :
  Js.trim ("  a b " ++ ["010"%char]) = "a b".
Proof. reflexivity. Qed.

Example strip_markup :
  String.string_of_list_ascii
    (replace_all no_flags markup_re "" "<a href='u'>t</a> | 1.5GB | <b>x")
  = "t | 1.5GB | x".
Proof. vm_compute. reflexivity. Qed.

Example replace_after_empty_matches :
  String.string_of_list_ascii
    (replace_all no_flags (star (Chr "X")) "-" "aXb") = "-a--b-".
Proof. vm_compute. reflexivity. Qed.

Example size_pattern_groups :
  option_map (fun m => (Sample.shown (group m 0), Sample.shown (group m 1),
                        Sample.shown (group m 2)))
    (exec flag_i size_re "size: 467.5 gb x")
  = Some (Some "467.5 gb", Some ".5", Some "gb") /\
  option_map (fun m => (Sample.shown (group m 0), Sample.shown (group m 1),
                        Sample.shown (group m 2)))
    (exec flag_i size_re "7tb")
  = Some (Some "7tb", None, Some "tb") /\
  test flag_i size_re "467.5 g b" = false.
Proof. repeat split; vm_compute; reflexivity. Qed.

Example plain_tag_stays_on_one_line :
  Sample.shown (getTagContent ("<t>a" ++ ["010"%char] ++ "</t><t>b</t>") "t")
  = Some "b".
Proof. vm_compute. reflexivity. Qed.

Example cdata_tag_spans_lines :
  getTagContent ("<t><![CDATA[a" ++ ["010"%char] ++ "b]]></t>") "t"
  = Some ("a" ++ ["010"%char] ++ "b").
Proof. vm_compute. reflexivity. Qed.

Example parseFloat_values :
  Num.parseFloat "1.5" = S754_finite false 6755399441055744 (-52) /\
  Num.parseFloat "0.1" = S754_finite false 7205759403792794 (-56) /\
  Num.parseFloat "1.5.3" = Num.parseFloat "1.5" /\
  Num.parseFloat "." = Num.NaN /\
  Num.parseFloat "" = Num.NaN /\
  Num.parseFloat "9007199254740993" = Num.of_Z 9007199254740992.
Proof. repeat split; vm_compute; reflexivity. Qed.

Example round_values :
  Num.round (Num.parseFloat "2.5") = Num.of_Z 3 /\
  Num.round (Num.parseFloat "-2.5") = Num.of_Z (-2) /\
  Num.round (Num.parseFloat "0.49999999999999994") = Num.of_Z 0 /\
  Num.round (Num.parseFloat "-0.5") = S754_zero true.
Proof. repeat split; vm_compute; reflexivity. Qed.

Example parseSizeToBytes_values :
  Num.to_Z (parseSizeToBytes "700 MB") = Some (700 * 1024 * 1024)%Z /\
  Num.to_Z (parseSizeToBytes "0.1GB") = Some 107374182%Z /\
  Num.to_Z (parseSizeToBytes "v2 1.5GB") = Some (23085449216)%Z /\
  parseSizeToBytes "GB" = Num.of_Z 0 /\
  parseSizeToBytes "" = Num.of_Z 0.
Proof. repeat split; vm_compute; reflexivity. Qed.

Example records_of_sample_feed :
  map (fun t => (Sample.shown (name t),
                 String.string_of_list_ascii (formattedSize t),
                 Num.to_Z (size t),
                 String.string_of_list_ascii (infoHash t)))
    (parseTorrentsFromXml Sample.habari Sample.date_iso Sample.feed)
  = [(Some "Show - 01", "0 MB", Some 0%Z,
      "abcdef0123456789abcdef0123456789abcdef01");
     (Some "Show - 02", "1.5GB", Some 1610612736%Z,
      "0000000000000000000000000000000000000000")].
Proof. vm_compute. reflexivity. Qed.

End Examples.

(* ================================================================== *)
(** * The properties of the specification *)
(* ================================================================== *)

Module Claims.
Import Js JsFacts RegexFacts ProviderFacts.

(** ** Size conversion *)

(** C1, as the code has it: [parseSizeToBytes] maps "1.5GB" to
    1610612736 and "467.5GB" to 501974302720; each is the parsed value
    multiplied three times by 1024 and rounded to the nearest integer. *)
Theorem parseSizeToBytes_examples :
  parseSizeToBytes "1.5GB" = Num.of_Z 1610612736 /\
  parseSizeToBytes "467.5GB" = Num.of_Z 501974302720 /\
  parseSizeToBytes "1.5GB"
  = Num.round (Num.mul (Num.mul (Num.mul (Num.parseFloat "1.5") n1024)
                          n1024) n1024) /\
  parseSizeToBytes "467.5GB"
  = Num.round (Num.mul (Num.mul (Num.mul (Num.parseFloat "467.5") n1024)
                          n1024) n1024) /\
  Num.to_Z (parseSizeToBytes "1.5GB") = Some 1610612736%Z /\
  Num.to_Z (parseSizeToBytes "467.5GB") = Some 501974302720%Z.
Proof. repeat split; vm_compute; reflexivity. Qed.

(** C1, the figure of the specification: "467.5GB" does not convert to
    502078838374. *)
Lemma parseSizeToBytes_467_5GB_is_not_502078838374 :
  parseSizeToBytes "467.5GB" <> Num.of_Z 502078838374.
Proof. vm_compute. discriminate. Qed.

(** C2: a size in terabytes is not scaled.  "2TB" is accepted by the size
    pattern of the description loop, yet converts to 2, not to
    2 * 1024^4 = 2199023255552; the other units are scaled.  The earlier
    variant of the conversion behaves alike. *)
Theorem parseSizeToBytes_TB_unscaled :
  is_size_part "2TB" = true /\
  parseSizeToBytes "2TB" = Num.of_Z 2 /\
  parseSizeToBytes "2TB" <> Num.of_Z (2 * 1024 ^ 4) /\
  Legacy.parseSizeToBytes "2TB" = Num.of_Z 2 /\
  parseSizeToBytes "2GB" = Num.of_Z (2 * 1024 ^ 3) /\
  parseSizeToBytes "2MB" = Num.of_Z (2 * 1024 ^ 2) /\
  parseSizeToBytes "2KB" = Num.of_Z (2 * 1024) /\
  parseSizeToBytes "2" = Num.of_Z 2.
Proof.
  repeat split; try (vm_compute; reflexivity).
  vm_compute. discriminate.
Qed.

(** ** Info hash *)

Section InfoHash.

Variable habari_parse : str -> completion Metadata.
Variable Date_toISOString : str -> option str.

Local Abbreviation parse_item := (parse_item habari_parse Date_toISOString).

(** C3, for the pattern-scanning provider of [src/Acgnx.ts]: the info
    hash of a record is the leftmost 40-digit [urn:btih:] value of the
    magnet link when there is one; failing that, the first description
    part whose trimmed text is 40 hexadecimal digits; failing that, the
    empty string.  The record holds the value in lower case. *)
Theorem infoHash_derivation (itemXml : str) (t : AnimeTorrent)
  (description magnet : str) :
  parse_item itemXml = Normal t ->
  getTagContent itemXml "description" = Some description ->
  magnetLink t = Some magnet ->
  (forall h, Spec.first_btih magnet h -> infoHash t = toLowerCase h) /\
  (Spec.no_btih magnet ->
   forall part,
     Spec.first_such (fun p => Spec.hash_like (trim p))
       (description_parts description) part ->
     infoHash t = toLowerCase (trim part)) /\
  (Spec.no_btih magnet ->
   Forall (fun p => ~ Spec.hash_like (trim p))
     (description_parts description) ->
   infoHash t = []).
Proof.
  intros Hp Hd Hm.
  destruct (parse_item_fields _ _ _ Hp)
    as [title0 [d [_ [Hd' [_ [_ [_ [_ Hi]]]]]]]].
  rewrite Hd in Hd'. injection Hd' as <-. rewrite Hm in Hi.
  rewrite Hi. split; [|split].
  - intros h Hf. rewrite (@find_infoHash_magnet (Some magnet) _ h Hf).
    reflexivity.
  - intros Hn part Hpart.
    rewrite (@find_infoHash_part (Some magnet) _ part Hn Hpart).
    reflexivity.
  - intros Hn Hparts.
    rewrite (@find_infoHash_default (Some magnet) _ Hn Hparts).
    reflexivity.
Qed.

(** C4, as the code has it: the info hash of a record is the leftmost
    40-digit [urn:btih:] value of its magnet link, in lower case; for the
    value ABCDEF0123456789ABCDEF0123456789ABCDEF01 that is
    abcdef0123456789abcdef0123456789abcdef01. *)
Theorem infoHash_of_first_btih (itemXml : str) (t : AnimeTorrent)
  (magnet h : str) :
  parse_item itemXml = Normal t ->
  magnetLink t = Some magnet ->
  Spec.first_btih magnet h ->
  infoHash t = toLowerCase h /\
  (h = Sample.hash_upper -> infoHash t = Sample.hash_lower).
Proof.
  intros Hp Hm Hf.
  destruct (parse_item_fields _ _ _ Hp)
    as [title0 [d [_ [_ [_ [_ [_ [_ Hi]]]]]]]].
  rewrite Hm in Hi.
  rewrite (@find_infoHash_magnet (Some magnet) _ h Hf) in Hi.
  split; [exact Hi|]. intros ->. exact Hi.
Qed.

End InfoHash.

(** C10: the info hash of every record of the parse stage is the empty
    string or exactly 40 characters from [0-9a-f]. *)
Theorem infoHash_empty_or_40_lower_hex
  (habari_parse : str -> completion Metadata)
  (Date_toISOString : str -> option str) (xml : str) (t : AnimeTorrent) :
  In t (parseTorrentsFromXml habari_parse Date_toISOString xml) ->
  infoHash t = [] \/
  (length (infoHash t) = 40 /\
   Forall (fun c => Spec.is_lower_hex c = true) (infoHash t)).
Proof.
  unfold parseTorrentsFromXml. cbv zeta. intros Hin.
  apply In_parse_items in Hin. destruct Hin as [item [_ Hp]].
  destruct (parse_item_fields _ _ _ Hp)
    as [title0 [d [_ [_ [_ [_ [_ [_ Hi]]]]]]]].
  rewrite Hi.
  destruct (find_infoHash_shape (magnetLink t) (description_parts d))
    as [-> | Hh].
  - left. reflexivity.
  - right. apply toLowerCase_hash. exact Hh.
Qed.

(** The leftmost hash of a concrete magnet link, by running the
    extractor. *)
Lemma first_btih_by_run (magnet h : str) :
  getHashFromMagnet (Some magnet) = Some h -> Spec.first_btih magnet h.
Proof. apply getHashFromMagnet_sound. Qed.

Lemma no_btih_by_run (magnet : str) :
  getHashFromMagnet (Some magnet) = None -> Spec.no_btih magnet.
Proof. apply getHashFromMagnet_null. Qed.

Lemma hash_like_by_run (h : str) :
  (length h =? 40)%nat && forallb Spec.is_hex h = true -> Spec.hash_like h.
Proof.
  intros H. apply andb_true_iff in H. destruct H as [H1 H2].
  split; [apply Nat.eqb_eq; exact H1 | apply Forall_of_forallb; exact H2].
Qed.

(** C3 at sample items: a hash taken from the magnet link, a hash taken
    from the description, and no hash at all. *)
Lemma infoHash_derivation_witness :
  (exists t description magnet,
     parse_item Sample.habari Sample.date_iso Sample.item_one_hash
       = Normal t /\
     getTagContent Sample.item_one_hash "description" = Some description /\
     magnetLink t = Some magnet /\
     Spec.first_btih magnet Sample.hash_upper /\
     infoHash t = Sample.hash_lower) /\
  (exists t description,
     parse_item Sample.habari Sample.date_iso
       Sample.item_hash_in_description = Normal t /\
     getTagContent Sample.item_hash_in_description "description"
       = Some description /\
     magnetLink t = Some [] /\
     Spec.no_btih [] /\
     infoHash t = Sample.hash_lower) /\
  (exists t description,
     parse_item Sample.habari Sample.date_iso Sample.item_no_hash
       = Normal t /\
     getTagContent Sample.item_no_hash "description" = Some description /\
     magnetLink t = Some [] /\
     Spec.no_btih [] /\
     Forall (fun p => ~ Spec.hash_like (trim p))
       (description_parts description) /\
     infoHash t = []).
Proof.
  split; [|split].
  - eexists. eexists. eexists.
    split; [vm_compute; reflexivity|].
    split; [vm_compute; reflexivity|].
    split; [vm_compute; reflexivity|].
    assert (Hf : Spec.first_btih
                   ("magnet:?xt=urn:btih:" ++ Sample.hash_upper ++ "&dn=show")
                   Sample.hash_upper)
      by (apply first_btih_by_run; vm_compute; reflexivity).
    split; [exact Hf|].
    refine (proj1 (@infoHash_derivation Sample.habari Sample.date_iso
                     Sample.item_one_hash _ _ _ _ _ _)
              Sample.hash_upper Hf);
      vm_compute; reflexivity.
  - eexists. eexists.
    split; [vm_compute; reflexivity|].
    split; [vm_compute; reflexivity|].
    split; [vm_compute; reflexivity|].
    assert (Hn : Spec.no_btih []) by (apply no_btih_by_run; reflexivity).
    split; [exact Hn|].
    refine (proj1 (proj2 (@infoHash_derivation Sample.habari Sample.date_iso
                            Sample.item_hash_in_description _ _ _ _ _ _))
              Hn (" " ++ Sample.hash_upper) _);
      try (vm_compute; reflexivity).
    apply (@first_such_of_find _ is_hash_part _ _ _ is_hash_part_iff).
    vm_compute. reflexivity.
  - eexists. eexists.
    split; [vm_compute; reflexivity|].
    split; [vm_compute; reflexivity|].
    split; [vm_compute; reflexivity|].
    assert (Hn : Spec.no_btih []) by (apply no_btih_by_run; reflexivity).
    split; [exact Hn|].
    assert (Hp : Forall (fun p => ~ Spec.hash_like (trim p))
                   (description_parts "blurb | 700 MB")).
    { apply (@none_such_of_find _ is_hash_part _ _ is_hash_part_iff).
      vm_compute. reflexivity. }
    split; [exact Hp|].
    refine (proj2 (proj2 (@infoHash_derivation Sample.habari Sample.date_iso
                            Sample.item_no_hash _ _ _ _ _ _))
              Hn Hp);
      vm_compute; reflexivity.
Defined.

(** C4 at a sample item whose magnet link carries
    ABCDEF0123456789ABCDEF0123456789ABCDEF01. *)
Lemma infoHash_of_first_btih_witness :
  exists t magnet,
    parse_item Sample.habari Sample.date_iso Sample.item_one_hash
      = Normal t /\
    magnetLink t = Some magnet /\
    Spec.first_btih magnet Sample.hash_upper /\
    infoHash t = Sample.hash_lower.
Proof.
  eexists. eexists.
  split; [vm_compute; reflexivity|].
  split; [vm_compute; reflexivity|].
  assert (Hf : Spec.first_btih
                 ("magnet:?xt=urn:btih:" ++ Sample.hash_upper ++ "&dn=show")
                 Sample.hash_upper)
    by (apply first_btih_by_run; vm_compute; reflexivity).
  split; [exact Hf|].
  refine (proj2 (@infoHash_of_first_btih Sample.habari Sample.date_iso
                   Sample.item_one_hash _ _ Sample.hash_upper _ _ Hf)
            eq_refl);
    vm_compute; reflexivity.
Defined.

(** C4, as stated, fails: the magnet link of the sample item contains
    [urn:btih:ABCDEF0123456789ABCDEF0123456789ABCDEF01], after another
    [urn:btih:] value, and the info hash of the record is not
    abcdef0123456789abcdef0123456789abcdef01. *)
Lemma infoHash_ignores_second_btih :
  exists t,
    parse_item Sample.habari Sample.date_iso Sample.item_two_hashes
      = Normal t /\
    magnetLink t = Some Sample.magnet_two_hashes /\
    Spec.contains_btih Sample.magnet_two_hashes Sample.hash_upper /\
    infoHash t = Sample.hash_zero /\
    infoHash t <> toLowerCase Sample.hash_upper /\
    infoHash t <> Sample.hash_lower.
Proof.
  eexists.
  split; [vm_compute; reflexivity|].
  split; [vm_compute; reflexivity|].
  split.
  - exists 64, ("magnet:?xt=urn:btih:" ++ Sample.hash_zero ++ "&xt="), [].
    split; [vm_compute; reflexivity|]. split; [reflexivity|].
    apply hash_like_by_run. vm_compute. reflexivity.
  - split; [vm_compute; reflexivity|].
    split; vm_compute; discriminate.
Qed.

(** ** The parse stage *)

Section ParseStage.

Variable fetch : str -> completion Response.
Variable habari_parse : str -> completion Metadata.
Variable Date_toISOString : str -> option str.

Local Abbreviation parse_item := (parse_item habari_parse Date_toISOString).
Local Abbreviation parse_items :=
  (parse_items habari_parse Date_toISOString).
Local Abbreviation parseTorrentsFromXml :=
  (parseTorrentsFromXml habari_parse Date_toISOString).
Local Abbreviation fetchAndParseRss :=
  (fetchAndParseRss fetch habari_parse Date_toISOString).

(** C5: a feed body without the marker [<item>] yields no record, and a
    feed body never yields more records than it has item fragments. *)
Theorem parse_stage_bounded (xml : str) :
  (~ Spec.occurs "<item>" xml -> parseTorrentsFromXml xml = []) /\
  length (parseTorrentsFromXml xml) <= length (feed_items xml).
Proof.
  unfold parseTorrentsFromXml. cbv zeta. split.
  - intros Hn. rewrite (feed_items_no_marker Hn). reflexivity.
  - apply parse_items_length.
Qed.

(** C6: [fetchAndParseRss] always completes normally.  It returns the
    empty sequence when the fetch throws or the response is not ok, and
    the records of the body otherwise; in the parse stage an item whose
    extraction throws contributes nothing and every other item
    contributes its record, in feed order. *)
Theorem fetchAndParseRss_never_throws (url : str) :
  (exists l, fetchAndParseRss url = Normal l) /\
  (forall e, fetch url = Throw e -> fetchAndParseRss url = Normal []) /\
  (forall r, fetch url = Normal r -> ok r = false ->
             fetchAndParseRss url = Normal []) /\
  (forall r, fetch url = Normal r -> ok r = true ->
             fetchAndParseRss url = Normal (parseTorrentsFromXml (text r)))
  /\
  (forall xml before item after,
     feed_items xml = before ++ item :: after ->
     parseTorrentsFromXml xml
     = parse_items before
       ++ match parse_item item with
          | Normal t => [t]
          | Throw _ => []
          end
       ++ parse_items after).
Proof.
  unfold fetchAndParseRss.
  split; [|split; [|split; [|split]]].
  - destruct (fetch url) as [r|e]; cbn [bind try_catch]; [|eauto].
    destruct (ok r); cbn [negb try_catch]; eauto.
  - intros e ->. reflexivity.
  - intros r Hf Hok. rewrite Hf. cbn [bind]. rewrite Hok. reflexivity.
  - intros r Hf Hok. rewrite Hf. cbn [bind]. rewrite Hok. reflexivity.
  - intros xml before item after E.
    unfold parseTorrentsFromXml. cbv zeta.
    rewrite E, parse_items_app, parse_items_cons. reflexivity.
Qed.

(** C9: every record of the parse stage is the complete record of an
    item fragment whose extraction did not throw; its name is a string
    (the title of the item stripped of markup and trimmed) and its magnet
    link is a string, neither is [null] or [undefined].  A fragment whose
    extraction throws yields [null] and is filtered out, so the records
    are exactly those of the other fragments. *)
Theorem records_are_complete (xml : str) :
  (forall t, In t (parseTorrentsFromXml xml) ->
     exists item title0 m,
       In item (feed_items xml) /\ parse_item item = Normal t /\
       getTagContent item "title" = Some title0 /\
       name t = Some (trim (replace_all no_flags markup_re "" title0)) /\
       magnetLink t = Some m) /\
  (forall item e, In item (feed_items xml) -> parse_item item = Throw e ->
     parse_item_or_null habari_parse Date_toISOString item = None) /\
  length (parseTorrentsFromXml xml)
  = length (filter (fun item => match parse_item item with
                                | Normal _ => true
                                | Throw _ => false
                                end) (feed_items xml)).
Proof.
  unfold parseTorrentsFromXml. cbv zeta. split; [|split].
  - intros t Hin. apply In_parse_items in Hin.
    destruct Hin as [item [Hi Hp]].
    destruct (magnetLink_defined _ _ _ Hp) as [m Hm].
    destruct (parse_item_fields _ _ _ Hp)
      as [title0 [d [Ht [_ [Hn _]]]]].
    exists item, title0, m. auto.
  - intros item e _ Hp. unfold parse_item_or_null. rewrite Hp. reflexivity.
  - induction (feed_items xml) as [|a l IH]; [reflexivity|].
    rewrite parse_items_cons, length_app, IH. cbn [filter].
    destruct (parse_item a); reflexivity.
Qed.

(** C8, for the pattern-scanning provider of [src/Acgnx.ts]: when no
    part of the pipe-split description holds a quantity followed by a
    unit, the record has the placeholder "0 MB" as formatted size and 0 as
    size. *)
Theorem no_size_pattern_defaults (itemXml : str) (t : AnimeTorrent)
  (description : str) :
  parse_item itemXml = Normal t ->
  getTagContent itemXml "description" = Some description ->
  Forall (fun part => ~ Spec.has_size_pattern part)
    (description_parts description) ->
  formattedSize t = "0 MB" /\ size t = Num.of_Z 0 /\
  Num.to_Z (size t) = Some 0%Z.
Proof.
  intros Hp Hd Hparts.
  destruct (parse_item_fields _ _ _ Hp)
    as [title0 [d [_ [Hd' [_ [_ [Hf [Hs _]]]]]]]].
  rewrite Hd in Hd'. injection Hd' as <-.
  rewrite (find_formattedSize_default Hparts) in Hf.
  rewrite Hs, Hf. repeat split; reflexivity.
Qed.

End ParseStage.

(** ** The tag extractor *)

(** C7, as the code has it: for a tag name made of letters and digits the
    extractor returns the body of the CDATA-wrapped tag when there is one
    and its body is not empty; when there is no CDATA-wrapped tag, or its
    body is empty, it returns the body of the plain tag, and the empty
    string when there is no plain tag either.  So an empty CDATA section
    is not returned: the plain pattern then always matches, and on the
    tag [<tagName><![CDATA[]]></tagName>] the extractor returns the
    wrapper text [<![CDATA[]]>] instead of the empty string. *)
Theorem getTagContent_order (xml tagName : str) :
  Spec.plain_name tagName = true ->
  (forall c, Spec.cdata_body tagName xml c -> c <> [] ->
             getTagContent xml tagName = Some c) /\
  ((forall c, Spec.cdata_body tagName xml c -> c = []) ->
   forall c, Spec.plain_body tagName xml c ->
             getTagContent xml tagName = Some c) /\
  ((forall c, Spec.cdata_body tagName xml c -> c = []) ->
   (forall c, ~ Spec.plain_body tagName xml c) ->
   getTagContent xml tagName = Some []) /\
  (Spec.cdata_body tagName xml [] ->
   exists c, Spec.plain_body tagName xml c /\
             getTagContent xml tagName = Some c) /\
  Spec.cdata_body tagName (cdata_open tagName ++ cdata_close tagName) [] /\
  getTagContent (cdata_open tagName ++ cdata_close tagName) tagName
  = Some (String.list_ascii_of_string "<![CDATA[]]>").
Proof.
  intros _. split; [|split; [|split; [|split; [|split]]]].
  - intros c Hb Hne. apply getTagContent_cdata; assumption.
  - intros Hn c Hb. rewrite (getTagContent_fallback Hn).
    apply plain_fallback_body. exact Hb.
  - intros Hn Hp. rewrite (getTagContent_fallback Hn).
    apply plain_fallback_none. exact Hp.
  - apply ItemFacts.getTagContent_empty_cdata.
  - apply ItemFacts.cdata_body_of_empty.
  - apply ItemFacts.getTagContent_wrapper.
Qed.

(** ** The properties at sample inputs *)

Lemma not_occurs_by_run (sub s : str) :
  includes s sub = false -> ~ Spec.occurs sub s.
Proof. intros H Ho. apply includes_iff in Ho. congruence. Qed.

Lemma no_size_pattern_by_run (parts : list str) :
  forallb (fun part => negb (test flag_i size_re part)) parts = true ->
  Forall (fun part => ~ Spec.has_size_pattern part) parts.
Proof.
  intros H. apply Forall_forall. intros part Hin Hs.
  rewrite forallb_forall in H. specialize (H _ Hin).
  apply test_size_iff in Hs. rewrite Hs in H. discriminate.
Qed.

Lemma cdata_body_by_run (tagName xml c : str) (m : match_result) :
  exec flag_s (cdata_re tagName) xml = Some m -> group m 1 = Some c ->
  Spec.cdata_body tagName xml c.
Proof.
  intros E Hg. destruct (exec_cdata_sound _ _ E) as [c' [Hg' Hb]].
  congruence.
Qed.

(** C5 at a body without items and at the sample feed. *)
Lemma parse_stage_bounded_witness :
  ~ Spec.occurs "<item>" "<rss><channel></channel></rss>" /\
  parseTorrentsFromXml Sample.habari Sample.date_iso
    "<rss><channel></channel></rss>" = [] /\
  length (parseTorrentsFromXml Sample.habari Sample.date_iso Sample.feed)
  <= length (feed_items Sample.feed).
Proof.
  assert (Hn : ~ Spec.occurs "<item>" "<rss><channel></channel></rss>")
    by (apply not_occurs_by_run; vm_compute; reflexivity).
  split; [exact Hn|]. split.
  - exact (proj1 (parse_stage_bounded Sample.habari Sample.date_iso
                    "<rss><channel></channel></rss>") Hn).
  - exact (proj2 (parse_stage_bounded Sample.habari Sample.date_iso
                    Sample.feed)).
Defined.

(** C6 with the network down, with a response that is not ok, and with
    the sample feed, whose second item has no date. *)
Lemma fetchAndParseRss_never_throws_witness :
  fetchAndParseRss Sample.fetch_down Sample.habari Sample.date_iso api
    = Normal [] /\
  fetchAndParseRss
    (Sample.fetch_ok {| ok := false; status := 503; text := Sample.feed |})
    Sample.habari Sample.date_iso api = Normal [] /\
  (nth 1 (feed_items Sample.feed) [] = "<item>" ++ [] \/
   parse_item Sample.habari Sample.date_iso
     (nth 1 (feed_items Sample.feed) []) = Throw RangeError) /\
  parseTorrentsFromXml Sample.habari Sample.date_iso Sample.feed
  = parse_items Sample.habari Sample.date_iso
      (firstn 1 (feed_items Sample.feed))
    ++ [] ++
    parse_items Sample.habari Sample.date_iso
      (skipn 2 (feed_items Sample.feed)).
Proof.
  pose (down := fetchAndParseRss_never_throws Sample.fetch_down
                  Sample.habari Sample.date_iso api).
  pose (r503 := {| ok := false; status := 503; text := Sample.feed |}).
  pose (bad := fetchAndParseRss_never_throws (Sample.fetch_ok r503)
                 Sample.habari Sample.date_iso api).
  split; [exact (proj1 (proj2 down) _ eq_refl)|].
  split; [exact (proj1 (proj2 (proj2 bad)) r503 eq_refl eq_refl)|].
  split; [right; vm_compute; reflexivity|].
  assert (E : feed_items Sample.feed
              = firstn 1 (feed_items Sample.feed)
                ++ nth 1 (feed_items Sample.feed) []
                   :: skipn 2 (feed_items Sample.feed))
    by (vm_compute; reflexivity).
  rewrite (proj2 (proj2 (proj2 (proj2 down))) Sample.feed _ _ _ E).
  replace (parse_item Sample.habari Sample.date_iso
             (nth 1 (feed_items Sample.feed) []))
    with (@Throw AnimeTorrent RangeError) by (vm_compute; reflexivity).
  reflexivity.
Defined.

Lemma no_cdata_body_by_run (tagName xml : str) :
  exec flag_s (cdata_re tagName) xml = None ->
  forall c, ~ Spec.cdata_body tagName xml c.
Proof. intros E. apply (@exec_tag_None flag_s eq_refl _ _ _ E). Qed.

Lemma plain_body_by_run (tagName xml c : str) (m : match_result) :
  exec no_flags (plain_re tagName) xml = Some m -> group m 1 = Some c ->
  Spec.plain_body tagName xml c.
Proof.
  intros E Hg. destruct (exec_plain_sound _ _ E) as [c' [Hg' Hb]].
  congruence.
Qed.

Lemma no_plain_body_by_run (tagName xml : str) :
  exec no_flags (plain_re tagName) xml = None ->
  forall c, ~ Spec.plain_body tagName xml c.
Proof. intros E. apply (@exec_tag_None no_flags eq_refl _ _ _ E). Qed.

(** C7 at a tag with a CDATA body, at a plain tag, at an absent tag and
    at a tag whose CDATA section is empty. *)
Lemma getTagContent_order_witness :
  Spec.plain_name "title" = true /\
  (Spec.cdata_body "title" "<title><![CDATA[Show - 01]]></title>"
     "Show - 01" /\
   getTagContent "<title><![CDATA[Show - 01]]></title>" "title"
   = Some (String.list_ascii_of_string "Show - 01")) /\
  ((forall c, Spec.cdata_body "title" "<title>Show - 02</title>" c ->
              c = []) /\
   Spec.plain_body "title" "<title>Show - 02</title>" "Show - 02" /\
   getTagContent "<title>Show - 02</title>" "title"
   = Some (String.list_ascii_of_string "Show - 02")) /\
  ((forall c, Spec.cdata_body "title" "<link>x</link>" c -> c = []) /\
   (forall c, ~ Spec.plain_body "title" "<link>x</link>" c) /\
   getTagContent "<link>x</link>" "title" = Some []) /\
  (Spec.cdata_body "title" "<title><![CDATA[]]></title>" [] /\
   exists c,
     Spec.plain_body "title" "<title><![CDATA[]]></title>" c /\
     getTagContent "<title><![CDATA[]]></title>" "title" = Some c).
Proof.
  split; [reflexivity|]. split; [|split; [|split]].
  - assert (Hb : Spec.cdata_body "title"
                   "<title><![CDATA[Show - 01]]></title>" "Show - 01")
      by (eapply cdata_body_by_run; vm_compute; reflexivity).
    split; [exact Hb|].
    apply (proj1 (@getTagContent_order
                    "<title><![CDATA[Show - 01]]></title>" "title" eq_refl)
             _ Hb).
    discriminate.
  - assert (Hn : forall c, Spec.cdata_body "title"
                             "<title>Show - 02</title>" c -> c = []).
    { intros c Hc. exfalso. revert c Hc.
      apply no_cdata_body_by_run. vm_compute. reflexivity. }
    assert (Hb : Spec.plain_body "title" "<title>Show - 02</title>"
                   "Show - 02")
      by (eapply plain_body_by_run; vm_compute; reflexivity).
    split; [exact Hn|]. split; [exact Hb|].
    exact (proj1 (proj2 (@getTagContent_order
                           "<title>Show - 02</title>" "title" eq_refl))
             Hn _ Hb).
  - assert (Hn : forall c, Spec.cdata_body "title" "<link>x</link>" c ->
                           c = []).
    { intros c Hc. exfalso. revert c Hc.
      apply no_cdata_body_by_run. vm_compute. reflexivity. }
    assert (Hp : forall c, ~ Spec.plain_body "title" "<link>x</link>" c)
      by (apply no_plain_body_by_run; vm_compute; reflexivity).
    split; [exact Hn|]. split; [exact Hp|].
    exact (proj1 (proj2 (proj2 (@getTagContent_order
                                  "<link>x</link>" "title" eq_refl)))
             Hn Hp).
  - assert (Hb : Spec.cdata_body "title" "<title><![CDATA[]]></title>" [])
      by (eapply cdata_body_by_run; vm_compute; reflexivity).
    split; [exact Hb|].
    exact (proj1 (proj2 (proj2 (proj2
                    (@getTagContent_order
                       "<title><![CDATA[]]></title>" "title" eq_refl))))
             Hb).
Defined.

(** C7 fails in the code: on a tag whose CDATA section is empty the CDATA
    match succeeds, with the empty body, and the extractor returns the
    body of the plain match instead, which is the CDATA wrapper. *)
Lemma getTagContent_empty_cdata_falls_through :
  (exists m, exec flag_s (cdata_re "t") Sample.empty_cdata = Some m /\
             group m 1 = Some []) /\
  Spec.cdata_body "t" Sample.empty_cdata [] /\
  getTagContent Sample.empty_cdata "t"
  = Some (String.list_ascii_of_string "<![CDATA[]]>") /\
  getTagContent Sample.empty_cdata "t" <> Some [].
Proof.
  split; [eexists; split; vm_compute; reflexivity|].
  split; [eapply cdata_body_by_run; vm_compute; reflexivity|].
  split; [vm_compute; reflexivity | vm_compute; discriminate].
Qed.

(** C8 at a sample item whose description names no size. *)
Lemma no_size_pattern_defaults_witness :
  exists t description,
    parse_item Sample.habari Sample.date_iso Sample.item_one_hash
      = Normal t /\
    getTagContent Sample.item_one_hash "description" = Some description /\
    Forall (fun part => ~ Spec.has_size_pattern part)
      (description_parts description) /\
    formattedSize t = "0 MB" /\ size t = Num.of_Z 0.
Proof.
  eexists. eexists.
  split; [vm_compute; reflexivity|].
  split; [vm_compute; reflexivity|].
  assert (Hn : Forall (fun part => ~ Spec.has_size_pattern part)
                 (description_parts "blurb | no size here"))
    by (apply no_size_pattern_by_run; vm_compute; reflexivity).
  split; [exact Hn|].
  refine ((fun H => conj (proj1 H) (proj1 (proj2 H)))
            (@no_size_pattern_defaults Sample.habari Sample.date_iso
               Sample.item_one_hash _ "blurb | no size here" _ _ Hn));
    vm_compute; reflexivity.
Defined.

(** C9 at the sample feed: two records, from the first and third
    items. *)
Lemma records_are_complete_witness :
  exists t m,
    In t (parseTorrentsFromXml Sample.habari Sample.date_iso Sample.feed) /\
    magnetLink t = Some m /\
    length (parseTorrentsFromXml Sample.habari Sample.date_iso Sample.feed)
    = 2.
Proof.
  pose (H := records_are_complete Sample.habari Sample.date_iso Sample.feed).
  destruct (parse_item Sample.habari Sample.date_iso
              (nth 2 (feed_items Sample.feed) [])) as [t|] eqn:E;
    [|vm_compute in E; discriminate E].
  assert (Hin : In t (parseTorrentsFromXml Sample.habari Sample.date_iso
                        Sample.feed)).
  { apply In_parse_items. exists (nth 2 (feed_items Sample.feed) []).
    split; [vm_compute; auto | exact E]. }
  destruct (proj1 H t Hin) as [item [title0 [m [_ [_ [_ [_ Hm]]]]]]].
  exists t, m. split; [exact Hin|]. split; [exact Hm|].
  rewrite (proj2 (proj2 H)). vm_compute. reflexivity.
Defined.

(** C10 at the sample feed. *)
Lemma infoHash_empty_or_40_lower_hex_witness :
  exists t,
    In t (parseTorrentsFromXml Sample.habari Sample.date_iso Sample.feed) /\
    (infoHash t = [] \/
     (length (infoHash t) = 40 /\
      Forall (fun c => Spec.is_lower_hex c = true) (infoHash t))).
Proof.
  destruct (parse_item Sample.habari Sample.date_iso
              (nth 0 (feed_items Sample.feed) [])) as [t|] eqn:E;
    [|vm_compute in E; discriminate E].
  assert (Hin : In t (parseTorrentsFromXml Sample.habari Sample.date_iso
                        Sample.feed)).
  { apply In_parse_items. exists (nth 0 (feed_items Sample.feed) []).
    split; [vm_compute; auto | exact E]. }
  exists t. split; [exact Hin|].
  exact (@infoHash_empty_or_40_lower_hex Sample.habari Sample.date_iso
           Sample.feed t Hin).
Defined.

(** C3, as stated, fails on the fixed-position variant of the provider:
    the magnet link of the sample item carries a 40-digit [urn:btih:]
    value, and the info hash of the record is the fourth part of the
    description. *)
Lemma legacy_infoHash_is_fourth_part :
  exists t magnet,
    Legacy.parse_item Sample.date_iso Sample.item_four_parts = Normal t /\
    magnetLink t = Some magnet /\
    Spec.first_btih magnet Sample.hash_upper /\
    infoHash t = "d" /\
    infoHash t <> toLowerCase Sample.hash_upper.
Proof.
  eexists. eexists.
  split; [vm_compute; reflexivity|].
  split; [vm_compute; reflexivity|].
  split; [apply first_btih_by_run; vm_compute; reflexivity|].
  split; [vm_compute; reflexivity | vm_compute; discriminate].
Qed.

(** C8, as stated, fails on the fixed-position variant of the provider:
    no part of the description of the sample item holds a quantity
    followed by a unit, and the record has the second part as formatted
    size and its value as size. *)
Lemma legacy_size_is_second_part :
  exists t description,
    Legacy.parse_item Sample.date_iso Sample.item_bare_number = Normal t /\
    getTagContent Sample.item_bare_number "description" = Some description /\
    Forall (fun part => ~ Spec.has_size_pattern part)
      (Legacy.description_parts description) /\
    Forall (fun part => ~ Spec.has_size_pattern part)
      (description_parts description) /\
    formattedSize t = "123" /\ formattedSize t <> "0 MB" /\
    size t = Num.of_Z 123 /\ size t <> Num.of_Z 0.
Proof.
  eexists. eexists.
  split; [vm_compute; reflexivity|].
  split; [vm_compute; reflexivity|].
  split; [apply no_size_pattern_by_run; vm_compute; reflexivity|].
  split; [apply no_size_pattern_by_run; vm_compute; reflexivity|].
  split; [vm_compute; reflexivity|].
  split; [vm_compute; discriminate|].
  split; [vm_compute; reflexivity | vm_compute; discriminate].
Qed.

End Claims.

(* ================================================================== *)
(** * Further properties of the provider *)
(* ================================================================== *)

Module Properties.
Import Js JsFacts RegexFacts ProviderFacts StringShape MarkupFacts NumFacts
  ItemFacts UriFacts RecordFacts.

(** ** Size conversion *)

(** X1: the size conversions of the two variants of the provider compute
    the same function: replacing an unparseable value by zero and going
    on, as the fixed-position variant does, gives what returning 0 at
    once gives. *)
Theorem size_conversion_variants_agree (sizeStr : str) :
  Legacy.parseSizeToBytes sizeStr = parseSizeToBytes sizeStr.
Proof. apply legacy_parseSizeToBytes_same. Qed.

(** X2: whatever the text, the size conversion of either variant yields
    a zero, a positive finite number or +Infinity: never NaN, never a
    negative number, never the negative zero. *)
Theorem size_conversion_never_negative (sizeStr : str) :
  Shape.non_negative (parseSizeToBytes sizeStr) = true /\
  Shape.non_negative (Legacy.parseSizeToBytes sizeStr) = true.
Proof.
  rewrite legacy_parseSizeToBytes_same.
  split; apply parseSizeToBytes_nonneg.
Qed.

(** X3: a size text that holds no decimal digit (the empty text
    included) converts to 0, whatever unit it names. *)
Theorem size_conversion_without_digits (sizeStr : str) :
  Forall (fun c => is_digit c = false) sizeStr ->
  parseSizeToBytes sizeStr = Num.of_Z 0.
Proof.
  intros F. rewrite parseSizeToBytes_unfold.
  destruct sizeStr as [|c s]; [reflexivity|]. cbv zeta.
  rewrite parseFloat_points; [reflexivity|].
  apply Forall_forall. intros x Hx. apply filter_In in Hx.
  destruct Hx as [Hin Hc]. rewrite Forall_forall in F.
  specialize (F x Hin). unfold class_09dot in Hc.
  unfold is_digit in F. rewrite F in Hc. cbn [orb] in Hc.
  apply ascii_eqb_eq in Hc. exact Hc.
Qed.

Lemma size_conversion_without_digits_witness :
  parseSizeToBytes "N/A GB" = Num.of_Z 0.
Proof.
  apply size_conversion_without_digits. cbn. repeat constructor.
Defined.

(** X4: the size conversion reads its argument up to case: two texts
    with the same lower-case form convert to the same number, so a unit
    is recognised in any mix of cases. *)
Theorem size_conversion_ignores_case (s1 s2 : str) :
  toLowerCase s1 = toLowerCase s2 ->
  parseSizeToBytes s1 = parseSizeToBytes s2.
Proof.
  intros H. rewrite <- (parseSizeToBytes_toLowerCase s1), H.
  apply parseSizeToBytes_toLowerCase.
Qed.

Lemma size_conversion_ignores_case_witness :
  parseSizeToBytes "1.5 Gb" = parseSizeToBytes "1.5 gB".
Proof. apply size_conversion_ignores_case. vm_compute. reflexivity. Defined.

(** ** Tag extraction *)

(** X5: for a tag name made of letters and digits, [getTagContent]
    returns a string for every input (never [undefined]), and the string
    never holds the closing text of the CDATA form,
    [cdata_close tagName]: the content stops at the first closing
    text. *)
Theorem tag_content_total_and_bounded (xml tagName : str) :
  Spec.plain_name tagName = true ->
  exists c, getTagContent xml tagName = Some c /\
            ~ Spec.occurs (cdata_close tagName) c.
Proof.
  intros _. destruct (getTagContent_defined xml tagName) as [c H].
  exists c. split; [exact H|]. eapply getTagContent_closing_free. exact H.
Qed.

Lemma tag_content_total_and_bounded_witness :
  exists c,
    getTagContent "<title><![CDATA[a]]></title>]]></title>" "title"
    = Some c /\
    ~ Spec.occurs (cdata_close "title") c.
Proof. apply tag_content_total_and_bounded. reflexivity. Defined.

(** ** Splitting *)

(** X6: the feed is its header followed by its items, each preceded by
    the marker [<item>]; neither the discarded header nor an item holds
    the marker. *)
Theorem feed_is_header_and_items (xml : str) :
  exists header,
    xml = header ++ Shape.glue "<item>" (feed_items xml) /\
    ~ Spec.occurs "<item>" header /\
    Forall (fun item => ~ Spec.occurs "<item>" item) (feed_items xml).
Proof.
  assert (Hs : String.list_ascii_of_string "<item>" <> []) by discriminate.
  destruct (split_glue xml Hs) as [h [t [E1 E2]]].
  pose proof (split_pieces xml Hs) as F. rewrite E1 in F.
  inversion F as [|? ? Fh Ft]; subst.
  unfold feed_items, shift. rewrite E1. cbn [tl].
  exists h. auto.
Qed.

(** X7: the description parts are never an empty list; glued with the
    pipe they give back the cleaned description; and no part holds a
    pipe or a markup tag. *)
Theorem description_parts_shape (description : str) :
  exists first others,
    description_parts description = first :: others /\
    first ++ Shape.glue "|" others
    = trim (replace_all no_flags markup_re "" description) /\
    Forall (fun part => ~ Spec.occurs "|" part /\ ~ Shape.has_markup part)
      (first :: others).
Proof.
  assert (Hs : String.list_ascii_of_string "|" <> []) by discriminate.
  unfold description_parts. cbv zeta.
  set (cleaned := trim (replace_all no_flags markup_re "" description)).
  destruct (split_glue cleaned Hs) as [h [t [E1 E2]]].
  exists h, t. split; [exact E1|]. split; [symmetry; exact E2|].
  rewrite <- E1. apply Forall_forall. intros part Hin. split.
  - pose proof (split_pieces cleaned Hs) as F.
    rewrite Forall_forall in F. apply F. exact Hin.
  - intros Hm. destruct (@split_piece cleaned _ part Hs Hin) as [pre [post E]].
    apply (proj1 (cleaned_text description)).
    fold cleaned. rewrite E. apply has_markup_stretch. exact Hm.
Qed.

(** ** Cleaning *)

(** X8: the cleaning applied to titles and descriptions (strip the
    markup, then trim) leaves no markup tag, that is no [<] with a [>]
    after it, and no white space at either end; cleaning a cleaned text
    changes nothing. *)
Theorem cleaning_is_complete (s : str) :
  let clean := fun x => trim (replace_all no_flags markup_re "" x) in
  ~ Shape.has_markup (clean s) /\ Shape.trimmed (clean s) /\
  clean (clean s) = clean s.
Proof.
  cbv zeta beta. destruct (cleaned_text s) as [H1 H2].
  split; [exact H1|]. split; [exact H2|].
  rewrite (strip_markup_fixed H1). apply trim_fixed. exact H2.
Qed.

(** X9: text that holds no markup tag is not changed by the stripping;
    in particular an angle bracket that is not part of a tag is kept. *)
Theorem stripping_keeps_plain_text (s : str) :
  ~ Shape.has_markup s -> replace_all no_flags markup_re "" s = s.
Proof. apply strip_markup_fixed. Qed.

Lemma stripping_keeps_plain_text_witness :
  replace_all no_flags markup_re "" "2 > 1 and 1 < 2"
  = String.list_ascii_of_string "2 > 1 and 1 < 2".
Proof.
  apply stripping_keeps_plain_text. apply no_markup_by_run.
  vm_compute. reflexivity.
Defined.

(** ** The formatted size *)

(** X10: whatever the description parts, the formatted size chosen by the
    size loop holds a quantity followed by a unit (the placeholder
    [0 MB] does) and has no white space at either end. *)
Theorem formattedSize_always_a_size (parts : list str) :
  Spec.has_size_pattern (find_formattedSize parts) /\
  Shape.trimmed (find_formattedSize parts).
Proof. apply find_formattedSize_shape. Qed.

(** X11: when some description part, trimmed, holds a quantity and a
    unit, the formatted size is the first such part, trimmed. *)
Theorem formattedSize_is_first_size_part (parts : list str) (part : str) :
  Spec.first_such (fun p => Spec.has_size_pattern (trim p)) parts part ->
  find_formattedSize parts = trim part.
Proof.
  intros H. unfold find_formattedSize.
  rewrite (find_first_such is_size_part is_size_part_iff H). reflexivity.
Qed.

Lemma formattedSize_is_first_size_part_witness :
  find_formattedSize [("blurb " : str); (" 1.5GB " : str); (" 700 MB" : str)]
  = trim " 1.5GB ".
Proof.
  apply formattedSize_is_first_size_part.
  exists [("blurb " : str)], [(" 700 MB" : str)].
  split; [reflexivity|]. split.
  - apply is_size_part_iff. vm_compute. reflexivity.
  - constructor; [|constructor]. intros H.
    apply is_size_part_iff in H. vm_compute in H. discriminate H.
Defined.

(** ** Items and records *)

(** X12: an item yields a record exactly when the title parser returns
    on the cleaned title and the publication date is valid; a missing
    magnet link, size or hash never drops an item. *)
Theorem item_yields_record_iff
  (habari_parse : str -> completion Metadata)
  (Date_toISOString : str -> option str) (itemXml : str) :
  exists title0 pubDate,
    getTagContent itemXml "title" = Some title0 /\
    getTagContent itemXml "pubDate" = Some pubDate /\
    ((exists t, parse_item habari_parse Date_toISOString itemXml = Normal t)
     <->
     (exists metadata,
         habari_parse (trim (replace_all no_flags markup_re "" title0))
         = Normal metadata) /\
     (exists iso, Date_toISOString pubDate = Some iso)).
Proof.
  destruct (getTagContent_defined itemXml "title") as [title0 Ht].
  destruct (getTagContent_defined itemXml "pubDate") as [pubDate Hp].
  exists title0, pubDate. split; [exact Ht|]. split; [exact Hp|].
  apply parse_item_returns; assumption.
Qed.

(** X13: for the record of an item, [getTorrentInfoHash] returns the
    record's info hash and [getTorrentMagnetLink] its magnet link, which
    is a string: either empty, or a [magnet:] address of at least one
    more character and without double quotes, which the item holds as
    the [url] of an enclosure. *)
Theorem accessors_of_a_record
  (habari_parse : str -> completion Metadata)
  (Date_toISOString : str -> option str) (itemXml : str)
  (t : AnimeTorrent) :
  parse_item habari_parse Date_toISOString itemXml = Normal t ->
  getTorrentInfoHash t = infoHash t /\
  exists m,
    magnetLink t = Some m /\ getTorrentMagnetLink t = m /\
    (m = [] \/
     (Shape.magnet_uri m /\
      Spec.occurs (("<enclosure url=" ++ [dquote]) ++ m ++ [dquote])
        itemXml)).
Proof.
  intros H. split; [apply or_else_string|].
  destruct (parse_item_fields _ _ _ H)
    as [title0 [d [_ [_ [_ [Hm _]]]]]].
  destruct (magnet_of_item itemXml) as [m [Em Sm]].
  exists m. rewrite <- Hm in Em. split; [exact Em|]. split; [|exact Sm].
  unfold getTorrentMagnetLink. rewrite Em. apply or_else_string.
Qed.

Lemma accessors_of_a_record_witness :
  exists t m,
    parse_item Sample.habari Sample.date_iso Sample.item_one_hash = Normal t
    /\ magnetLink t = Some m /\ getTorrentMagnetLink t = m.
Proof.
  destruct (parse_item Sample.habari Sample.date_iso Sample.item_one_hash)
    as [t|] eqn:E; [|vm_compute in E; discriminate E].
  destruct (accessors_of_a_record _ _ _ E) as [_ [m [H1 [H2 _]]]].
  exists t, m. auto.
Defined.

(** ** The search address *)

(** X14: the address fetched by [search] is the feed address, then
    [?keyword=], then the encoded query, in which every character is an
    unreserved one or the percent sign of an escape: the query cannot
    add a parameter or a fragment to the address. *)
Theorem search_url_component_safe (opts : AnimeSearchOptions) :
  exists e,
    search_url opts = api ++ "?keyword=" ++ e /\
    forallb Shape.component_char e = true /\
    Forall (fun c => ~ In c ["&"; "="; "?"; "#"; "/"; " "]%char) e.
Proof.
  exists (Uri.encodeURIComponent (query opts)).
  split; [reflexivity|].
  pose proof (encodeURIComponent_component (query opts)) as H.
  split; [exact H|].
  rewrite forallb_forall in H. apply Forall_forall. intros c Hc Hin.
  specialize (H c Hc).
  cbn [In] in Hin.
  repeat match type of Hin with
         | _ \/ _ => destruct Hin as [<- | Hin]; [discriminate H|]
         end.
  exact Hin.
Qed.

(** X15: different queries are searched at different addresses. *)
Theorem search_url_injective (opts1 opts2 : AnimeSearchOptions) :
  search_url opts1 = search_url opts2 -> query opts1 = query opts2.
Proof.
  unfold search_url. intros H.
  apply app_inv_head in H. apply app_inv_head in H.
  apply (f_equal Shape.unescape) in H.
  rewrite !unescape_encodeURIComponent in H. exact H.
Qed.

Lemma search_url_injective_witness :
  query {| query := "one piece" |}
  = query {| query := trim " one piece " |}.
Proof. apply search_url_injective. vm_compute. reflexivity. Defined.

(** ** The two variants *)

(** X16: an item that yields a record in the pattern-scanning variant
    yields one in the fixed-position variant too, with the same date,
    link and magnet link; and with the same info hash when the magnet
    link carries a hash and the description has at most three
    pipe-separated parts. *)
Theorem variants_agree_on_an_item
  (habari_parse : str -> completion Metadata)
  (Date_toISOString : str -> option str) (itemXml : str)
  (t : AnimeTorrent) :
  parse_item habari_parse Date_toISOString itemXml = Normal t ->
  exists t',
    Legacy.parse_item Date_toISOString itemXml = Normal t' /\
    date t' = date t /\ link t' = link t /\
    magnetLink t' = magnetLink t /\
    forall description h,
      getTagContent itemXml "description" = Some description ->
      length (Legacy.description_parts description) <= 3 ->
      getHashFromMagnet (magnetLink t) = Some h ->
      infoHash t' = infoHash t.
Proof.
  unfold parse_item, Legacy.parse_item.
  destruct (getTagContent_defined itemXml "title") as [title0 ->].
  destruct (getTagContent_defined itemXml "description") as [d ->].
  cbn [deref bind]. cbv zeta.
  remember (match exec no_flags enclosure_re itemXml with
            | Some magnetMatch => group magnetMatch 1
            | None => Some []
            end) as ml eqn:Eml.
  destruct (habari_parse _) as [metadata|]; [|discriminate].
  cbn [bind].
  destruct (new_Date_toISOString _ _) as [iso|]; [|discriminate].
  cbn [bind]. intros H. injection H as <-.
  eexists. split; [reflexivity|].
  cbn [date link magnetLink infoHash].
  split; [reflexivity|]. split; [reflexivity|]. split; [reflexivity|].
  intros description h Hd Hl Hh. injection Hd as <-.
  f_equal.
  destruct (magnet_hash_cases ml) as [[h' [_ [_ [E2 E3]]]] | [E1 _]];
    [|rewrite E1 in Hh; discriminate Hh].
  unfold find_infoHash. cbv zeta.
  change (String.list_ascii_of_string "") with (@nil ascii).
  rewrite E2, E3. cbn [negb].
  unfold Legacy.infoHash_of.
  change (String.list_ascii_of_string "") with (@nil ascii).
  destruct (Legacy.description_parts d) as [|p0 [|p1 [|p2 [|p3 ps]]]];
    try exact E2.
  simpl in Hl. lia.
Qed.

Lemma variants_agree_on_an_item_witness :
  exists t t',
    parse_item Sample.habari Sample.date_iso Sample.item_one_hash = Normal t
    /\ Legacy.parse_item Sample.date_iso Sample.item_one_hash = Normal t'
    /\ magnetLink t' = magnetLink t.
Proof.
  destruct (parse_item Sample.habari Sample.date_iso Sample.item_one_hash)
    as [t|] eqn:E; [|vm_compute in E; discriminate E].
  destruct (variants_agree_on_an_item _ _ _ E) as [t' [H1 [_ [_ [H2 _]]]]].
  exists t, t'. auto.
Defined.

(** ** The results of the public operations *)

(** X17: every record returned by [search] or by [getLatest], whatever
    the network, the title parser and the date library do, has the shape
    of a record: a name without markup or outer white space, a magnet
    link that is empty or a [magnet:] address, a formatted size with a
    quantity and a unit, a size that is not negative, an episode number
    that is not NaN, and an info hash that is empty or 40 lower-case
    hexadecimal digits. *)
Theorem results_are_well_formed
  (fetch : str -> completion Response)
  (habari_parse : str -> completion Metadata)
  (Date_toISOString : str -> option str) (opts : AnimeSearchOptions)
  (l : list AnimeTorrent) (t : AnimeTorrent) :
  search fetch habari_parse Date_toISOString opts = Normal l \/
  getLatest fetch habari_parse Date_toISOString = Normal l ->
  In t l -> Shape.well_formed t.
Proof.
  unfold search, getLatest. cbv zeta. intros [H | H] Hin;
    destruct (fetchAndParseRss_records _ _ _ _ _ H Hin)
      as [response [item [_ [_ [_ Hp]]]]];
    eapply parse_item_well_formed; exact Hp.
Qed.

Lemma results_are_well_formed_witness :
  exists l t,
    search
      (Sample.fetch_ok
         {| ok := true; status := 200;
            text := "<rss><item>" ++ Sample.item_one_hash |})
      Sample.habari Sample.date_iso {| query := "show 01" |} = Normal l /\
    In t l /\ Shape.well_formed t.
Proof.
  destruct (search
              (Sample.fetch_ok
                 {| ok := true; status := 200;
                    text := "<rss><item>" ++ Sample.item_one_hash |})
              Sample.habari Sample.date_iso {| query := "show 01" |})
    as [[|t l]|] eqn:E;
    [vm_compute in E; discriminate E | | vm_compute in E; discriminate E].
  exists (t :: l), t. split; [reflexivity|].
  split; [left; reflexivity|].
  eapply results_are_well_formed; [left; exact E | left; reflexivity].
Defined.

End Properties.
